(** * Prompty: the round / phase lifecycle engine

    A shallow embedding of the Convex backend of the game
    (convex/lib/gameLogic.ts and, under convex/game, the phases,
    generation, prompts, voting and scoring modules) and the properties of its phase state machine,
    completion evaluator and scoring engine.

    Conventions of the embedding:
    - a Convex document id is a number ([N]); only equality of ids is used;
    - a JS [number] holding a time or a score is an integer ([Z]);
      [Date.now()] is read once per mutation (Convex freezes the clock for
      the duration of a function), so every handler takes [now];
    - a table is the list of its documents in creation order, which is the
      order [collect()] returns them in;
    - a JS [Set] of ids is a [gset N], a JS [Map] is an association list in
      insertion order (the order [entries()] iterates in). *)

From stdpp Require Import gmap strings list.

#[local] Set Warnings "-clear-no-such-hyp".

Local Open Scope Z_scope.

(** ** Schema *)

Inductive PlayerStatus := connected | disconnected | kicked.
Inductive RoomStatus := waiting | starting | playing | finished.

Global Instance PlayerStatus_eq_dec : EqDecision PlayerStatus.
Proof. solve_decision. Defined.
Global Instance RoomStatus_eq_dec : EqDecision RoomStatus.
Proof. solve_decision. Defined.

Module Player.
Record t := mk {
  _id : N;
  roomId : N;
  userId : N;
  status : PlayerStatus;
  isHost : bool;
  score : Z;
}.
Definition set_score (s : Z) (p : t) : t :=
  mk (_id p) (roomId p) (userId p) (status p) (isHost p) s.
End Player.

Module Prompt.
Record t := mk {
  _id : N;
  roundId : N;
  playerId : N;
  text : string;
  submittedAt : Z;
}.
End Prompt.

Module GeneratedImage.
Record t := mk {
  _id : N;
  promptId : N;
  imageUrl : string;
  generatedAt : Z;
  error : option string;
}.
End GeneratedImage.

Module Vote.
Record t := mk {
  _id : N;
  roundId : N;
  voterId : N;
  imageId : N;
  submittedAt : Z;
}.
End Vote.

Module VotingEligibility.
Record t := mk {
  playerId : N;
  isEligible : bool;
  reason : string;
}.
End VotingEligibility.

Inductive ScoreReason := winner | winner_tie | participation.

Global Instance ScoreReason_eq_dec : EqDecision ScoreReason.
Proof. solve_decision. Defined.

Module ScoreResult.
Record t := mk {
  playerId : N;
  pointsAwarded : Z;
  reason : ScoreReason;
}.
End ScoreResult.

(** ** JS [Map] with number keys, in insertion order *)

Module JsMap.
Section map.
Context {V : Type}.

Definition t := list (N * V).

Definition empty : t := [].

Fixpoint get (m : t) (k : N) : option V :=
  match m with
  | [] => None
  | (k', v) :: m' => if bool_decide (k' = k) then Some v else get m' k
  end.

(** [set] overwrites in place when the key is present and appends
    a new entry otherwise. *)
Fixpoint set (m : t) (k : N) (v : V) : t :=
  match m with
  | [] => [(k, v)]
  | (k', v') :: m' =>
      if bool_decide (k' = k) then (k', v) :: m' else (k', v') :: set m' k v
  end.

Definition size (m : t) : nat := length m.
Definition keys (m : t) : list N := m.*1.
Definition values (m : t) : list V := m.*2.
Definition entries (m : t) : list (N * V) := m.

(** The invariant of a [Map]: a key occurs once. *)
Definition wf (m : t) : Prop := NoDup (keys m).
End map.
Global Arguments t : clear implicits.
End JsMap.

(** ** convex/lib/gameLogic.ts *)

(** The body of the loop of [calculateVotingEligibility]: the entry pushed
    for one player. *)
Definition votingEligibilityOf (prompts : list Prompt.t) (player : Player.t)
    : VotingEligibility.t :=
  if negb (bool_decide (Player.status player = connected)) then
    VotingEligibility.mk (Player._id player) false "Player is not connected"
  else
    let playerSubmittedPrompt :=
      existsb (λ p, bool_decide (Prompt.playerId p = Player._id player)) prompts in
    let hasOtherPlayersImages :=
      existsb (λ p, negb (bool_decide (Prompt.playerId p = Player._id player))) prompts in
    if hasOtherPlayersImages then
      VotingEligibility.mk (Player._id player) true
        "Can vote on other players' images"
    else if negb playerSubmittedPrompt then
      VotingEligibility.mk (Player._id player) true
        "Did not submit prompt, can vote on all images"
    else
      VotingEligibility.mk (Player._id player) false
        "Only own image available".

Definition calculateVotingEligibility
    (connectedPlayers : list Player.t) (prompts : list Prompt.t)
    : list VotingEligibility.t :=
  map (votingEligibilityOf prompts) connectedPlayers.

Definition haveAllEligiblePlayersVoted
    (eligibility : list VotingEligibility.t) (votes : list Vote.t) : bool :=
  let votedPlayerIds : gset N := list_to_set (map Vote.voterId votes) in
  let eligiblePlayers :=
    List.filter VotingEligibility.isEligible eligibility in
  if bool_decide (length eligiblePlayers = 0%nat) then false
  else
    forallb (λ e, bool_decide (VotingEligibility.playerId e ∈ votedPlayerIds))
      eligiblePlayers.

Definition countVotesPerImage (votes : list Vote.t) : JsMap.t nat :=
  fold_left (λ voteCounts vote,
      let count := default 0%nat (JsMap.get voteCounts (Vote.imageId vote)) in
      JsMap.set voteCounts (Vote.imageId vote) (count + 1)%nat)
    votes JsMap.empty.

(** The number of votes that name an image: what [countVotesPerImage]
    is meant to compute. *)
Definition votesFor (imageId : N) (votes : list Vote.t) : nat :=
  length (List.filter (λ v, bool_decide (Vote.imageId v = imageId)) votes).

(** [Math.max(...xs)] on vote counts.  The only call site checks that the
    map is not empty first, so the [-Infinity] of an empty argument list
    never arises; on counts (naturals) the fold below is the maximum. *)
Definition Math_max (xs : list nat) : nat := foldr Nat.max 0%nat xs.

Definition findWinningImages (voteCounts : JsMap.t nat) : list N :=
  if bool_decide (JsMap.size voteCounts = 0%nat) then []
  else
    let maxVotes := Math_max (JsMap.values voteCounts) in
    if bool_decide (maxVotes = 0%nat) then []
    else
      (List.filter (λ '(imageId, count), bool_decide (count = maxVotes))
         (JsMap.entries voteCounts)).*1.

Record ScoreConfig := {
  pointsPerWin : Z;
  pointsPerVote : Z;
}.

(** The second loop of [calculateRoundScores]: one participation entry per
    voter, at the first vote of that voter. *)
Fixpoint participationResults (config : ScoreConfig)
    (voterPlayerIds : gset N) (votes : list Vote.t) : list ScoreResult.t :=
  match votes with
  | [] => []
  | vote :: rest =>
      if bool_decide (Vote.voterId vote ∈ voterPlayerIds) then
        participationResults config voterPlayerIds rest
      else
        ScoreResult.mk (Vote.voterId vote) (pointsPerVote config) participation
        :: participationResults config ({[Vote.voterId vote]} ∪ voterPlayerIds) rest
  end.

(** The first loop: one winner entry per winning image whose image and
    prompt are found; the others are skipped ([continue]). *)
Definition winnerResults (config : ScoreConfig) (winningImageIds : list N)
    (images : list GeneratedImage.t) (prompts : list Prompt.t)
    : list ScoreResult.t :=
  let pointsPerWinner :=
    pointsPerWin config `div` Z.of_nat (length winningImageIds) in
  omap (λ imageId,
      image ← List.find (λ i, bool_decide (GeneratedImage._id i = imageId)) images;
      prompt ← List.find
        (λ p, bool_decide (Prompt._id p = GeneratedImage.promptId image)) prompts;
      Some (ScoreResult.mk (Prompt.playerId prompt) pointsPerWinner
              (if bool_decide (1 < length winningImageIds)%nat
               then winner_tie else winner)))
    winningImageIds.

Definition calculateRoundScores (votes : list Vote.t)
    (images : list GeneratedImage.t) (prompts : list Prompt.t)
    (config : ScoreConfig) : list ScoreResult.t :=
  let voteCounts := countVotesPerImage votes in
  let winningImageIds := findWinningImages voteCounts in
  (if bool_decide (0 < length winningImageIds)%nat
   then winnerResults config winningImageIds images prompts
   else [])
  ++ participationResults config ∅ votes.

Definition shouldTriggerEarlyPromptTransition
    (connectedPlayers : list Player.t) (prompts : list Prompt.t) : bool :=
  let connectedPlayerIds :=
    map Player._id
      (List.filter (λ p, bool_decide (Player.status p = connected))
         connectedPlayers) in
  if bool_decide (length connectedPlayerIds = 0%nat) then false
  else
    let submittedPlayerIds : gset N := list_to_set (map Prompt.playerId prompts) in
    forallb (λ id, bool_decide (id ∈ submittedPlayerIds)) connectedPlayerIds.

Definition shouldTriggerEarlyVotingTransition
    (connectedPlayers : list Player.t) (prompts : list Prompt.t)
    (votes : list Vote.t) : bool :=
  let eligibility := calculateVotingEligibility connectedPlayers prompts in
  haveAllEligiblePlayersVoted eligibility votes.

(** ** Documents of the engine: rooms, rounds, scheduled jobs *)

Module Room.
Record Settings := mkSettings {
  maxPlayers : Z;
  roundsPerGame : Z;
}.
Record t := mk {
  _id : N;
  status : RoomStatus;
  settings : Settings;
  currentRound : option Z;
}.
End Room.

Module Round.
Inductive Status := prompt | generating | voting | results | complete.

Global Instance Status_eq_dec : EqDecision Status.
Proof. solve_decision. Defined.

Record t := mk {
  _id : N;
  roomId : N;
  roundNumber : Z;
  questionCardId : N;
  status : Status;
  startedAt : Z;
  phaseEndTime : option Z;
  scheduledTransitionId : option N;
  generationStartedAt : option Z;
  generationExpectedCount : option Z;
  generationCompletedCount : option Z;
  generationCompletedAt : option Z;
  generationError : option string;
  endedAt : option Z;
}.

(** Field updates, the building blocks of [db.patch(roundId, {...})]. *)
Definition set_status (x : Status) (r : t) : t :=
  mk (_id r) (roomId r) (roundNumber r) (questionCardId r) x (startedAt r)
     (phaseEndTime r) (scheduledTransitionId r) (generationStartedAt r)
     (generationExpectedCount r) (generationCompletedCount r)
     (generationCompletedAt r) (generationError r) (endedAt r).
Definition set_phaseEndTime (x : option Z) (r : t) : t :=
  mk (_id r) (roomId r) (roundNumber r) (questionCardId r) (status r) (startedAt r)
     x (scheduledTransitionId r) (generationStartedAt r)
     (generationExpectedCount r) (generationCompletedCount r)
     (generationCompletedAt r) (generationError r) (endedAt r).
Definition set_scheduledTransitionId (x : option N) (r : t) : t :=
  mk (_id r) (roomId r) (roundNumber r) (questionCardId r) (status r) (startedAt r)
     (phaseEndTime r) x (generationStartedAt r)
     (generationExpectedCount r) (generationCompletedCount r)
     (generationCompletedAt r) (generationError r) (endedAt r).
Definition set_generationStartedAt (x : option Z) (r : t) : t :=
  mk (_id r) (roomId r) (roundNumber r) (questionCardId r) (status r) (startedAt r)
     (phaseEndTime r) (scheduledTransitionId r) x
     (generationExpectedCount r) (generationCompletedCount r)
     (generationCompletedAt r) (generationError r) (endedAt r).
Definition set_generationExpectedCount (x : option Z) (r : t) : t :=
  mk (_id r) (roomId r) (roundNumber r) (questionCardId r) (status r) (startedAt r)
     (phaseEndTime r) (scheduledTransitionId r) (generationStartedAt r)
     x (generationCompletedCount r)
     (generationCompletedAt r) (generationError r) (endedAt r).
Definition set_generationCompletedCount (x : option Z) (r : t) : t :=
  mk (_id r) (roomId r) (roundNumber r) (questionCardId r) (status r) (startedAt r)
     (phaseEndTime r) (scheduledTransitionId r) (generationStartedAt r)
     (generationExpectedCount r) x
     (generationCompletedAt r) (generationError r) (endedAt r).
Definition set_generationCompletedAt (x : option Z) (r : t) : t :=
  mk (_id r) (roomId r) (roundNumber r) (questionCardId r) (status r) (startedAt r)
     (phaseEndTime r) (scheduledTransitionId r) (generationStartedAt r)
     (generationExpectedCount r) (generationCompletedCount r)
     x (generationError r) (endedAt r).
Definition set_generationError (x : option string) (r : t) : t :=
  mk (_id r) (roomId r) (roundNumber r) (questionCardId r) (status r) (startedAt r)
     (phaseEndTime r) (scheduledTransitionId r) (generationStartedAt r)
     (generationExpectedCount r) (generationCompletedCount r)
     (generationCompletedAt r) x (endedAt r).
Definition set_endedAt (x : option Z) (r : t) : t :=
  mk (_id r) (roomId r) (roundNumber r) (questionCardId r) (status r) (startedAt r)
     (phaseEndTime r) (scheduledTransitionId r) (generationStartedAt r)
     (generationExpectedCount r) (generationCompletedCount r)
     (generationCompletedAt r) (generationError r) x.
End Round.

(** The functions the engine hands to the scheduler, with their arguments. *)
Inductive ScheduledFn :=
  | fn_transitionPhase (roundId : N)
  | fn_verifyAndTriggerGeneration (roundId : N) (retryCount : Z)
  | fn_generateAIImages (roundId : N)
  | fn_calculateScores (roundId : N)
  | fn_startNextRound (roomId : N)
  | fn_endGame (roomId : N).

Module Job.
Record t := mk {
  _id : N;
  scheduledTime : Z;
  fn : ScheduledFn;
}.
End Job.

(** ** The store and the scheduler: the state a mutation runs on *)

Module Store.
Record t := mk {
  rooms : list Room.t;
  players : list Player.t;
  rounds : list Round.t;
  prompts : list Prompt.t;
  generatedImages : list GeneratedImage.t;
  votes : list Vote.t;
  scheduled : list Job.t;
  nextJobId : N;
}.
Definition set_players (x : list Player.t) (s : t) : t :=
  mk (rooms s) x (rounds s) (prompts s) (generatedImages s) (votes s)
     (scheduled s) (nextJobId s).
Definition set_rounds (x : list Round.t) (s : t) : t :=
  mk (rooms s) (players s) x (prompts s) (generatedImages s) (votes s)
     (scheduled s) (nextJobId s).
Definition set_scheduler (js : list Job.t) (n : N) (s : t) : t :=
  mk (rooms s) (players s) (rounds s) (prompts s) (generatedImages s) (votes s)
     js n.
End Store.

(** [db.get(id)] on one table: the document with that id, if any. *)
Definition tbl_get {A} (ident : A → N) (tbl : list A) (id : N) : option A :=
  List.find (λ d, bool_decide (ident d = id)) tbl.

(** [db.patch(id, fields)] on one table: [None] when no document has the
    id (Convex throws). *)
Fixpoint tbl_patch {A} (ident : A → N) (tbl : list A) (id : N) (f : A → A)
    : option (list A) :=
  match tbl with
  | [] => None
  | d :: rest =>
      if bool_decide (ident d = id) then Some (f d :: rest)
      else (d ::.) <$> tbl_patch ident rest id f
  end.

(** A mutation either returns a value and the new state, or throws. *)
Inductive Outcome (A : Type) :=
  | Returned (a : A) (s : Store.t)
  | Thrown (msg : string).
Global Arguments Returned {A} a s.
Global Arguments Thrown {A} msg.

Definition Mutation (A : Type) : Type := Store.t → Outcome A.

Global Instance Mutation_ret : MRet Mutation := λ A a s, Returned a s.
Global Instance Mutation_bind : MBind Mutation := λ A B k m s,
  match m s with
  | Returned a s' => k a s'
  | Thrown msg => Thrown msg
  end.

Definition read {A} (f : Store.t → A) : Mutation A := λ s, Returned (f s) s.

Definition db_get_room (id : N) : Mutation (option Room.t) :=
  read (λ s, tbl_get Room._id (Store.rooms s) id).
Definition db_get_player (id : N) : Mutation (option Player.t) :=
  read (λ s, tbl_get Player._id (Store.players s) id).
Definition db_get_round (id : N) : Mutation (option Round.t) :=
  read (λ s, tbl_get Round._id (Store.rounds s) id).
Definition db_get_prompt (id : N) : Mutation (option Prompt.t) :=
  read (λ s, tbl_get Prompt._id (Store.prompts s) id).
Definition db_get_generatedImage (id : N) : Mutation (option GeneratedImage.t) :=
  read (λ s, tbl_get GeneratedImage._id (Store.generatedImages s) id).

Definition db_patch_round (id : N) (f : Round.t → Round.t) : Mutation unit :=
  λ s, match tbl_patch Round._id (Store.rounds s) id f with
       | Some tbl => Returned () (Store.set_rounds tbl s)
       | None => Thrown "patch: round does not exist"
       end.
Definition db_patch_player (id : N) (f : Player.t → Player.t) : Mutation unit :=
  λ s, match tbl_patch Player._id (Store.players s) id f with
       | Some tbl => Returned () (Store.set_players tbl s)
       | None => Thrown "patch: player does not exist"
       end.

(** Index queries followed by [collect()]. *)
Definition prompts_by_round (roundId : N) : Mutation (list Prompt.t) :=
  read (λ s, List.filter (λ p, bool_decide (Prompt.roundId p = roundId))
               (Store.prompts s)).
Definition votes_by_round (roundId : N) : Mutation (list Vote.t) :=
  read (λ s, List.filter (λ v, bool_decide (Vote.roundId v = roundId))
               (Store.votes s)).
Definition generatedImages_by_prompt (promptId : N)
    : Mutation (list GeneratedImage.t) :=
  read (λ s, List.filter (λ i, bool_decide (GeneratedImage.promptId i = promptId))
               (Store.generatedImages s)).
Definition connected_players_by_room (roomId : N) : Mutation (list Player.t) :=
  read (λ s, List.filter (λ p, bool_decide (Player.status p = connected))
               (List.filter (λ p, bool_decide (Player.roomId p = roomId))
                  (Store.players s))).

(** The scheduler: a job gets a fresh handle; canceling a handle that is
    not pending does nothing. *)
Definition scheduler_runAt (time : Z) (fn : ScheduledFn) : Mutation N :=
  λ s, let id := Store.nextJobId s in
       Returned id
         (Store.set_scheduler (Store.scheduled s ++ [Job.mk id time fn])
            (N.succ id) s).
Definition scheduler_runAfter (now delayMs : Z) (fn : ScheduledFn) : Mutation N :=
  scheduler_runAt (now + delayMs) fn.
Definition scheduler_cancel (id : N) : Mutation unit :=
  λ s, Returned ()
         (Store.set_scheduler
            (List.filter (λ j, negb (bool_decide (Job._id j = id)))
               (Store.scheduled s))
            (Store.nextJobId s) s).

(** Truthiness of an optional number ([undefined], [0] are falsy). *)
Definition truthy (x : option Z) : bool :=
  match x with
  | Some n => negb (bool_decide (n = 0))
  | None => false
  end.

(** ** convex/lib/constants.ts

    The file is not among the sources at hand; the phase durations
    (milliseconds) and the point amounts of [GAME_CONFIG] are parameters of
    every function that reads them. *)
Record GameConfig := {
  PROMPT_PHASE_DURATION : Z;
  GENERATION_PHASE_DURATION : Z;
  VOTING_PHASE_DURATION : Z;
  RESULTS_PHASE_DURATION : Z;
  POINTS_PER_WIN : Z;
  POINTS_PER_VOTE : Z;
}.

Definition when (b : bool) (m : Mutation unit) : Mutation unit :=
  if b then m else mret ().

(** ** convex/game/phases.ts *)

Definition getPhaseDuration (cfg : GameConfig) (status : Round.Status) : Z :=
  match status with
  | Round.prompt => PROMPT_PHASE_DURATION cfg
  | Round.generating => GENERATION_PHASE_DURATION cfg
  | Round.voting => VOTING_PHASE_DURATION cfg
  | Round.results => RESULTS_PHASE_DURATION cfg
  | _ => 0
  end.

Definition MINIMUM_PHASE_DURATION_MS : Z := 1000.

(** The race guard at the head of [transitionPhase]: [true] when the call
    returns early because the phase has just started. *)
Definition duplicateTransition (cfg : GameConfig) (now : Z) (round : Round.t) : bool :=
  if truthy (Round.phaseEndTime round)
     && negb (bool_decide (Round.status round = Round.generating))
     && negb (bool_decide (Round.status round = Round.complete))
  then
    let phaseDuration := getPhaseDuration cfg (Round.status round) in
    let phaseStartTime := default 0 (Round.phaseEndTime round) - phaseDuration in
    let timeInPhase := now - phaseStartTime in
    bool_decide (timeInPhase < MINIMUM_PHASE_DURATION_MS)
  else false.

Definition transitionPhase (cfg : GameConfig) (now : Z) (roundId : N)
    : Mutation unit :=
  round ← db_get_round roundId;
  match round with
  | None => mret ()
  | Some round =>
    if duplicateTransition cfg now round then mret ()
    else
      when (bool_decide (is_Some (Round.scheduledTransitionId round)))
        (db_patch_round roundId (Round.set_scheduledTransitionId None));;
      match Round.status round with
      | Round.prompt =>
          prompts ← prompts_by_round roundId;
          db_patch_round roundId (λ r,
            Round.set_generationCompletedCount (Some 0)
              (Round.set_generationExpectedCount (Some (Z.of_nat (length prompts)))
                 (Round.set_generationStartedAt (Some now)
                    (Round.set_phaseEndTime
                       (Some (now + GENERATION_PHASE_DURATION cfg))
                       (Round.set_status Round.generating r)))));;
          scheduler_runAfter now 1000 (fn_verifyAndTriggerGeneration roundId 0);;
          generatingScheduledJobId ←
            scheduler_runAt (now + GENERATION_PHASE_DURATION cfg)
              (fn_transitionPhase roundId);
          db_patch_round roundId
            (Round.set_scheduledTransitionId (Some generatingScheduledJobId))
      | Round.generating =>
          db_patch_round roundId (λ r,
            Round.set_phaseEndTime (Some (now + VOTING_PHASE_DURATION cfg))
              (Round.set_status Round.voting r));;
          votingScheduledJobId ←
            scheduler_runAt (now + VOTING_PHASE_DURATION cfg)
              (fn_transitionPhase roundId);
          db_patch_round roundId
            (Round.set_scheduledTransitionId (Some votingScheduledJobId))
      | Round.voting =>
          db_patch_round roundId (λ r,
            Round.set_phaseEndTime (Some (now + RESULTS_PHASE_DURATION cfg))
              (Round.set_status Round.results r));;
          scheduler_runAfter now 0 (fn_calculateScores roundId);;
          resultsScheduledJobId ←
            scheduler_runAt (now + RESULTS_PHASE_DURATION cfg)
              (fn_transitionPhase roundId);
          db_patch_round roundId
            (Round.set_scheduledTransitionId (Some resultsScheduledJobId))
      | Round.results =>
          db_patch_round roundId (λ r,
            Round.set_endedAt (Some now) (Round.set_status Round.complete r));;
          room ← db_get_room (Round.roomId round);
          match room with
          | Some room =>
              if truthy (Room.currentRound room)
                 && bool_decide (default 0 (Room.currentRound room)
                                 < Room.roundsPerGame (Room.settings room))
              then
                scheduler_runAfter now 2000 (fn_startNextRound (Round.roomId round));;
                mret ()
              else
                scheduler_runAfter now 0 (fn_endGame (Round.roomId round));;
                mret ()
          | None =>
              scheduler_runAfter now 0 (fn_endGame (Round.roomId round));;
              mret ()
          end
      | Round.complete => mret ()
      end
  end.

(** ** convex/game/generation.ts *)

Definition maxRetries : Z := 3.

Definition getPromptsForRound (roundId : N) : Mutation (list Prompt.t) :=
  prompts_by_round roundId.

Definition verifyAndTriggerGeneration (now : Z) (roundId : N)
    (retryCount : option Z) : Mutation unit :=
  let retryCount := default 0 retryCount in
  prompts ← getPromptsForRound roundId;
  if bool_decide (0 < length prompts)%nat then
    scheduler_runAfter now 0 (fn_generateAIImages roundId);;
    mret ()
  else if bool_decide (retryCount < maxRetries) then
    let delayMs := (retryCount + 1) * 1000 in
    scheduler_runAfter now delayMs
      (fn_verifyAndTriggerGeneration roundId (retryCount + 1));;
    mret ()
  else
    db_patch_round roundId (λ r,
      Round.set_generationCompletedCount (Some 0)
        (Round.set_generationExpectedCount (Some 0)
           (Round.set_generationCompletedAt (Some now)
              (Round.set_generationError
                 (Some "No prompts found after 3 retry attempts") r))));;
    scheduler_runAfter now 2000 (fn_transitionPhase roundId);;
    mret ().

Definition checkAllImagesGenerated (now : Z) (roundId : N) : Mutation unit :=
  round ← db_get_round roundId;
  match round with
  | None => mret ()
  | Some round =>
    if negb (bool_decide (Round.status round = Round.generating)) then mret ()
    else
      let expected := default 0 (Round.generationExpectedCount round) in
      let completed := default 0 (Round.generationCompletedCount round) in
      if bool_decide (0 < expected) && bool_decide (expected ≤ completed) then
        match Round.scheduledTransitionId round with
        | Some id =>
            scheduler_cancel id;;
            db_patch_round roundId (λ r,
              Round.set_generationCompletedAt (Some now)
                (Round.set_scheduledTransitionId None r))
        | None => mret ()
        end;;
        scheduler_runAfter now 500 (fn_transitionPhase roundId);;
        mret ()
      else mret ()
  end.

Definition incrementGenerationProgress (now : Z) (roundId : N) : Mutation unit :=
  round ← db_get_round roundId;
  match round with
  | None => mret ()
  | Some round =>
    if negb (bool_decide (Round.status round = Round.generating)) then mret ()
    else
      let newCount := default 0 (Round.generationCompletedCount round) + 1 in
      db_patch_round roundId (Round.set_generationCompletedCount (Some newCount));;
      checkAllImagesGenerated now roundId
  end.

(** ** convex/game/prompts.ts and convex/game/voting.ts: the early checks *)

Definition checkAllPlayersSubmitted (now : Z) (roundId : N) : Mutation unit :=
  round ← db_get_round roundId;
  match round with
  | None => mret ()
  | Some round =>
    if negb (bool_decide (Round.status round = Round.prompt)) then mret ()
    else
      connectedPlayers ← connected_players_by_room (Round.roomId round);
      if bool_decide (length connectedPlayers = 0%nat) then mret ()
      else
        submittedPrompts ← prompts_by_round roundId;
        let submittedPlayerIds : gset N :=
          list_to_set (map Prompt.playerId submittedPrompts) in
        let allPlayersSubmitted :=
          forallb (λ player, bool_decide (Player._id player ∈ submittedPlayerIds))
            connectedPlayers in
        if allPlayersSubmitted then
          match Round.scheduledTransitionId round with
          | Some id => scheduler_cancel id
          | None => mret ()
          end;;
          db_patch_round roundId (Round.set_scheduledTransitionId None);;
          scheduler_runAfter now 0 (fn_transitionPhase roundId);;
          mret ()
        else mret ()
  end.

(** The images of a round, prompt by prompt ([Promise.all] over the
    prompts, one index query each). *)
Fixpoint imagesOfPrompts (prompts : list Prompt.t)
    : Mutation (list (Prompt.t * list GeneratedImage.t)) :=
  match prompts with
  | [] => mret []
  | prompt :: rest =>
      imgs ← generatedImages_by_prompt (Prompt._id prompt);
      items ← imagesOfPrompts rest;
      mret ((prompt, imgs) :: items)
  end.

Definition checkAllPlayersVoted (now : Z) (roundId : N) : Mutation unit :=
  round ← db_get_round roundId;
  match round with
  | None => mret ()
  | Some round =>
    if negb (bool_decide (Round.status round = Round.voting)) then mret ()
    else
      connectedPlayers ← connected_players_by_room (Round.roomId round);
      if bool_decide (length connectedPlayers = 0%nat) then mret ()
      else
        prompts ← prompts_by_round roundId;
        images ← imagesOfPrompts prompts;
        let totalImages :=
          fold_left (λ sum item, (sum + length (snd item))%nat) images 0%nat in
        if bool_decide (totalImages = 0%nat) then mret ()
        else
          submittedVotes ← votes_by_round roundId;
          let eligibility := calculateVotingEligibility connectedPlayers prompts in
          let allEligibleVoted :=
            haveAllEligiblePlayersVoted eligibility submittedVotes in
          if allEligibleVoted then
            match Round.scheduledTransitionId round with
            | Some id => scheduler_cancel id
            | None => mret ()
            end;;
            db_patch_round roundId (Round.set_scheduledTransitionId None);;
            scheduler_runAfter now 0 (fn_transitionPhase roundId);;
            mret ()
          else mret ()
  end.

(** ** convex/game/scoring.ts *)

(** First loop of [calculateScores]: the owner of each winning image gets
    [pointsPerWinner]; an image, prompt or player that is not found is
    skipped. *)
Fixpoint awardWinners (pointsPerWinner : Z) (winningImageIds : list N)
    : Mutation unit :=
  match winningImageIds with
  | [] => mret ()
  | imageId :: rest =>
      image ← db_get_generatedImage imageId;
      match image with
      | None => awardWinners pointsPerWinner rest
      | Some image =>
        prompt ← db_get_prompt (GeneratedImage.promptId image);
        match prompt with
        | None => awardWinners pointsPerWinner rest
        | Some prompt =>
          player ← db_get_player (Prompt.playerId prompt);
          match player with
          | None => awardWinners pointsPerWinner rest
          | Some player =>
              db_patch_player (Player._id player)
                (Player.set_score (Player.score player + pointsPerWinner));;
              awardWinners pointsPerWinner rest
          end
        end
      end
  end.

(** Second loop: every voter gets the participation points once. *)
Fixpoint awardVoters (cfg : GameConfig) (awardedVoterIds : gset N)
    (votes : list Vote.t) : Mutation unit :=
  match votes with
  | [] => mret ()
  | vote :: rest =>
      if bool_decide (Vote.voterId vote ∈ awardedVoterIds) then
        awardVoters cfg awardedVoterIds rest
      else
        voter ← db_get_player (Vote.voterId vote);
        match voter with
        | Some voter =>
            db_patch_player (Vote.voterId vote)
              (Player.set_score (Player.score voter + POINTS_PER_VOTE cfg))
        | None => mret ()
        end;;
        awardVoters cfg ({[Vote.voterId vote]} ∪ awardedVoterIds) rest
  end.

Definition calculateScores (cfg : GameConfig) (roundId : N) : Mutation unit :=
  round ← db_get_round roundId;
  match round with
  | None => mret ()
  | Some round =>
      votes ← votes_by_round roundId;
      let voteCounts := countVotesPerImage votes in
      let winningImageIds := findWinningImages voteCounts in
      if bool_decide (length winningImageIds = 0%nat) then mret ()
      else
        let pointsPerWinner :=
          POINTS_PER_WIN cfg `div` Z.of_nat (length winningImageIds) in
        awardWinners pointsPerWinner winningImageIds;;
        awardVoters cfg ∅ votes
  end.

(** ** Observations on a store, used to state what scoring does *)

(** The score of the player with a given id. *)
Definition scoreOf (s : Store.t) (playerId : N) : option Z :=
  Player.score <$> tbl_get Player._id (Store.players s) playerId.

(** The sum of the scores of the players table. *)
Definition totalScore (players : list Player.t) : Z :=
  foldr (λ p acc, Player.score p + acc) 0 players.

(** The player owning an image: the chain image, prompt, player that
    [calculateScores] follows; [None] when a link is missing. *)
Definition ownerOf (s : Store.t) (imageId : N) : option N :=
  image ← tbl_get GeneratedImage._id (Store.generatedImages s) imageId;
  prompt ← tbl_get Prompt._id (Store.prompts s) (GeneratedImage.promptId image);
  player ← tbl_get Player._id (Store.players s) (Prompt.playerId prompt);
  Some (Player._id player).

(** How many of the winning images a player owns. *)
Definition winsOf (s : Store.t) (winningImageIds : list N) (playerId : N) : nat :=
  length (List.filter (λ imageId, bool_decide (ownerOf s imageId = Some playerId))
            winningImageIds).

(** How many of the winning images have an owner. *)
Definition ownedWinners (s : Store.t) (winningImageIds : list N) : nat :=
  length (omap (ownerOf s) winningImageIds).

(** The win points listed by [calculateRoundScores]: the points of the
    entries that are not participation entries. *)
Definition winPoints (results : list ScoreResult.t) : Z :=
  foldr (λ r acc,
      if bool_decide (ScoreResult.reason r = participation) then acc
      else ScoreResult.pointsAwarded r + acc)
    0 results.

(** The participation entries listed for one player. *)
Definition participationEntries (results : list ScoreResult.t) (playerId : N)
    : list ScoreResult.t :=
  List.filter (λ r, bool_decide (ScoreResult.reason r = participation)
                    && bool_decide (ScoreResult.playerId r = playerId))
    results.

(** ** The phase state machine, as a specification *)

(** The table after a patch that finds its document. *)
Fixpoint tbl_update {A} (ident : A → N) (tbl : list A) (id : N) (f : A → A)
    : list A :=
  match tbl with
  | [] => []
  | d :: rest =>
      if bool_decide (ident d = id) then f d :: rest
      else d :: tbl_update ident rest id f
  end.

(** The successor of a phase in prompt, generating, voting, results,
    complete; the last one has none. *)
Definition nextStatus (status : Round.Status) : Round.Status :=
  match status with
  | Round.prompt => Round.generating
  | Round.generating => Round.voting
  | Round.voting => Round.results
  | Round.results => Round.complete
  | Round.complete => Round.complete
  end.

Definition phaseIndex (status : Round.Status) : nat :=
  match status with
  | Round.prompt => 0
  | Round.generating => 1
  | Round.voting => 2
  | Round.results => 3
  | Round.complete => 4
  end.

Definition roundOf (s : Store.t) (roundId : N) : option Round.t :=
  tbl_get Round._id (Store.rounds s) roundId.

(** What a transition that is not absorbed by the race guard writes to a
    round found in phase [status]: the fields of its patches taken
    together.  [job] is the first free handle of the scheduler and
    [promptCount] the number of prompts of the round. *)
Definition advancePatch (cfg : GameConfig) (now : Z) (promptCount : nat)
    (job : N) (status : Round.Status) (r : Round.t) : Round.t :=
  match status with
  | Round.prompt =>
      Round.set_scheduledTransitionId (Some (N.succ job))
        (Round.set_generationCompletedCount (Some 0)
           (Round.set_generationExpectedCount (Some (Z.of_nat promptCount))
              (Round.set_generationStartedAt (Some now)
                 (Round.set_phaseEndTime
                    (Some (now + GENERATION_PHASE_DURATION cfg))
                    (Round.set_status Round.generating r)))))
  | Round.generating =>
      Round.set_scheduledTransitionId (Some job)
        (Round.set_phaseEndTime (Some (now + VOTING_PHASE_DURATION cfg))
           (Round.set_status Round.voting r))
  | Round.voting =>
      Round.set_scheduledTransitionId (Some (N.succ job))
        (Round.set_phaseEndTime (Some (now + RESULTS_PHASE_DURATION cfg))
           (Round.set_status Round.results r))
  | Round.results =>
      Round.set_endedAt (Some now)
        (Round.set_status Round.complete
           (Round.set_scheduledTransitionId None r))
  | Round.complete => Round.set_scheduledTransitionId None r
  end.

(** The jobs such a transition hands to the scheduler, in order. *)
Definition advanceJobs (cfg : GameConfig) (now : Z) (job : N)
    (room : option Room.t) (round : Round.t) : list Job.t :=
  match Round.status round with
  | Round.prompt =>
      [Job.mk job (now + 1000)
         (fn_verifyAndTriggerGeneration (Round._id round) 0);
       Job.mk (N.succ job) (now + GENERATION_PHASE_DURATION cfg)
         (fn_transitionPhase (Round._id round))]
  | Round.generating =>
      [Job.mk job (now + VOTING_PHASE_DURATION cfg)
         (fn_transitionPhase (Round._id round))]
  | Round.voting =>
      [Job.mk job (now + 0) (fn_calculateScores (Round._id round));
       Job.mk (N.succ job) (now + RESULTS_PHASE_DURATION cfg)
         (fn_transitionPhase (Round._id round))]
  | Round.results =>
      match room with
      | Some room =>
          if truthy (Room.currentRound room)
             && bool_decide (default 0 (Room.currentRound room)
                             < Room.roundsPerGame (Room.settings room))
          then [Job.mk job (now + 2000) (fn_startNextRound (Round.roomId round))]
          else [Job.mk job (now + 0) (fn_endGame (Round.roomId round))]
      | None => [Job.mk job (now + 0) (fn_endGame (Round.roomId round))]
      end
  | Round.complete => []
  end.

(** The store such a transition leaves. *)
Definition advance (cfg : GameConfig) (now : Z) (round : Round.t) (s : Store.t)
    : Store.t :=
  let promptCount :=
    length (List.filter (λ p, bool_decide (Prompt.roundId p = Round._id round))
              (Store.prompts s)) in
  let jobs :=
    advanceJobs cfg now (Store.nextJobId s)
      (tbl_get Room._id (Store.rooms s) (Round.roomId round)) round in
  Store.set_scheduler (Store.scheduled s ++ jobs)
    (Store.nextJobId s + N.of_nat (length jobs))%N
    (Store.set_rounds
       (tbl_update Round._id (Store.rounds s) (Round._id round)
          (advancePatch cfg now promptCount (Store.nextJobId s)
             (Round.status round)))
       s).

(** [transitionPhase] invoked on one round once per clock reading of
    [times], in that order: the statuses of the round before the first
    invocation and after each one. *)
Fixpoint statusTrace (cfg : GameConfig) (roundId : N) (times : list Z)
    (s : Store.t) : list Round.Status :=
  match roundOf s roundId with
  | None => []
  | Some round =>
      Round.status round ::
      match times with
      | [] => []
      | now :: rest =>
          match transitionPhase cfg now roundId s with
          | Returned _ s' => statusTrace cfg roundId rest s'
          | Thrown _ => []
          end
      end
  end.

(** The generated images of a round: those of its prompts. *)
Definition imagesOfRound (s : Store.t) (roundId : N) : list GeneratedImage.t :=
  flat_map
    (λ p, List.filter (λ i, bool_decide (GeneratedImage.promptId i = Prompt._id p))
            (Store.generatedImages s))
    (List.filter (λ p, bool_decide (Prompt.roundId p = roundId)) (Store.prompts s)).

(** The store after one more job was handed to the scheduler. *)
Definition withJob (time : Z) (fn : ScheduledFn) (s : Store.t) : Store.t :=
  Store.set_scheduler
    (Store.scheduled s ++ [Job.mk (Store.nextJobId s) time fn])
    (N.succ (Store.nextJobId s)) s.

(** ** The invariant of the rounds table

    A complete round has no stored timer handle.  Rounds are created in
    the prompt phase, and every mutation of the engine keeps the
    invariant. *)
Definition roundOk (r : Round.t) : Prop :=
  Round.status r = Round.complete → Round.scheduledTransitionId r = None.

Definition roundsOk (s : Store.t) : Prop := Forall roundOk (Store.rounds s).

(** The mutations of the engine that touch rounds, as the scheduler and
    the submission handlers invoke them. *)
Inductive EngineCall :=
  | call_transitionPhase (now : Z) (roundId : N)
  | call_verifyAndTriggerGeneration (now : Z) (roundId : N) (retryCount : option Z)
  | call_checkAllImagesGenerated (now : Z) (roundId : N)
  | call_incrementGenerationProgress (now : Z) (roundId : N)
  | call_checkAllPlayersSubmitted (now : Z) (roundId : N)
  | call_checkAllPlayersVoted (now : Z) (roundId : N)
  | call_calculateScores (roundId : N).

Definition runCall (cfg : GameConfig) (c : EngineCall) : Mutation unit :=
  match c with
  | call_transitionPhase now roundId => transitionPhase cfg now roundId
  | call_verifyAndTriggerGeneration now roundId retryCount =>
      verifyAndTriggerGeneration now roundId retryCount
  | call_checkAllImagesGenerated now roundId => checkAllImagesGenerated now roundId
  | call_incrementGenerationProgress now roundId =>
      incrementGenerationProgress now roundId
  | call_checkAllPlayersSubmitted now roundId => checkAllPlayersSubmitted now roundId
  | call_checkAllPlayersVoted now roundId => checkAllPlayersVoted now roundId
  | call_calculateScores roundId => calculateScores cfg roundId
  end.

Fixpoint runCalls (cfg : GameConfig) (cs : list EngineCall) : Mutation unit :=
  match cs with
  | [] => mret ()
  | c :: rest => runCall cfg c;; runCalls cfg rest
  end.

(** ** A sample game, used to exercise the statements *)

Definition sample_config : GameConfig := {|
  PROMPT_PHASE_DURATION := 60000;
  GENERATION_PHASE_DURATION := 45000;
  VOTING_PHASE_DURATION := 45000;
  RESULTS_PHASE_DURATION := 15000;
  POINTS_PER_WIN := 100;
  POINTS_PER_VOTE := 10;
|}.

(** Round 7 of room 1, in a given phase that ends at [phaseEndTime], with
    its timer handle. *)
Definition sample_round (status : Round.Status) (phaseEndTime : option Z)
    (handle : option N) : Round.t :=
  Round.mk 7 1 1 3 status 0 phaseEndTime handle None None None None None None.

(** The pending timer of a round: the job its stored handle names, due at
    the end of the phase. *)
Definition sample_timer (round : Round.t) : list Job.t :=
  match Round.scheduledTransitionId round with
  | Some handle =>
      [Job.mk handle (default 0 (Round.phaseEndTime round))
         (fn_transitionPhase (Round._id round))]
  | None => []
  end.

(** Three connected players; players 1 and 2 submitted prompts 11 and 12,
    which got images 21 and 22; player 1 voted for image 22 and player 2
    for image 21. *)
Definition sample_store (round : Round.t) : Store.t := {|
  Store.rooms := [Room.mk 1 playing (Room.mkSettings 8 3) (Some 1)];
  Store.players :=
    [Player.mk 1 1 101 connected true 0;
     Player.mk 2 1 102 connected false 0;
     Player.mk 3 1 103 connected false 5];
  Store.rounds := [round];
  Store.prompts := [Prompt.mk 11 7 1 "a cat" 100; Prompt.mk 12 7 2 "a dog" 200];
  Store.generatedImages :=
    [GeneratedImage.mk 21 11 "cat.png" 300 None;
     GeneratedImage.mk 22 12 "dog.png" 400 None];
  Store.votes := [Vote.mk 31 7 1 22 500; Vote.mk 32 7 2 21 600];
  Store.scheduled := sample_timer round;
  Store.nextJobId := 40;
|}.

(** The same room when nobody submitted a prompt. *)
Definition sample_store_no_prompts (round : Round.t) : Store.t := {|
  Store.rooms := [Room.mk 1 playing (Room.mkSettings 8 3) (Some 1)];
  Store.players :=
    [Player.mk 1 1 101 connected true 0;
     Player.mk 2 1 102 connected false 0];
  Store.rounds := [round];
  Store.prompts := [];
  Store.generatedImages := [];
  Store.votes := [];
  Store.scheduled := sample_timer round;
  Store.nextJobId := 40;
|}.

(** ** convex/lib/gameLogic.ts: vote validation *)

(** The result of [validateVote]: [error] is set exactly when the vote is
    refused. *)
Module VoteValidation.
Record t := mk {
  valid : bool;
  error : option string;
}.
End VoteValidation.

Definition validateVote (voterId imageId : N) (images : list GeneratedImage.t)
    (prompts : list Prompt.t) : VoteValidation.t :=
  match List.find (λ i, bool_decide (GeneratedImage._id i = imageId)) images with
  | None => VoteValidation.mk false (Some "Image not found")
  | Some image =>
      match List.find
              (λ p, bool_decide (Prompt._id p = GeneratedImage.promptId image))
              prompts with
      | None => VoteValidation.mk false (Some "Prompt not found for image")
      | Some prompt =>
          if bool_decide (Prompt.playerId prompt = voterId) then
            VoteValidation.mk false (Some "Cannot vote for your own image")
          else VoteValidation.mk true None
      end
  end.

(** ** Further observations on votes, stores and rounds *)

(** The points one player is listed for in the result of
    [calculateRoundScores]. *)
Definition pointsFor (results : list ScoreResult.t) (playerId : N) : Z :=
  foldr (λ r acc,
      if bool_decide (ScoreResult.playerId r = playerId)
      then ScoreResult.pointsAwarded r + acc else acc)
    0 results.

(** The sum of the counts held by a vote-count map. *)
Definition sumCounts (m : JsMap.t nat) : nat := foldr Nat.add 0%nat (JsMap.values m).

(** The scheduler queue without the job of a handle, as [cancel] leaves
    it. *)
Definition withoutJob (handle : option N) (jobs : list Job.t) : list Job.t :=
  match handle with
  | Some id => List.filter (λ j, negb (bool_decide (Job._id j = id))) jobs
  | None => jobs
  end.

(** The connected players of the room of a round, the prompts and the
    votes of the round, as the early checks query them. *)
Definition connectedPlayersOf (s : Store.t) (roomId : N) : list Player.t :=
  List.filter (λ p, bool_decide (Player.status p = connected))
    (List.filter (λ p, bool_decide (Player.roomId p = roomId)) (Store.players s)).

Definition promptsOf (s : Store.t) (roundId : N) : list Prompt.t :=
  List.filter (λ p, bool_decide (Prompt.roundId p = roundId)) (Store.prompts s).

Definition votesOf (s : Store.t) (roundId : N) : list Vote.t :=
  List.filter (λ v, bool_decide (Vote.roundId v = roundId)) (Store.votes s).

(** The store an early check leaves when it fires: the timer of the round
    canceled, the stored handle cleared, and [transitionPhase] handed to
    the scheduler with delay 0. *)
Definition earlyTransition (now : Z) (round : Round.t) (s : Store.t) : Store.t :=
  Store.set_scheduler
    (withoutJob (Round.scheduledTransitionId round) (Store.scheduled s)
     ++ [Job.mk (Store.nextJobId s) (now + 0) (fn_transitionPhase (Round._id round))])
    (N.succ (Store.nextJobId s))
    (Store.set_rounds
       (tbl_update Round._id (Store.rounds s) (Round._id round)
          (Round.set_scheduledTransitionId None))
       s).

(** The store [checkAllImagesGenerated] leaves when it fires: the timer of
    the phase canceled and the round patched if a handle is stored, and
    [transitionPhase] handed to the scheduler with a delay of 500 ms. *)
Definition generationDone (now : Z) (round : Round.t) (s : Store.t) : Store.t :=
  Store.set_scheduler
    (withoutJob (Round.scheduledTransitionId round) (Store.scheduled s)
     ++ [Job.mk (Store.nextJobId s) (now + 500) (fn_transitionPhase (Round._id round))])
    (N.succ (Store.nextJobId s))
    (Store.set_rounds
       (tbl_update Round._id (Store.rounds s) (Round._id round)
          (λ r, match Round.scheduledTransitionId round with
                | Some _ =>
                    Round.set_generationCompletedAt (Some now)
                      (Round.set_scheduledTransitionId None r)
                | None => r
                end))
       s).

(** The condition under which it fires. *)
Definition allImagesGenerated (round : Round.t) : bool :=
  bool_decide (Round.status round = Round.generating)
  && bool_decide (0 < default 0 (Round.generationExpectedCount round))
  && bool_decide (default 0 (Round.generationExpectedCount round)
                  ≤ default 0 (Round.generationCompletedCount round)).

(** How a round document may differ after engine calls: it keeps its
    identity and does not move back in the phase sequence. *)
Definition roundEvolves (r r' : Round.t) : Prop :=
  Round._id r' = Round._id r
  ∧ Round.roomId r' = Round.roomId r
  ∧ Round.roundNumber r' = Round.roundNumber r
  ∧ Round.questionCardId r' = Round.questionCardId r
  ∧ (phaseIndex (Round.status r) ≤ phaseIndex (Round.status r'))%nat.

(** The same, with the phase unchanged. *)
Definition roundKeepsPhase (r r' : Round.t) : Prop :=
  Round._id r' = Round._id r
  ∧ Round.roomId r' = Round.roomId r
  ∧ Round.status r' = Round.status r.

Definition isTransitionCall (c : EngineCall) : bool :=
  match c with
  | call_transitionPhase _ _ => true
  | _ => false
  end.

(** ** convex/game/generation.ts: storing images, marking the generation *)

Definition set_generatedImages (x : list GeneratedImage.t) (s : Store.t) : Store.t :=
  Store.mk (Store.rooms s) (Store.players s) (Store.rounds s) (Store.prompts s) x
    (Store.votes s) (Store.scheduled s) (Store.nextJobId s).

(** [db.insert("generatedImages", doc)]: the document, which carries the
    id Convex gives it, is appended to the table. *)
Definition db_insert_generatedImage (doc : GeneratedImage.t) : Mutation unit :=
  λ s, Returned () (set_generatedImages (Store.generatedImages s ++ [doc]) s).

Section generation_store.
(** The two JS string functions that build the placeholder URL. *)
Context (encodeURIComponent : string → string).
Context (js_substring : Z → Z → string → string).

(** [newId] is the id Convex gives the inserted image.  The fields
    [storageId] and [metadata] of the stored image are read by no
    mutation of the engine and are not part of [GeneratedImage.t]. *)
Definition storeGeneratedImage (now : Z) (newId : N) (promptId : N)
    (imageUrl : string) (generatedAt : option Z) : Mutation unit :=
  db_insert_generatedImage
    (GeneratedImage.mk newId promptId imageUrl
       (if truthy generatedAt then default 0 generatedAt else now) None);;
  prompt ← db_get_prompt promptId;
  match prompt with
  | Some prompt => incrementGenerationProgress now (Prompt.roundId prompt)
  | None => mret ()
  end.

Definition storeImageError (now : Z) (newId : N) (promptId : N)
    (error : string) : Mutation unit :=
  db_insert_generatedImage
    (GeneratedImage.mk newId promptId
       ("/placeholder.svg?text="
        +:+ encodeURIComponent ("Error: " +:+ js_substring 0 20 error))
       now (Some error));;
  prompt ← db_get_prompt promptId;
  match prompt with
  | Some prompt => incrementGenerationProgress now (Prompt.roundId prompt)
  | None => mret ()
  end.
End generation_store.

Definition markGenerationComplete (now : Z) (roundId : N) : Mutation unit :=
  db_patch_round roundId (Round.set_generationCompletedAt (Some now));;
  checkAllImagesGenerated now roundId.

Definition markGenerationFailed (now : Z) (roundId : N) (error : string)
    : Mutation unit :=
  db_patch_round roundId (λ r,
    Round.set_generationCompletedAt (Some now)
      (Round.set_generationError (Some error) r)).

(** ** convex/game/state.ts: the images of [getGameState] *)

(** An image as [getGameState] hands it to the frontend. *)
Module GameImage.
Record t := mk {
  _id : N;
  promptId : N;
  imageUrl : string;
  promptText : string;
  voteCount : nat;
  isWinner : bool;
  isOwn : bool;
}.
End GameImage.

(** The block of the handler that builds [images], for the round the
    handler found and the player of the caller, if any: empty unless the
    round is in the voting or results phase; otherwise the images of the
    prompts of the round, prompt by prompt, with their vote counts. *)
Definition getGameState_images (round : Round.t) (currentPlayer : option Player.t)
    (s : Store.t) : list GameImage.t :=
  if bool_decide (Round.status round = Round.voting)
     || bool_decide (Round.status round = Round.results)
  then
    let prompts :=
      List.filter (λ p, bool_decide (Prompt.roundId p = Round._id round))
        (Store.prompts s) in
    let votes :=
      List.filter (λ v, bool_decide (Vote.roundId v = Round._id round))
        (Store.votes s) in
    let voteCounts :=
      fold_left (λ voteCounts vote,
          JsMap.set voteCounts (Vote.imageId vote)
            (default 0%nat (JsMap.get voteCounts (Vote.imageId vote)) + 1)%nat)
        votes JsMap.empty in
    let maxVotes := Math_max (JsMap.values voteCounts ++ [0%nat]) in
    flat_map (λ prompt,
        let generatedImages :=
          List.filter
            (λ i, bool_decide (GeneratedImage.promptId i = Prompt._id prompt))
            (Store.generatedImages s) in
        map (λ img,
            GameImage.mk (GeneratedImage._id img) (Prompt._id prompt)
              (GeneratedImage.imageUrl img) (Prompt.text prompt)
              (default 0%nat (JsMap.get voteCounts (GeneratedImage._id img)))
              (bool_decide (Round.status round = Round.results)
               && bool_decide
                    (default 0%nat (JsMap.get voteCounts (GeneratedImage._id img))
                     = maxVotes)
               && bool_decide (0 < maxVotes)%nat)
              (bool_decide (Player._id <$> currentPlayer
                            = Some (Prompt.playerId prompt))))
          generatedImages)
      prompts
  else [].

(** ** convex/game/rounds.ts and convex/game/state.ts: starting rounds *)

Definition throw {A} (msg : string) : Mutation A := λ _, Thrown msg.

Definition set_rooms (x : list Room.t) (s : Store.t) : Store.t :=
  Store.mk x (Store.players s) (Store.rounds s) (Store.prompts s)
    (Store.generatedImages s) (Store.votes s) (Store.scheduled s)
    (Store.nextJobId s).

Definition set_currentRound (x : option Z) (r : Room.t) : Room.t :=
  Room.mk (Room._id r) (Room.status r) (Room.settings r) x.

Definition set_roomStatus (x : RoomStatus) (r : Room.t) : Room.t :=
  Room.mk (Room._id r) x (Room.settings r) (Room.currentRound r).

Definition db_patch_room (id : N) (f : Room.t → Room.t) : Mutation unit :=
  λ s, match tbl_patch Room._id (Store.rooms s) id f with
       | Some tbl => Returned () (set_rooms tbl s)
       | None => Thrown "patch: room does not exist"
       end.

(** [db.insert("rounds", doc)]: the document, which carries the id Convex
    gives it, is appended to the table. *)
Definition db_insert_round (doc : Round.t) : Mutation unit :=
  λ s, Returned () (Store.set_rounds (Store.rounds s ++ [doc]) s).

Definition rounds_by_room (roomId : N) : Mutation (list Round.t) :=
  read (λ s, List.filter (λ r, bool_decide (Round.roomId r = roomId))
               (Store.rounds s)).

(** A value of [Math.random()]: the fraction [num / den], which lies in
    [0, 1) when [0 ≤ num < den]. *)
Module Random.
Record t := mk {
  num : Z;
  den : Z;
}.
End Random.

(** [l[Math.floor(random * l.length)]]; [None] is JS's [undefined], and
    reading the [_id] of it a [TypeError]. *)
Definition pickRandom {A} (random : Random.t) (l : list A) : option A :=
  let index := (Random.num random * Z.of_nat (length l)) `div` Random.den random in
  if bool_decide (0 ≤ index) then l !! Z.to_nat index else None.

(** The round document both functions insert. *)
Definition newRound (cfg : GameConfig) (now : Z) (newRoundId roomId : N)
    (roundNumber : Z) (questionCardId : N) : Round.t :=
  Round.mk newRoundId roomId roundNumber questionCardId Round.prompt now
    (Some (now + PROMPT_PHASE_DURATION cfg)) None None None None None None None.

Section lifecycle.
(** The question cards are not part of the store: [activeCards] are the
    ids of the active cards, in the order of the index query, and
    [seededCards] the active cards after [ensureQuestionCards] has seeded
    an empty table (the seeding is not among the sources at hand). *)
Context (activeCards seededCards : list N).

(** The active cards after [ensureQuestionCards] ran. *)
Definition ensuredCards : list N :=
  if bool_decide (0 < length activeCards)%nat then activeCards else seededCards.

(** [newRoundId] is the id Convex gives the inserted round. *)
Definition initializeGame (cfg : GameConfig) (now : Z) (random : Random.t)
    (newRoundId : N) (roomId : N) : Mutation unit :=
  room ← db_get_room roomId;
  match room with
  | None => throw "Room not found"
  | Some room =>
      let questionCards := ensuredCards in
      if bool_decide (length questionCards = 0%nat) then
        throw "Failed to seed question cards"
      else
        match pickRandom random questionCards with
        | None => throw "TypeError"
        | Some randomCard =>
            db_insert_round (newRound cfg now newRoundId roomId 1 randomCard);;
            db_patch_room roomId (set_roomStatus playing);;
            scheduledJobId ←
              scheduler_runAt (now + PROMPT_PHASE_DURATION cfg)
                (fn_transitionPhase newRoundId);
            db_patch_round newRoundId
              (Round.set_scheduledTransitionId (Some scheduledJobId))
        end
  end.

(** [random] and [fallbackRandom] are the values of the two calls of
    [Math.random()], of which a run makes at most one each. *)
Definition startNextRound (cfg : GameConfig) (now : Z)
    (random fallbackRandom : Random.t) (newRoundId : N) (roomId : N)
    : Mutation unit :=
  room ← db_get_room roomId;
  match room with
  | None => mret ()
  | Some room =>
    if negb (truthy (Room.currentRound room)) then mret ()
    else
      let nextRoundNumber := default 0 (Room.currentRound room) + 1 in
      previousRounds ← rounds_by_room roomId;
      let usedCardIds := map Round.questionCardId previousRounds in
      let allActiveCards := activeCards in
      let availableCards :=
        List.filter (λ card, negb (bool_decide (card ∈ usedCardIds)))
          allActiveCards in
      let questionCard :=
        if bool_decide (0 < length availableCards)%nat
        then pickRandom random availableCards
        else head activeCards in
      questionCard ←
        match questionCard with
        | Some questionCard => mret (Some questionCard)
        | None =>
            let fallbackCards := ensuredCards in
            if bool_decide (length fallbackCards = 0%nat) then
              throw "Failed to seed question cards for next round"
            else mret (pickRandom fallbackRandom fallbackCards)
        end;
      match questionCard with
      | None => throw "TypeError"
      | Some questionCard =>
          db_insert_round
            (newRound cfg now newRoundId roomId nextRoundNumber questionCard);;
          db_patch_room roomId (set_currentRound (Some nextRoundNumber));;
          scheduledJobId ←
            scheduler_runAt (now + PROMPT_PHASE_DURATION cfg)
              (fn_transitionPhase newRoundId);
          db_patch_round newRoundId
            (Round.set_scheduledTransitionId (Some scheduledJobId))
      end
  end.
End lifecycle.

(** The cards the rounds of a room have used. *)
Definition usedCardsOf (s : Store.t) (roomId : N) : list N :=
  map Round.questionCardId
    (List.filter (λ r, bool_decide (Round.roomId r = roomId)) (Store.rounds s)).

(** ** The timer of a round *)

(** The pending job that the handle stored in a round names. *)
Definition timerOf (s : Store.t) (roundId : N) : option Job.t :=
  handle ← roundOf s roundId ≫= Round.scheduledTransitionId;
  List.find (λ j, bool_decide (Job._id j = handle)) (Store.scheduled s).

(** The scheduler runs the timer of a round: the job the round stores is
    invoked at its scheduled time.  With no such job nothing runs. *)
Definition fireTimer (cfg : GameConfig) (roundId : N) : Mutation unit :=
  λ s, match timerOf s roundId with
       | Some job =>
           match Job.fn job with
           | fn_transitionPhase id => transitionPhase cfg (Job.scheduledTime job) id s
           | _ => Returned () s
           end
       | None => Returned () s
       end.

(** The statuses of a round before and after each of [n] firings of its
    timer. *)
Fixpoint timerTrace (cfg : GameConfig) (roundId : N) (n : nat) (s : Store.t)
    : list Round.Status :=
  match roundOf s roundId with
  | None => []
  | Some round =>
      Round.status round ::
      match n with
      | O => []
      | S n =>
          match fireTimer cfg roundId s with
          | Returned _ s' => timerTrace cfg roundId n s'
          | Thrown _ => []
          end
      end
  end.

(** Handles are fresh: every pending job has a handle below the next
    free one. *)
Definition handlesFresh (s : Store.t) : Prop :=
  ∀ j, j ∈ Store.scheduled s → (Job._id j < Store.nextJobId s)%N.

(** ** The fail-open run of the sample game

    The room in which nobody submitted a prompt, from the end of the
    prompt phase on, job by job as the engine schedules them: the
    transition to generating (which schedules the verification, job 40,
    and the generating timer, job 41, due at 105000), the verification
    and its three retries (jobs 42 to 44), the attempt that gives up and
    schedules the transition (job 45), and that transition, which moves
    the round to voting with the voting timer (job 46, due at 114000). *)
Definition fail_open_calls : list EngineCall :=
  [call_transitionPhase 60000 7;
   call_verifyAndTriggerGeneration 61000 7 (Some 0);
   call_verifyAndTriggerGeneration 62000 7 (Some 1);
   call_verifyAndTriggerGeneration 64000 7 (Some 2);
   call_verifyAndTriggerGeneration 67000 7 (Some 3);
   call_transitionPhase 69000 7].

(** The store that run leaves. *)
Definition fail_open_store : Store.t :=
  match runCalls sample_config fail_open_calls
          (sample_store_no_prompts
             (sample_round Round.prompt (Some 60000) (Some 39%N))) with
  | Returned _ s => s
  | Thrown _ =>
      sample_store_no_prompts (sample_round Round.prompt (Some 60000) (Some 39%N))
  end.

(** Two connected players who both submitted a prompt and both have a
    vote on record, in a round in the voting phase for which no image was
    stored. *)
Definition voted_without_images : Store.t :=
  let s := sample_store (sample_round Round.voting (Some 105000) (Some 39%N)) in
  set_generatedImages [] (Store.set_players (take 2 (Store.players s)) s).

(** * Properties *)

(** ** The completion evaluator *)

Section JsMap_facts.
Context {V : Type}.
Implicit Types (m : JsMap.t V) (k : N) (v : V).

Lemma JsMap_get_elem_of m k v : JsMap.get m k = Some v → (k, v) ∈ m.
Proof.
  induction m as [|[k' v'] m IH]; simpl; [done|].
  case_bool_decide as Hk.
  - intros [= ->]. subst. left.
  - intros ?. right. auto.
Qed.

Lemma JsMap_elem_of_get m k v : JsMap.wf m → (k, v) ∈ m → JsMap.get m k = Some v.
Proof.
  unfold JsMap.wf, JsMap.keys.
  induction m as [|[k' v'] m IH]; simpl; intros Hnd Hin.
  - by apply elem_of_nil in Hin.
  - apply NoDup_cons in Hnd as [Hk' Hnd].
    apply elem_of_cons in Hin as [[= -> ->]|Hin].
    + by rewrite bool_decide_eq_true_2.
    + case_bool_decide as Hk; [|by auto].
      subst k'. exfalso. apply Hk'.
      apply list_elem_of_fmap. by exists (k, v).
Qed.

Lemma JsMap_get_set m k k' v :
  JsMap.get (JsMap.set m k v) k' = if bool_decide (k = k') then Some v else JsMap.get m k'.
Proof.
  induction m as [|[k0 v0] m IH]; simpl.
  - done.
  - destruct (bool_decide_reflect (k0 = k)) as [->|Hne]; simpl.
    + destruct (bool_decide_reflect (k = k')); done.
    + rewrite IH.
      destruct (bool_decide_reflect (k0 = k')) as [->|?]; [|done].
      by rewrite bool_decide_eq_false_2.
Qed.

Lemma JsMap_keys_set m k v :
  JsMap.keys (JsMap.set m k v) =
    if bool_decide (k ∈ JsMap.keys m) then JsMap.keys m else JsMap.keys m ++ [k].
Proof.
  induction m as [|[k0 v0] m IH].
  - done.
  - cbn [JsMap.set]. destruct (bool_decide_reflect (k0 = k)) as [->|Hne].
    + change (JsMap.keys ((k, v) :: m)) with (k :: JsMap.keys m).
      change (JsMap.keys ((k, v0) :: m)) with (k :: JsMap.keys m).
      rewrite bool_decide_eq_true_2; [done|left].
    + change (JsMap.keys ((k0, v0) :: JsMap.set m k v))
        with (k0 :: JsMap.keys (JsMap.set m k v)).
      change (JsMap.keys ((k0, v0) :: m)) with (k0 :: JsMap.keys m).
      rewrite IH. case_bool_decide as Hin.
      * rewrite bool_decide_eq_true_2; [done|by right].
      * rewrite bool_decide_eq_false_2; [done|].
        intros [?|?]%elem_of_cons; [congruence|done].
Qed.

Lemma JsMap_wf_set m k v : JsMap.wf m → JsMap.wf (JsMap.set m k v).
Proof.
  unfold JsMap.wf. rewrite JsMap_keys_set. case_bool_decide as Hin; [done|].
  intros Hnd. apply NoDup_app. split_and!; [done| |apply NoDup_singleton].
  intros x Hx ->%list_elem_of_singleton. done.
Qed.
End JsMap_facts.

Lemma Math_max_ge xs x : x ∈ xs → (x ≤ Math_max xs)%nat.
Proof.
  induction xs as [|y xs IH]; simpl.
  - by intros ?%elem_of_nil.
  - intros [->|Hin]%elem_of_cons; [lia|]. specialize (IH Hin). lia.
Qed.

Lemma Math_max_elem_of xs : xs ≠ [] → Math_max xs ∈ xs.
Proof.
  induction xs as [|y xs IH]; [done|]. intros _. simpl.
  destruct xs as [|z xs].
  - simpl. rewrite Nat.max_0_r. left.
  - destruct (Nat.max_spec y (Math_max (z :: xs))) as [[_ ->]|[_ ->]].
    + right. by apply IH.
    + left.
  Qed.

Lemma findWinningImages_elem_of voteCounts t :
  t ∈ findWinningImages voteCounts ↔
  ∃ c, (t, c) ∈ voteCounts ∧ c = Math_max (JsMap.values voteCounts) ∧ (0 < c)%nat.
Proof.
  unfold findWinningImages, JsMap.size, JsMap.entries.
  case_bool_decide as Hsize.
  { apply length_zero_iff_nil in Hsize as ->.
    split; [by intros ?%elem_of_nil|]. by intros (c & ?%elem_of_nil & _). }
  cbv zeta. case_bool_decide as Hmax.
  - split; [by intros ?%elem_of_nil|]. intros (c & _ & -> & ?). lia.
  - rewrite list_elem_of_fmap. split.
    + intros ([t' c] & -> & Hin). simpl.
      apply list_elem_of_In, filter_In in Hin as [Hin Hc].
      apply bool_decide_eq_true in Hc. apply list_elem_of_In in Hin.
      exists c. split_and!; [done..|lia].
    + intros (c & Hin & Hc & _). exists (t, c). split; [done|].
      apply list_elem_of_In, filter_In. split; [by apply list_elem_of_In|].
      by apply bool_decide_eq_true.
Qed.

Lemma NoDup_fst_filter {A B} (P : A * B → bool) (l : list (A * B)) :
  NoDup l.*1 → NoDup (List.filter P l).*1.
Proof.
  induction l as [|[a b] l IH]; simpl; [done|].
  intros [Ha Hnd]%NoDup_cons. destruct (P (a, b)); simpl; [|by auto].
  apply NoDup_cons. split; [|by auto].
  intros ([a' b'] & -> & Hin)%list_elem_of_fmap. apply Ha.
  apply list_elem_of_In, filter_In in Hin as [Hin _].
  apply list_elem_of_fmap. exists (a', b'). split; [done|by apply list_elem_of_In].
Qed.

Lemma findWinningImages_NoDup voteCounts :
  JsMap.wf voteCounts → NoDup (findWinningImages voteCounts).
Proof.
  unfold findWinningImages, JsMap.wf, JsMap.keys, JsMap.entries. intros Hnd.
  repeat case_bool_decide; try apply NoDup_nil_2.
  by apply NoDup_fst_filter.
Qed.

(** C4. [findWinningImages] returns exactly the targets whose count is the
    maximum count of the map, each once: every tied target is a winner and
    no target with a lower count is; a maximum of zero makes nobody a
    winner, so the empty map and a map of zero counts give no winner. *)
Theorem findWinningImages_max (voteCounts : JsMap.t nat) :
  JsMap.wf voteCounts →
  (∀ t, t ∈ findWinningImages voteCounts ↔
        ∃ c, JsMap.get voteCounts t = Some c ∧ (0 < c)%nat ∧
             ∀ t' c', JsMap.get voteCounts t' = Some c' → (c' ≤ c)%nat)
  ∧ NoDup (findWinningImages voteCounts)
  ∧ findWinningImages (JsMap.empty : JsMap.t nat) = []
  ∧ ((∀ t c, JsMap.get voteCounts t = Some c → c = 0%nat) →
     findWinningImages voteCounts = []).
Proof.
  intros Hwf.
  assert (∀ t, t ∈ findWinningImages voteCounts ↔
        ∃ c, JsMap.get voteCounts t = Some c ∧ (0 < c)%nat ∧
             ∀ t' c', JsMap.get voteCounts t' = Some c' → (c' ≤ c)%nat) as Hiff.
  { intros t. rewrite findWinningImages_elem_of. split.
    - intros (c & Hin & Hc & Hpos). exists c.
      split_and!; [by apply JsMap_elem_of_get|done|].
      intros t' c' Hget. rewrite Hc. apply Math_max_ge.
      apply JsMap_get_elem_of in Hget. unfold JsMap.values.
      apply list_elem_of_fmap. by exists (t', c').
    - intros (c & Hget & Hpos & Hmax). exists c.
      apply JsMap_get_elem_of in Hget as Hin. split_and!; [done| |done].
      assert (JsMap.values voteCounts ≠ []) as Hne.
      { unfold JsMap.values. destruct voteCounts; [|done].
        by apply elem_of_nil in Hin. }
      apply Math_max_elem_of in Hne. unfold JsMap.values in Hne at 2.
      apply list_elem_of_fmap in Hne as ([k c'] & Hc' & Hin'). simpl in Hc'.
      apply JsMap_elem_of_get in Hin'; [|done].
      apply Hmax in Hin'.
      assert (c ≤ Math_max (JsMap.values voteCounts))%nat.
      { apply Math_max_ge. unfold JsMap.values.
        apply list_elem_of_fmap. by exists (t, c). }
      lia. }
  split_and!; [done|by apply findWinningImages_NoDup|done|].
  intros Hzero. apply elem_of_nil_inv.
  intros t (c & Hget & Hpos & _)%Hiff. apply Hzero in Hget. lia.
Qed.

Lemma findWinningImages_max_witness :
  let voteCounts : JsMap.t nat := [(7%N, 2%nat); (8%N, 1%nat); (9%N, 2%nat)] in
  JsMap.wf voteCounts ∧
  findWinningImages voteCounts = [7%N; 9%N] ∧
  (∀ t, t ∈ findWinningImages voteCounts ↔
        ∃ c, JsMap.get voteCounts t = Some c ∧ (0 < c)%nat ∧
             ∀ t' c', JsMap.get voteCounts t' = Some c' → (c' ≤ c)%nat).
Proof.
  intros voteCounts.
  assert (JsMap.wf voteCounts) as Hwf.
  { unfold JsMap.wf. apply (bool_decide_unpack _). vm_compute. reflexivity. }
  split_and!; [exact Hwf|reflexivity|].
  exact (proj1 (findWinningImages_max voteCounts Hwf)).
Defined.

Lemma countVotes_fold_wf votes (acc : JsMap.t nat) :
  JsMap.wf acc →
  JsMap.wf (fold_left (λ voteCounts vote,
      let count := default 0%nat (JsMap.get voteCounts (Vote.imageId vote)) in
      JsMap.set voteCounts (Vote.imageId vote) (count + 1)%nat) votes acc).
Proof.
  revert acc. induction votes as [|v votes IH]; intros acc Hwf; simpl; [done|].
  apply IH. by apply JsMap_wf_set.
Qed.

Lemma countVotesPerImage_wf votes : JsMap.wf (countVotesPerImage votes).
Proof. apply countVotes_fold_wf. apply NoDup_nil_2. Qed.

Lemma countVotes_fold_get votes (acc : JsMap.t nat) imageId :
  default 0%nat (JsMap.get (fold_left (λ voteCounts vote,
      let count := default 0%nat (JsMap.get voteCounts (Vote.imageId vote)) in
      JsMap.set voteCounts (Vote.imageId vote) (count + 1)%nat) votes acc) imageId)
  = (default 0%nat (JsMap.get acc imageId) + votesFor imageId votes)%nat.
Proof.
  revert acc. induction votes as [|v votes IH]; intros acc; simpl.
  - unfold votesFor. simpl. lia.
  - rewrite IH, JsMap_get_set. unfold votesFor. simpl.
    destruct (bool_decide_reflect (Vote.imageId v = imageId)) as [->|Hne]; simpl; lia.
Qed.

Lemma countVotesPerImage_get votes imageId :
  default 0%nat (JsMap.get (countVotesPerImage votes) imageId) = votesFor imageId votes.
Proof. unfold countVotesPerImage. by rewrite countVotes_fold_get. Qed.

Lemma countVotes_fold_pos votes (acc : JsMap.t nat) imageId c :
  (∀ k c, JsMap.get acc k = Some c → (0 < c)%nat) →
  JsMap.get (fold_left (λ voteCounts vote,
      let count := default 0%nat (JsMap.get voteCounts (Vote.imageId vote)) in
      JsMap.set voteCounts (Vote.imageId vote) (count + 1)%nat) votes acc) imageId
    = Some c → (0 < c)%nat.
Proof.
  revert acc. induction votes as [|v votes IH]; intros acc Hacc; simpl.
  - apply Hacc.
  - apply IH. intros k c'. rewrite JsMap_get_set.
    case_bool_decide; [intros [= <-]; lia|apply Hacc].
Qed.

Lemma countVotes_fold_keys votes (acc : JsMap.t nat) k :
  k ∈ JsMap.keys acc →
  k ∈ JsMap.keys (fold_left (λ voteCounts vote,
      let count := default 0%nat (JsMap.get voteCounts (Vote.imageId vote)) in
      JsMap.set voteCounts (Vote.imageId vote) (count + 1)%nat) votes acc).
Proof.
  revert acc. induction votes as [|v votes IH]; intros acc Hk; simpl; [done|].
  apply IH. rewrite JsMap_keys_set. case_bool_decide; [done|].
  apply elem_of_app. by left.
Qed.

(** With at least one vote there is at least one winner. *)
Lemma findWinningImages_countVotes_nonempty votes :
  votes ≠ [] → findWinningImages (countVotesPerImage votes) ≠ [].
Proof.
  intros Hne Hnil.
  set (m := countVotesPerImage votes) in *.
  assert (JsMap.values m ≠ []) as Hvals.
  { destruct votes as [|v votes]; [done|].
    assert (Vote.imageId v ∈ JsMap.keys m) as Hk.
    { unfold m, countVotesPerImage. cbn [fold_left].
      apply countVotes_fold_keys. cbn. left. }
    unfold JsMap.values. destruct m; [|done]. by apply elem_of_nil in Hk. }
  apply Math_max_elem_of in Hvals. unfold JsMap.values in Hvals at 2.
  apply list_elem_of_fmap in Hvals as ([k c] & Hc & Hin). simpl in Hc.
  assert (0 < c)%nat as Hpos.
  { eapply (countVotes_fold_pos votes JsMap.empty k); [done|].
    apply JsMap_elem_of_get; [apply countVotesPerImage_wf|done]. }
  assert (k ∈ findWinningImages m) as Hw.
  { apply findWinningImages_elem_of. exists c. by split_and!. }
  rewrite Hnil in Hw. by apply elem_of_nil in Hw.
Qed.

Lemma voted_elem_of (votes : list Vote.t) (id : N) :
  id ∈ (list_to_set (map Vote.voterId votes) : gset N) ↔
  ∃ v, v ∈ votes ∧ Vote.voterId v = id.
Proof.
  rewrite elem_of_list_to_set, list_elem_of_fmap. split.
  - intros (x & -> & Hx). by exists x.
  - intros (x & Hx & <-). by exists x.
Qed.

Lemma submitted_elem_of (prompts : list Prompt.t) (id : N) :
  id ∈ (list_to_set (map Prompt.playerId prompts) : gset N) ↔
  ∃ q, q ∈ prompts ∧ Prompt.playerId q = id.
Proof.
  rewrite elem_of_list_to_set, list_elem_of_fmap. split.
  - intros (x & -> & Hx). by exists x.
  - intros (x & Hx & <-). by exists x.
Qed.

Lemma haveAllEligiblePlayersVoted_true eligibility votes :
  haveAllEligiblePlayersVoted eligibility votes = true ↔
  (∃ e, e ∈ eligibility ∧ VotingEligibility.isEligible e = true) ∧
  (∀ e, e ∈ eligibility → VotingEligibility.isEligible e = true →
        ∃ v, v ∈ votes ∧ Vote.voterId v = VotingEligibility.playerId e).
Proof.
  unfold haveAllEligiblePlayersVoted. cbv zeta.
  case_bool_decide as Hlen.
  - apply length_zero_iff_nil in Hlen. split; [done|].
    intros ((e & Hin & He) & _). exfalso.
    assert (In e (List.filter VotingEligibility.isEligible eligibility)) as Hf.
    { apply filter_In. split; [by apply list_elem_of_In|done]. }
    by rewrite Hlen in Hf.
  - rewrite forallb_forall. split.
    + intros Hall. split.
      * destruct (List.filter VotingEligibility.isEligible eligibility)
          as [|e es] eqn:Hf; [done|].
        assert (In e (List.filter VotingEligibility.isEligible eligibility)) as Hin
          by (rewrite Hf; left; done).
        apply filter_In in Hin as [Hin He]. exists e.
        split; [by apply list_elem_of_In|done].
      * intros e Hin He. apply voted_elem_of.
        eapply bool_decide_eq_true_1, Hall.
        apply filter_In. split; [by apply list_elem_of_In|done].
    + intros [_ Hall] e [Hin He]%filter_In.
      apply bool_decide_eq_true_2, voted_elem_of, Hall; [by apply list_elem_of_In|done].
Qed.

Lemma shouldTriggerEarlyPromptTransition_true connectedPlayers prompts :
  shouldTriggerEarlyPromptTransition connectedPlayers prompts = true ↔
  (∃ p, p ∈ connectedPlayers ∧ Player.status p = connected) ∧
  (∀ p, p ∈ connectedPlayers → Player.status p = connected →
        ∃ q, q ∈ prompts ∧ Prompt.playerId q = Player._id p).
Proof.
  unfold shouldTriggerEarlyPromptTransition. cbv zeta.
  set (conn := List.filter _ connectedPlayers).
  assert (∀ p, In p conn ↔ p ∈ connectedPlayers ∧ Player.status p = connected) as Hconn.
  { intros p. unfold conn. rewrite filter_In, bool_decide_eq_true.
    by rewrite list_elem_of_In. }
  rewrite length_map. case_bool_decide as Hlen.
  - apply length_zero_iff_nil in Hlen. split; [done|].
    intros ((p & Hp) & _). apply Hconn in Hp. by rewrite Hlen in Hp.
  - rewrite forallb_forall. split.
    + intros Hall. split.
      * destruct conn as [|p ps] eqn:Hc; [done|].
        exists p. apply Hconn. by left.
      * intros p Hin Hp. apply submitted_elem_of.
        eapply bool_decide_eq_true_1, Hall.
        apply in_map, Hconn. done.
    + intros [_ Hall] id (p & <- & [Hin Hp]%Hconn)%in_map_iff.
      by apply bool_decide_eq_true_2, submitted_elem_of, Hall.
Qed.

(** C8. The "all required players have acted" checks are true exactly when
    the set of players who must act is not empty and each of them has a
    recorded action: a vote for [haveAllEligiblePlayersVoted], a prompt for
    the prompt-phase check.  With nobody eligible the answer is false. *)
Theorem allRequiredHaveActed_iff
    (eligibility : list VotingEligibility.t) (votes : list Vote.t)
    (connectedPlayers : list Player.t) (prompts : list Prompt.t) :
  (haveAllEligiblePlayersVoted eligibility votes = true ↔
     (∃ e, e ∈ eligibility ∧ VotingEligibility.isEligible e = true) ∧
     (∀ e, e ∈ eligibility → VotingEligibility.isEligible e = true →
           ∃ v, v ∈ votes ∧ Vote.voterId v = VotingEligibility.playerId e))
  ∧ (shouldTriggerEarlyPromptTransition connectedPlayers prompts = true ↔
     (∃ p, p ∈ connectedPlayers ∧ Player.status p = connected) ∧
     (∀ p, p ∈ connectedPlayers → Player.status p = connected →
           ∃ q, q ∈ prompts ∧ Prompt.playerId q = Player._id p))
  ∧ ((∀ e, e ∈ eligibility → VotingEligibility.isEligible e = false) →
     haveAllEligiblePlayersVoted eligibility votes = false)
  ∧ ((∀ p, p ∈ connectedPlayers → Player.status p ≠ connected) →
     shouldTriggerEarlyPromptTransition connectedPlayers prompts = false).
Proof.
  split_and!.
  - apply haveAllEligiblePlayersVoted_true.
  - apply shouldTriggerEarlyPromptTransition_true.
  - intros Hnone. apply not_true_is_false.
    intros ((e & Hin & He) & _)%haveAllEligiblePlayersVoted_true.
    rewrite (Hnone e Hin) in He. done.
  - intros Hnone. apply not_true_is_false.
    intros ((p & Hin & Hp) & _)%shouldTriggerEarlyPromptTransition_true.
    by apply (Hnone p Hin).
Qed.

Lemma existsb_elem_of {A} (f : A → bool) (l : list A) :
  existsb f l = true ↔ ∃ x, x ∈ l ∧ f x = true.
Proof.
  rewrite existsb_exists. by setoid_rewrite list_elem_of_In.
Qed.

(** C7, as the code has it.  In the list returned by
    [calculateVotingEligibility], the entry of a player who is not
    connected is ineligible; the entry of a connected player is eligible
    when some submission is by another player, ineligible with reason
    "Only own image available" when the player submitted and no submission
    is by anybody else, and eligible whenever the player submitted nothing,
    also when there is no submission at all. *)
Theorem calculateVotingEligibility_entries
    (connectedPlayers : list Player.t) (prompts : list Prompt.t) :
  Forall2 (λ player e,
      VotingEligibility.playerId e = Player._id player
      ∧ (Player.status player ≠ connected →
         VotingEligibility.isEligible e = false)
      ∧ (Player.status player = connected →
         (∃ q, q ∈ prompts ∧ Prompt.playerId q ≠ Player._id player) →
         VotingEligibility.isEligible e = true)
      ∧ (Player.status player = connected →
         (∃ q, q ∈ prompts ∧ Prompt.playerId q = Player._id player) →
         (∀ q, q ∈ prompts → Prompt.playerId q = Player._id player) →
         VotingEligibility.isEligible e = false
         ∧ VotingEligibility.reason e = "Only own image available")
      ∧ (Player.status player = connected →
         (∀ q, q ∈ prompts → Prompt.playerId q ≠ Player._id player) →
         VotingEligibility.isEligible e = true))
    connectedPlayers (calculateVotingEligibility connectedPlayers prompts).
Proof.
  unfold calculateVotingEligibility. apply Forall2_fmap_r, Forall_Forall2_diag.
  apply Forall_forall. intros player _. unfold compose, votingEligibilityOf.
  cbv beta zeta.
  destruct (bool_decide_reflect (Player.status player = connected)) as [Hc|Hc];
    cbn [negb].
  - destruct (existsb (λ p, negb (bool_decide (Prompt.playerId p = Player._id player)))
                prompts) eqn:Hother.
    + split_and!; try done. intros _ _ Hall.
      apply existsb_elem_of in Hother as (q & Hq & Hne).
      apply negb_true_iff, bool_decide_eq_false in Hne. by specialize (Hall q Hq).
    + assert (∀ q, q ∈ prompts → Prompt.playerId q = Player._id player) as Hown.
      { intros q Hq. destruct (decide (Prompt.playerId q = Player._id player)) as [|Hne];
          [done|].
        assert (existsb (λ p, negb (bool_decide (Prompt.playerId p = Player._id player)))
                  prompts = true) as Ht; [|congruence].
        apply existsb_elem_of. exists q. split; [done|].
        by apply negb_true_iff, bool_decide_eq_false. }
      destruct (existsb (λ p, bool_decide (Prompt.playerId p = Player._id player))
                  prompts) eqn:Hsub; cbn [negb].
      * apply existsb_elem_of in Hsub as (q & Hq & Heq).
        apply bool_decide_eq_true in Heq.
        split_and!; try done.
        -- intros _ (q' & Hq' & Hne). by specialize (Hown q' Hq').
        -- intros _ Hnone. by specialize (Hnone q Hq).
      * split_and!; try done.
        intros _ (q & Hq & Heq) _. exfalso.
        assert (existsb (λ p, bool_decide (Prompt.playerId p = Player._id player))
                  prompts = true) as Ht; [|congruence].
        apply existsb_elem_of. exists q. split; [done|].
        by apply bool_decide_eq_true.
  - split_and!; done.
Qed.

(** C7 as stated fails: a connected player facing no submission at all is
    marked eligible, although no image exists. *)
Lemma calculateVotingEligibility_no_prompts_eligible :
  ¬ (∀ (connectedPlayers : list Player.t) (prompts : list Prompt.t)
       (i : nat) (player : Player.t) (e : VotingEligibility.t),
       connectedPlayers !! i = Some player →
       calculateVotingEligibility connectedPlayers prompts !! i = Some e →
       Player.status player = connected →
       (∀ q, q ∈ prompts → Prompt.playerId q ≠ Player._id player) →
       (VotingEligibility.isEligible e = true ↔ prompts ≠ [])).
Proof.
  intros H.
  specialize (H [Player.mk 1 1 1 connected false 0] [] 0%nat
                (Player.mk 1 1 1 connected false 0)
                (VotingEligibility.mk 1 true
                   "Did not submit prompt, can vote on all images")
                eq_refl eq_refl eq_refl).
  destruct H as [H _].
  - intros q Hq. by apply elem_of_nil in Hq.
  - by apply H.
Qed.

(** ** Tables *)

Section tables.
Context {A : Type} (ident : A → N).
Implicit Types (tbl : list A) (id : N) (f : A → A).

Lemma tbl_get_ident tbl id d : tbl_get ident tbl id = Some d → ident d = id.
Proof.
  unfold tbl_get. intros [_ H]%find_some. by apply bool_decide_eq_true in H.
Qed.

Lemma tbl_get_elem_of tbl id d : tbl_get ident tbl id = Some d → d ∈ tbl.
Proof.
  unfold tbl_get. intros [H _]%find_some. by apply list_elem_of_In.
Qed.

Lemma tbl_get_cons tbl d id :
  tbl_get ident (d :: tbl) id =
    if bool_decide (ident d = id) then Some d else tbl_get ident tbl id.
Proof. done. Qed.

(** Patching a document that [get] finds succeeds, replaces that
    document and leaves the answers for the other ids alone. *)
Lemma tbl_patch_get tbl id f d :
  tbl_get ident tbl id = Some d →
  (∀ x, ident (f x) = ident x) →
  ∃ tbl', tbl_patch ident tbl id f = Some tbl'
    ∧ tbl_get ident tbl' id = Some (f d)
    ∧ (∀ id', id' ≠ id → tbl_get ident tbl' id' = tbl_get ident tbl id')
    ∧ length tbl' = length tbl.
Proof.
  intros Hget Hid. induction tbl as [|x tbl IH]; [done|].
  rewrite tbl_get_cons in Hget. cbn [tbl_patch].
  destruct (bool_decide_reflect (ident x = id)) as [Hx|Hx].
  - injection Hget as ->. eexists. split_and!; [done| | |done].
    + rewrite tbl_get_cons, Hid. by rewrite bool_decide_eq_true_2.
    + intros id' Hne. rewrite !tbl_get_cons, Hid.
      rewrite !bool_decide_eq_false_2; congruence.
  - destruct (IH Hget) as (tbl' & -> & Hsame & Hother & Hlen).
    eexists. split_and!; [done| | |].
    + rewrite tbl_get_cons. by rewrite bool_decide_eq_false_2.
    + intros id' Hne. rewrite !tbl_get_cons. rewrite (Hother id' Hne). done.
    + simpl. by rewrite Hlen.
Qed.

Lemma tbl_patch_None tbl id f :
  tbl_get ident tbl id = None → tbl_patch ident tbl id f = None.
Proof.
  induction tbl as [|x tbl IH]; [done|].
  rewrite tbl_get_cons. cbn [tbl_patch].
  destruct (bool_decide_reflect (ident x = id)); [done|].
  intros Hn. by rewrite (IH Hn).
Qed.
End tables.

Lemma totalScore_patch players id f d players' :
  tbl_get Player._id players id = Some d →
  tbl_patch Player._id players id f = Some players' →
  totalScore players' = totalScore players - Player.score d + Player.score (f d).
Proof.
  revert players'. induction players as [|x players IH]; intros players' Hget; [done|].
  rewrite tbl_get_cons in Hget. cbn [tbl_patch].
  destruct (bool_decide_reflect (Player._id x = id)).
  - injection Hget as ->. intros [= <-]. simpl. lia.
  - destruct (tbl_patch Player._id players id f) as [tbl|] eqn:Hp; [|done].
    intros [= <-]. simpl. rewrite (IH tbl Hget eq_refl). lia.
Qed.

(** ** The scoring engine *)

Ltac munfold :=
  unfold db_get_room, db_get_player, db_get_round, db_get_prompt,
    db_get_generatedImage, db_patch_round, db_patch_player,
    getPromptsForRound, prompts_by_round, votes_by_round,
    scheduler_runAfter, scheduler_runAt, scheduler_cancel, when, read,
    mbind, mret, Mutation_bind, Mutation_ret in *;
  cbn beta iota in *.

Lemma set_players_id s : Store.set_players (Store.players s) s = s.
Proof. by destruct s. Qed.

Lemma ownerOf_Some s imageId q :
  ownerOf s imageId = Some q →
  ∃ image prompt player,
    tbl_get GeneratedImage._id (Store.generatedImages s) imageId = Some image
    ∧ tbl_get Prompt._id (Store.prompts s) (GeneratedImage.promptId image) = Some prompt
    ∧ tbl_get Player._id (Store.players s) (Prompt.playerId prompt) = Some player
    ∧ Prompt.playerId prompt = q ∧ Player._id player = q.
Proof.
  unfold ownerOf. intros H.
  destruct (tbl_get GeneratedImage._id _ imageId) as [image|] eqn:Hi; [|done].
  simpl in H.
  destruct (tbl_get Prompt._id _ (GeneratedImage.promptId image)) as [prompt|] eqn:Hq;
    [|done].
  simpl in H.
  destruct (tbl_get Player._id _ (Prompt.playerId prompt)) as [player|] eqn:Hp; [|done].
  simpl in H. injection H as <-. exists image, prompt, player.
  split_and!; try done. symmetry. by apply (tbl_get_ident _ _ _ _ Hp).
Qed.

(** The owner of an image depends on the players table only through the
    ids present in it. *)
Lemma ownerOf_set_players s tbl imageId :
  (∀ id, is_Some (tbl_get Player._id tbl id)
         ↔ is_Some (tbl_get Player._id (Store.players s) id)) →
  ownerOf (Store.set_players tbl s) imageId = ownerOf s imageId.
Proof.
  intros Hdom. unfold ownerOf. cbn [Store.generatedImages Store.prompts
    Store.players Store.set_players].
  destruct (tbl_get GeneratedImage._id _ imageId) as [image|]; [|done].
  simpl.
  destruct (tbl_get Prompt._id _ (GeneratedImage.promptId image)) as [prompt|]; [|done].
  simpl. specialize (Hdom (Prompt.playerId prompt)).
  destruct (tbl_get Player._id tbl _) as [p1|] eqn:H1;
    destruct (tbl_get Player._id (Store.players s) _) as [p2|] eqn:H2; simpl.
  - apply tbl_get_ident in H1, H2. congruence.
  - destruct Hdom as [Hd _]. by destruct Hd.
  - destruct Hdom as [_ Hd]. by destruct Hd.
  - done.
Qed.

Lemma winsOf_set_players s tbl winners p :
  (∀ id, is_Some (tbl_get Player._id tbl id)
         ↔ is_Some (tbl_get Player._id (Store.players s) id)) →
  winsOf (Store.set_players tbl s) winners p = winsOf s winners p.
Proof.
  intros Hdom. unfold winsOf. f_equal.
  induction winners as [|w ws IH]; [done|]. simpl.
  by rewrite IH, ownerOf_set_players.
Qed.

Lemma ownedWinners_set_players s tbl winners :
  (∀ id, is_Some (tbl_get Player._id tbl id)
         ↔ is_Some (tbl_get Player._id (Store.players s) id)) →
  ownedWinners (Store.set_players tbl s) winners = ownedWinners s winners.
Proof.
  intros Hdom. unfold ownedWinners. f_equal.
  induction winners as [|w ws IH]; [done|]. simpl.
  change (list_omap N N) with (@omap list _ N N). by rewrite IH, ownerOf_set_players.
Qed.

Lemma winsOf_cons s w ws p :
  winsOf s (w :: ws) p =
    ((if bool_decide (ownerOf s w = Some p) then 1 else 0) + winsOf s ws p)%nat.
Proof. unfold winsOf. simpl. by case_bool_decide. Qed.

Lemma ownedWinners_cons s w ws :
  ownedWinners s (w :: ws) =
    ((match ownerOf s w with Some _ => 1 | None => 0 end) + ownedWinners s ws)%nat.
Proof. unfold ownedWinners. simpl. by destruct (ownerOf s w). Qed.

(** One award: the score of player [q] grows by [pts], the table keeps its
    ids, and the sum of the scores grows by [pts]. *)
Lemma db_patch_player_score s q player pts :
  tbl_get Player._id (Store.players s) q = Some player →
  ∃ tbl,
    db_patch_player q (Player.set_score (Player.score player + pts)) s
      = Returned () (Store.set_players tbl s)
    ∧ (∀ p, Player.score <$> tbl_get Player._id tbl p =
            (λ x, if bool_decide (q = p) then x + pts else x) <$> scoreOf s p)
    ∧ (∀ id, is_Some (tbl_get Player._id tbl id)
             ↔ is_Some (tbl_get Player._id (Store.players s) id))
    ∧ totalScore tbl = totalScore (Store.players s) + pts.
Proof.
  intros Hget.
  destruct (tbl_patch_get Player._id (Store.players s) q
              (Player.set_score (Player.score player + pts)) player Hget)
    as (tbl & Hpatch & Hsame & Hother & _); [done|].
  exists tbl. unfold db_patch_player. rewrite Hpatch. split_and!; [done| | |].
  - intros p. unfold scoreOf. destruct (decide (q = p)) as [<-|Hne].
    + rewrite Hsame, Hget. simpl. by rewrite bool_decide_eq_true_2.
    + rewrite Hother by done. destruct (tbl_get Player._id (Store.players s) p); simpl;
        [|done]. by rewrite bool_decide_eq_false_2.
  - intros id. destruct (decide (id = q)) as [->|Hne].
    + rewrite Hsame, Hget. split; eauto.
    + by rewrite Hother.
  - rewrite (totalScore_patch _ _ _ _ _ Hget Hpatch). simpl. lia.
Qed.

Lemma awardWinners_spec share winners s :
  ∃ tbl,
    awardWinners share winners s = Returned () (Store.set_players tbl s)
    ∧ (∀ p, Player.score <$> tbl_get Player._id tbl p =
            (λ x, x + share * Z.of_nat (winsOf s winners p)) <$> scoreOf s p)
    ∧ (∀ id, is_Some (tbl_get Player._id tbl id)
             ↔ is_Some (tbl_get Player._id (Store.players s) id))
    ∧ totalScore tbl =
        totalScore (Store.players s) + share * Z.of_nat (ownedWinners s winners).
Proof.
  revert s. induction winners as [|w ws IH]; intros s.
  { exists (Store.players s). cbn [awardWinners]. munfold.
    rewrite set_players_id. split_and!; [done| |done|].
    - intros p. unfold scoreOf, winsOf. simpl.
      destruct (tbl_get Player._id (Store.players s) p); simpl; [|done].
      f_equal. lia.
    - unfold ownedWinners. simpl. lia. }
  assert (ownerOf s w = None →
    awardWinners share (w :: ws) s = awardWinners share ws s) as Hskip.
  { unfold ownerOf. cbn [awardWinners]. munfold.
    destruct (tbl_get GeneratedImage._id _ w) as [image|]; [|done]. simpl.
    destruct (tbl_get Prompt._id _ (GeneratedImage.promptId image)) as [prompt|];
      [|done]. simpl.
    by destruct (tbl_get Player._id _ (Prompt.playerId prompt)). }
  destruct (ownerOf s w) as [q|] eqn:Hown.
  - apply ownerOf_Some in Hown as Hlinks.
    destruct Hlinks as (image & prompt & player & Himg & Hpr & Hpl & Hq & Hid).
    rewrite Hq in Hpl.
    destruct (db_patch_player_score s q player share Hpl)
      as (tbl1 & Hpatch & Hscore1 & Hdom1 & Htot1).
    destruct (IH (Store.set_players tbl1 s)) as (tbl2 & Hrun & Hscore2 & Hdom2 & Htot2).
    exists tbl2. split_and!.
    + cbn [awardWinners]. munfold. rewrite Himg, Hpr, Hq, Hpl, Hid.
      unfold db_patch_player in Hpatch. rewrite Hpatch. exact Hrun.
    + intros p. rewrite Hscore2. unfold scoreOf at 1.
      cbn [Store.players Store.set_players]. rewrite Hscore1.
      rewrite winsOf_set_players by done. rewrite winsOf_cons, Hown.
      destruct (scoreOf s p) as [x|]; simpl; [|done]. f_equal.
      destruct (bool_decide_reflect (q = p)) as [->|Hne].
      * rewrite bool_decide_eq_true_2 by done. lia.
      * rewrite bool_decide_eq_false_2 by congruence. lia.
    + intros id. rewrite Hdom2. cbn [Store.players Store.set_players]. apply Hdom1.
    + rewrite Htot2. cbn [Store.players Store.set_players]. rewrite Htot1.
      rewrite ownedWinners_set_players by done. rewrite ownedWinners_cons, Hown. lia.
  - rewrite (Hskip eq_refl). destruct (IH s) as (tbl & Hrun & Hscore & Hdom & Htot).
    exists tbl. split_and!; [done| |done|].
    + intros p. rewrite Hscore, winsOf_cons, Hown.
      by rewrite bool_decide_eq_false_2.
    + by rewrite Htot, ownedWinners_cons, Hown.
Qed.

Lemma awardVoters_spec cfg votes : ∀ (awarded : gset N) s,
  ∃ tbl,
    awardVoters cfg awarded votes s = Returned () (Store.set_players tbl s)
    ∧ (∀ p, Player.score <$> tbl_get Player._id tbl p =
            (λ x, if bool_decide ((p ∉ awarded) ∧ p ∈ map Vote.voterId votes)
                  then x + POINTS_PER_VOTE cfg else x) <$> scoreOf s p)
    ∧ (∀ id, is_Some (tbl_get Player._id tbl id)
             ↔ is_Some (tbl_get Player._id (Store.players s) id)).
Proof.
  induction votes as [|v votes IH]; intros awarded s.
  { exists (Store.players s). cbn [awardVoters]. munfold.
    rewrite set_players_id. split_and!; [done| |done].
    intros p. unfold scoreOf.
    destruct (tbl_get Player._id (Store.players s) p); simpl; [|done].
    rewrite bool_decide_eq_false_2; [done|]. intros [_ Hin]. by apply elem_of_nil in Hin. }
  cbn [awardVoters]. set (q := Vote.voterId v).
  destruct (bool_decide_reflect (q ∈ awarded)) as [Hq|Hq].
  - destruct (IH awarded s) as (tbl & Hrun & Hscore & Hdom).
    exists tbl. split_and!; [done| |done].
    intros p. rewrite Hscore. destruct (scoreOf s p) as [x|]; simpl; [|done].
    f_equal. apply (f_equal (λ b : bool, if b then _ else _)).
    apply bool_decide_ext. fold q. rewrite elem_of_cons. naive_solver.
  - munfold. destruct (tbl_get Player._id (Store.players s) q) as [voter|] eqn:Hget.
    + destruct (db_patch_player_score s q voter (POINTS_PER_VOTE cfg) Hget)
        as (tbl1 & Hpatch & Hscore1 & Hdom1 & _).
      unfold db_patch_player in Hpatch. rewrite Hpatch.
      destruct (IH ({[q]} ∪ awarded) (Store.set_players tbl1 s))
        as (tbl2 & Hrun & Hscore2 & Hdom2).
      exists tbl2. split_and!; [exact Hrun| |].
      * intros p. rewrite Hscore2. unfold scoreOf at 1.
        cbn [Store.players Store.set_players]. rewrite Hscore1. fold q.
        destruct (scoreOf s p) as [x|]; simpl; [|done]. f_equal.
        destruct (bool_decide_reflect (q = p)) as [<-|Hne].
        -- rewrite bool_decide_eq_false_2 by set_solver.
           rewrite bool_decide_eq_true_2; [done|]. split; [done|left].
        -- apply (f_equal (λ b : bool, if b then _ else _)).
           apply bool_decide_ext. rewrite elem_of_cons. set_solver.
      * intros id. rewrite Hdom2. cbn [Store.players Store.set_players]. apply Hdom1.
    + destruct (IH ({[q]} ∪ awarded) s) as (tbl2 & Hrun & Hscore2 & Hdom2).
      exists tbl2. split_and!; [exact Hrun| |done].
      intros p. rewrite Hscore2. fold q.
      destruct (scoreOf s p) as [x|] eqn:Hp; simpl; [|done]. f_equal.
      apply (f_equal (λ b : bool, if b then _ else _)).
      apply bool_decide_ext. rewrite elem_of_cons.
      assert (p ≠ q); [|set_solver].
      intros ->. unfold scoreOf in Hp. by rewrite Hget in Hp.
Qed.

Lemma ownedWinners_le s winners : (ownedWinners s winners ≤ length winners)%nat.
Proof.
  induction winners as [|w ws IH]; [done|].
  rewrite ownedWinners_cons. simpl length. destruct (ownerOf s w); lia.
Qed.

Lemma ownedWinners_all s winners :
  (∀ w, w ∈ winners → is_Some (ownerOf s w)) →
  ownedWinners s winners = length winners.
Proof.
  induction winners as [|w ws IH]; intros Hown; [done|].
  rewrite ownedWinners_cons. simpl length.
  destruct (Hown w) as [q ->]; [left|]. rewrite IH; [done|].
  intros w' Hw'. apply Hown. by right.
Qed.

(** C5. Scoring a round gives the owner of each of the [n] winning images
    [floor(POINTS_PER_WIN / n)] points per image owned: the table after the
    winners' loop of [calculateScores] differs from the one before by that
    amount for each player.  The points handed out sum to the share times
    the number of winning images that have an owner, which is at most
    [POINTS_PER_WIN]; when every winning image has an owner the sum is the
    whole budget exactly when [n] divides it. *)
Theorem calculateScores_win_points cfg s roundId round :
  tbl_get Round._id (Store.rounds s) roundId = Some round →
  0 ≤ POINTS_PER_WIN cfg →
  let votes := List.filter (λ v, bool_decide (Vote.roundId v = roundId))
                 (Store.votes s) in
  let winningImageIds := findWinningImages (countVotesPerImage votes) in
  let n := Z.of_nat (length winningImageIds) in
  let pointsPerWinner := POINTS_PER_WIN cfg `div` n in
  ∃ tbl,
    awardWinners pointsPerWinner winningImageIds s
      = Returned () (Store.set_players tbl s)
    ∧ calculateScores cfg roundId s
      = (if bool_decide (winningImageIds = []) then Returned () s
         else awardVoters cfg ∅ votes (Store.set_players tbl s))
    ∧ (∀ p, Player.score <$> tbl_get Player._id tbl p =
            (λ x, x + pointsPerWinner * Z.of_nat (winsOf s winningImageIds p))
              <$> scoreOf s p)
    ∧ totalScore tbl - totalScore (Store.players s)
      = pointsPerWinner * Z.of_nat (ownedWinners s winningImageIds)
    ∧ totalScore tbl - totalScore (Store.players s) ≤ POINTS_PER_WIN cfg
    ∧ ((∀ w, w ∈ winningImageIds → is_Some (ownerOf s w)) →
       winningImageIds ≠ [] →
       (totalScore tbl - totalScore (Store.players s) = POINTS_PER_WIN cfg
        ↔ POINTS_PER_WIN cfg `mod` n = 0)).
Proof.
  intros Hround Hbudget votes winningImageIds n pointsPerWinner.
  destruct (awardWinners_spec pointsPerWinner winningImageIds s)
    as (tbl & Hrun & Hscore & _ & Htot).
  pose proof (ownedWinners_le s winningImageIds) as Hle.
  exists tbl. split_and!; [done| |done|lia| |].
  - unfold calculateScores. munfold. rewrite Hround.
    fold votes. fold winningImageIds.
    destruct winningImageIds as [|w ws] eqn:Hw; [done|].
    rewrite bool_decide_eq_false_2 by done.
    rewrite bool_decide_eq_false_2 by done.
    fold n. fold pointsPerWinner. rewrite Hrun. done.
  - rewrite Htot. destruct (decide (n = 0)) as [Hn|Hn].
    + assert (ownedWinners s winningImageIds = 0%nat) as -> by lia. lia.
    + assert (0 ≤ pointsPerWinner) by (apply Z.div_pos; lia).
      assert (pointsPerWinner * n ≤ POINTS_PER_WIN cfg).
      { rewrite Z.mul_comm. apply Z.mul_div_le. lia. }
      nia.
  - intros Hown Hne.
    rewrite (ownedWinners_all s winningImageIds Hown) in Htot.
    fold n. assert (0 < n) as Hpos.
    { unfold n. destruct winningImageIds; [done|]. simpl length. lia. }
    rewrite Htot. pose proof (Z.div_mod (POINTS_PER_WIN cfg) n ltac:(lia)) as Hdm.
    fold pointsPerWinner in Hdm. lia.
Qed.

(** C6. Scoring a round adds [POINTS_PER_VOTE] exactly once to the score
    of every player who cast a vote in the round, on top of whatever the
    player won: the amount depends neither on the number of votes of that
    voter, nor on the image voted for, nor on the voter being a winner.
    The mutation always returns; with no vote in the round it leaves the
    store as it was. *)
Theorem calculateScores_participation cfg s roundId round :
  tbl_get Round._id (Store.rounds s) roundId = Some round →
  let votes := List.filter (λ v, bool_decide (Vote.roundId v = roundId))
                 (Store.votes s) in
  let winningImageIds := findWinningImages (countVotesPerImage votes) in
  let pointsPerWinner :=
    POINTS_PER_WIN cfg `div` Z.of_nat (length winningImageIds) in
  ∃ tbl,
    calculateScores cfg roundId s = Returned () (Store.set_players tbl s)
    ∧ (∀ p, Player.score <$> tbl_get Player._id tbl p =
            (λ x, x + pointsPerWinner * Z.of_nat (winsOf s winningImageIds p)
                    + (if bool_decide (p ∈ map Vote.voterId votes)
                       then POINTS_PER_VOTE cfg else 0))
              <$> scoreOf s p)
    ∧ (votes = [] → calculateScores cfg roundId s = Returned () s).
Proof.
  intros Hround votes winningImageIds pointsPerWinner.
  assert (calculateScores cfg roundId s
          = (if bool_decide (length winningImageIds = 0%nat) then Returned () s
             else match awardWinners pointsPerWinner winningImageIds s with
                  | Returned _ s1 => awardVoters cfg ∅ votes s1
                  | Thrown msg => Thrown msg
                  end)) as Hcalc.
  { unfold calculateScores. munfold. rewrite Hround.
    unfold pointsPerWinner, winningImageIds, votes. by case_bool_decide. }
  destruct (decide (votes = [])) as [Hv|Hv].
  - exists (Store.players s).
    assert (winningImageIds = []) as Hw by (unfold winningImageIds; by rewrite Hv).
    rewrite Hcalc, Hw, set_players_id. simpl. split_and!; [done| |done].
    intros p. unfold scoreOf, winsOf. rewrite Hv. simpl.
    destruct (tbl_get Player._id (Store.players s) p); simpl; [|done].
    f_equal. lia.
  - pose proof (findWinningImages_countVotes_nonempty votes Hv) as Hw.
    fold winningImageIds in Hw.
    destruct (awardWinners_spec pointsPerWinner winningImageIds s)
      as (tbl1 & Hrun1 & Hscore1 & _ & _).
    destruct (awardVoters_spec cfg votes ∅ (Store.set_players tbl1 s))
      as (tbl2 & Hrun2 & Hscore2 & _).
    exists tbl2. split_and!; [| |done].
    + rewrite Hcalc, Hrun1, Hrun2.
      rewrite bool_decide_eq_false_2; [done|]. by destruct winningImageIds.
    + intros p. rewrite Hscore2. unfold scoreOf at 1.
      cbn [Store.players Store.set_players]. rewrite Hscore1.
      destruct (scoreOf s p) as [x|]; simpl; [|done]. f_equal.
      destruct (decide (p ∈ map Vote.voterId votes)).
      * rewrite !bool_decide_eq_true_2; [done..|]. split; [set_solver|done].
      * rewrite !bool_decide_eq_false_2; [lia|done|]. by intros [_ ?].
Qed.

Lemma omap_length_le {A B} (f : A → option B) (l : list A) :
  (length (omap f l) ≤ length l)%nat.
Proof.
  induction l as [|x l IH]; [done|]. csimpl. destruct (f x); simpl; lia.
Qed.

(** The pure mirror of the scoring engine lists the same awards. *)
Lemma winnerResults_entries config winners images prompts r :
  r ∈ winnerResults config winners images prompts →
  ScoreResult.reason r ≠ participation
  ∧ ScoreResult.pointsAwarded r
    = pointsPerWin config `div` Z.of_nat (length winners).
Proof.
  unfold winnerResults. cbv zeta. rewrite list_elem_of_omap.
  intros (w & _ & Hr).
  destruct (List.find _ images) as [image|]; [|done]. simpl in Hr.
  destruct (List.find _ prompts) as [prompt|]; [|done]. simpl in Hr.
  injection Hr as <-. simpl. split; [|done]. by case_bool_decide.
Qed.

Lemma winPoints_winnerResults config winners images prompts :
  winPoints (winnerResults config winners images prompts)
  = pointsPerWin config `div` Z.of_nat (length winners)
    * Z.of_nat (length (winnerResults config winners images prompts)).
Proof.
  pose proof (winnerResults_entries config winners images prompts) as Hall.
  induction (winnerResults config winners images prompts) as [|r rs IH];
    [simpl; lia|].
  destruct (Hall r) as [Hr Hp]; [left|]. simpl.
  rewrite bool_decide_eq_false_2 by done. rewrite Hp, IH; [lia|].
  intros r' Hr'. apply Hall. by right.
Qed.

Lemma participationResults_entries config votes : ∀ (seen : gset N) p,
  participationEntries (participationResults config seen votes) p
  = if bool_decide ((p ∉ seen) ∧ p ∈ map Vote.voterId votes)
    then [ScoreResult.mk p (pointsPerVote config) participation] else [].
Proof.
  induction votes as [|v votes IH]; intros seen p.
  { simpl. rewrite bool_decide_eq_false_2; [done|]. by intros [_ ?%elem_of_nil]. }
  cbn [participationResults map]. set (q := Vote.voterId v).
  destruct (bool_decide_reflect (q ∈ seen)) as [Hq|Hq].
  - rewrite IH. apply (f_equal (λ b : bool, if b then _ else _)).
    apply bool_decide_ext. fold q. rewrite elem_of_cons. naive_solver.
  - unfold participationEntries in *. cbn [List.filter ScoreResult.reason
      ScoreResult.playerId]. rewrite bool_decide_eq_true_2 by done.
    cbn [andb]. rewrite IH. fold q.
    destruct (bool_decide_reflect (q = p)) as [<-|Hne].
    + rewrite bool_decide_eq_false_2 by set_solver.
      rewrite bool_decide_eq_true_2; [done|]. split; [done|left].
    + apply (f_equal (λ b : bool, if b then _ else _)).
      apply bool_decide_ext. rewrite elem_of_cons. set_solver.
Qed.

Lemma winPoints_participationResults config votes (seen : gset N) :
  winPoints (participationResults config seen votes) = 0.
Proof.
  revert seen. induction votes as [|v votes IH]; intros seen; [done|].
  cbn [participationResults]. case_bool_decide; [apply IH|].
  simpl. apply IH.
Qed.

Lemma winPoints_app rs1 rs2 : winPoints (rs1 ++ rs2) = winPoints rs1 + winPoints rs2.
Proof.
  induction rs1 as [|r rs1 IH]; [done|]. simpl. case_bool_decide; lia.
Qed.

Lemma calculateRoundScores_awards votes images prompts config :
  0 ≤ pointsPerWin config →
  let results := calculateRoundScores votes images prompts config in
  let n := Z.of_nat (length (findWinningImages (countVotesPerImage votes))) in
  (∀ r, r ∈ results → ScoreResult.reason r ≠ participation →
        ScoreResult.pointsAwarded r = pointsPerWin config `div` n)
  ∧ winPoints results ≤ pointsPerWin config
  ∧ (∀ p, participationEntries results p
          = if bool_decide (p ∈ map Vote.voterId votes)
            then [ScoreResult.mk p (pointsPerVote config) participation] else [])
  ∧ (votes = [] → results = []).
Proof.
  intros Hbudget results n. unfold results, calculateRoundScores. cbv zeta.
  set (winners := findWinningImages (countVotesPerImage votes)).
  assert (n = Z.of_nat (length winners)) as Hn by done. clearbody n. subst n.
  set (W := if bool_decide (0 < length winners)%nat
            then winnerResults config winners images prompts else []).
  assert (∀ r, r ∈ W → ScoreResult.reason r ≠ participation
                       ∧ ScoreResult.pointsAwarded r
                         = pointsPerWin config `div` Z.of_nat (length winners))
    as HW.
  { unfold W. case_bool_decide; [apply winnerResults_entries|].
    by intros r ?%elem_of_nil. }
  split_and!.
  - intros r [Hr|Hr]%elem_of_app Hreason; [by apply HW|].
    exfalso. apply Hreason. clear -Hr. revert Hr. generalize (∅ : gset N).
    induction votes as [|v votes IH]; intros seen; simpl; [by intros ?%elem_of_nil|].
    case_bool_decide; [by apply IH|]. intros [->|?]%elem_of_cons; [done|by eapply IH].
  - rewrite winPoints_app, winPoints_participationResults.
    unfold W. case_bool_decide as Hpos; [|simpl; lia].
    rewrite winPoints_winnerResults.
    assert (length (winnerResults config winners images prompts) ≤ length winners)%nat
      as Hlen by (unfold winnerResults; apply omap_length_le).
    set (n := Z.of_nat (length winners)) in *.
    assert (0 < n) by (unfold n; lia).
    assert (0 ≤ pointsPerWin config `div` n) by (apply Z.div_pos; lia).
    assert (pointsPerWin config `div` n * n ≤ pointsPerWin config).
    { rewrite Z.mul_comm. apply Z.mul_div_le. lia. }
    assert (Z.of_nat (length (winnerResults config winners images prompts)) ≤ n)
      by (unfold n; lia).
    nia.
  - intros p. unfold participationEntries. rewrite List.filter_app.
    assert (List.filter (λ r, bool_decide (ScoreResult.reason r = participation)
                              && bool_decide (ScoreResult.playerId r = p)) W = [])
      as ->.
    { clear -HW. induction W as [|r W IH]; [done|]. simpl.
      destruct (HW r) as [Hr _]; [left|].
      rewrite (bool_decide_eq_false_2 _ Hr). simpl. apply IH.
      intros r' Hr'. apply HW. by right. }
    simpl. pose proof (participationResults_entries config votes ∅ p) as Hp.
    unfold participationEntries in Hp. rewrite Hp.
    apply (f_equal (λ b : bool, if b then _ else _)).
    apply bool_decide_ext. set_solver.
  - intros ->. done.
Qed.

Lemma calculateScores_win_points_witness :
  let s := sample_store (sample_round Round.results (Some 15000) (Some 39%N)) in
  ∃ tbl,
    awardWinners 50 [22%N; 21%N] s = Returned () (Store.set_players tbl s)
    ∧ totalScore tbl - totalScore (Store.players s) = 100.
Proof.
  intros s.
  destruct (calculateScores_win_points sample_config s 7%N
              (sample_round Round.results (Some 15000) (Some 39%N)) eq_refl)
    as (tbl & Hrun & _ & _ & Htot & _); [done|].
  exists tbl. split; [exact Hrun|exact Htot].
Defined.

Lemma calculateScores_participation_witness :
  let s := sample_store (sample_round Round.results (Some 15000) (Some 39%N)) in
  ∃ tbl,
    calculateScores sample_config 7%N s = Returned () (Store.set_players tbl s)
    ∧ Player.score <$> tbl_get Player._id tbl 1%N = Some 60
    ∧ Player.score <$> tbl_get Player._id tbl 3%N = Some 5.
Proof.
  intros s.
  destruct (calculateScores_participation sample_config s 7%N
              (sample_round Round.results (Some 15000) (Some 39%N)) eq_refl)
    as (tbl & Hrun & Hscore & _).
  exists tbl. split_and!; [exact Hrun|exact (Hscore 1%N)|exact (Hscore 3%N)].
Defined.

(** ** The phase state machine *)

Section tables_update.
Context {A : Type} (ident : A → N).
Implicit Types (tbl : list A) (id : N) (f g : A → A).

Lemma tbl_patch_update tbl id f :
  is_Some (tbl_get ident tbl id) →
  tbl_patch ident tbl id f = Some (tbl_update ident tbl id f).
Proof.
  induction tbl as [|x tbl IH]; [by intros [? ?]|].
  rewrite tbl_get_cons. cbn [tbl_patch tbl_update].
  case_bool_decide; [done|]. intros Hs. by rewrite (IH Hs).
Qed.

Lemma tbl_get_update tbl id f :
  (∀ x, ident (f x) = ident x) →
  tbl_get ident (tbl_update ident tbl id f) id = f <$> tbl_get ident tbl id.
Proof.
  intros Hid. induction tbl as [|x tbl IH]; [done|].
  cbn [tbl_update]. rewrite tbl_get_cons.
  destruct (bool_decide_reflect (ident x = id)) as [Hx|Hx].
  - rewrite tbl_get_cons, Hid. by rewrite bool_decide_eq_true_2.
  - rewrite tbl_get_cons. by rewrite bool_decide_eq_false_2.
Qed.

Lemma tbl_get_update_ne tbl id id' f :
  (∀ x, ident (f x) = ident x) → id' ≠ id →
  tbl_get ident (tbl_update ident tbl id f) id' = tbl_get ident tbl id'.
Proof.
  intros Hid Hne. induction tbl as [|x tbl IH]; [done|].
  cbn [tbl_update]. destruct (bool_decide_reflect (ident x = id)) as [Hx|Hx].
  - rewrite !tbl_get_cons, Hid. rewrite !bool_decide_eq_false_2; congruence.
  - rewrite !tbl_get_cons. by rewrite IH.
Qed.

Lemma tbl_update_update tbl id f g :
  (∀ x, ident (f x) = ident x) →
  tbl_update ident (tbl_update ident tbl id f) id g
  = tbl_update ident tbl id (λ x, g (f x)).
Proof.
  intros Hid. induction tbl as [|x tbl IH]; [done|].
  cbn [tbl_update]. destruct (bool_decide_reflect (ident x = id)) as [Hx|Hx].
  - cbn [tbl_update]. rewrite Hid. by rewrite bool_decide_eq_true_2.
  - cbn [tbl_update]. rewrite bool_decide_eq_false_2 by done. by rewrite IH.
Qed.

Lemma tbl_update_ext tbl id f g d :
  tbl_get ident tbl id = Some d → f d = g d →
  tbl_update ident tbl id f = tbl_update ident tbl id g.
Proof.
  intros Hget Hfg. induction tbl as [|x tbl IH]; [done|].
  rewrite tbl_get_cons in Hget. cbn [tbl_update].
  destruct (bool_decide_reflect (ident x = id)) as [Hx|Hx].
  - injection Hget as ->. by rewrite Hfg.
  - by rewrite (IH Hget).
Qed.

Lemma tbl_update_id tbl id f d :
  tbl_get ident tbl id = Some d → f d = d → tbl_update ident tbl id f = tbl.
Proof.
  intros Hget Hf. induction tbl as [|x tbl IH]; [done|].
  rewrite tbl_get_cons in Hget. cbn [tbl_update].
  destruct (bool_decide_reflect (ident x = id)) as [Hx|Hx].
  - injection Hget as ->. by rewrite Hf.
  - by rewrite (IH Hget).
Qed.
End tables_update.

Lemma Round_id_patch cfg now promptCount job status r :
  Round._id (advancePatch cfg now promptCount job status r) = Round._id r.
Proof. by destruct status. Qed.

(** A transition that the race guard lets through leaves the store
    [advance] describes. *)
Ltac patch_step Hget :=
  rewrite tbl_patch_update
    by (rewrite ?tbl_get_update by done; rewrite Hget; eauto);
  cbn [Store.rooms Store.players Store.rounds Store.prompts
       Store.generatedImages Store.votes Store.scheduled Store.nextJobId
       Store.set_rounds Store.set_scheduler].

Lemma set_handle_None_id round :
  Round.scheduledTransitionId round = None →
  Round.set_scheduledTransitionId None round = round.
Proof. destruct round. simpl. by intros ->. Qed.

Lemma transitionPhase_advance cfg now roundId s round :
  roundOf s roundId = Some round →
  duplicateTransition cfg now round = false →
  transitionPhase cfg now roundId s = Returned () (advance cfg now round s).
Proof.
  intros Hget Hdup. pose proof (tbl_get_ident _ _ _ _ Hget) as Hid.
  unfold roundOf in Hget. unfold transitionPhase. munfold. rewrite Hget, Hdup.
  unfold advance, advanceJobs. rewrite Hid.
  destruct (Round.scheduledTransitionId round) as [h|] eqn:Hh;
    destruct (Round.status round) eqn:Hst;
    cbn [bool_decide decide_rel is_Some_dec];
    repeat patch_step Hget;
    try (destruct (tbl_get Room._id (Store.rooms s) (Round.roomId round)) as [room|];
         [destruct (truthy (Room.currentRound room) && _)|]);
    rewrite ?tbl_update_update by done;
    unfold Store.set_scheduler, Store.set_rounds, scheduler_runAfter, scheduler_runAt;
    cbn [Store.rooms Store.players Store.rounds Store.prompts
         Store.generatedImages Store.votes Store.scheduled Store.nextJobId length];
    rewrite <- ?app_assoc; cbn [app];
    f_equal; f_equal; rewrite ?app_nil_r; try done; try lia.
  - eapply tbl_update_ext; [exact Hget|]. unfold advancePatch.
    by rewrite (set_handle_None_id round Hh).
  - eapply tbl_update_ext; [exact Hget|]. unfold advancePatch.
    by rewrite (set_handle_None_id round Hh).
  - eapply tbl_update_ext; [exact Hget|]. unfold advancePatch.
    by rewrite (set_handle_None_id round Hh).
  - rewrite N.add_0_r.
    rewrite (tbl_update_id Round._id _ _ _ round Hget);
      [by destruct s|]. unfold advancePatch. by apply set_handle_None_id.
Qed.

Lemma transitionPhase_absorbed cfg now roundId s round :
  roundOf s roundId = Some round →
  duplicateTransition cfg now round = true →
  transitionPhase cfg now roundId s = Returned () s.
Proof.
  unfold roundOf. intros Hget Hdup. unfold transitionPhase. munfold.
  by rewrite Hget, Hdup.
Qed.

Lemma transitionPhase_absent cfg now roundId s :
  roundOf s roundId = None → transitionPhase cfg now roundId s = Returned () s.
Proof.
  unfold roundOf. intros Hget. unfold transitionPhase. munfold. by rewrite Hget.
Qed.

Lemma transitionPhase_returns cfg now roundId s :
  ∃ s', transitionPhase cfg now roundId s = Returned () s'.
Proof.
  destruct (roundOf s roundId) as [round|] eqn:Hget.
  - destruct (duplicateTransition cfg now round) eqn:Hdup.
    + exists s. by eapply transitionPhase_absorbed.
    + eexists. by eapply transitionPhase_advance.
  - exists s. by apply transitionPhase_absent.
Qed.

Lemma roundOf_advance cfg now roundId s round :
  roundOf s roundId = Some round →
  roundOf (advance cfg now round s) roundId
  = Some (advancePatch cfg now
            (length (List.filter
                       (λ p, bool_decide (Prompt.roundId p = Round._id round))
                       (Store.prompts s)))
            (Store.nextJobId s) (Round.status round) round).
Proof.
  intros Hget. pose proof (tbl_get_ident _ _ _ _ Hget) as Hid.
  unfold roundOf in *. unfold advance. cbn [Store.rounds Store.set_scheduler
    Store.set_rounds]. rewrite Hid, tbl_get_update, Hget; [done|].
  intros x. apply Round_id_patch.
Qed.

Lemma roundOf_advance_ne cfg now roundId roundId' s round :
  roundOf s roundId = Some round → roundId' ≠ roundId →
  roundOf (advance cfg now round s) roundId' = roundOf s roundId'.
Proof.
  intros Hget Hne. pose proof (tbl_get_ident _ _ _ _ Hget) as Hid.
  unfold roundOf in *. unfold advance. cbn [Store.rounds Store.set_scheduler
    Store.set_rounds]. rewrite Hid, tbl_get_update_ne; [done| |done].
  intros x. apply Round_id_patch.
Qed.

Lemma advance_complete cfg now roundId s round :
  roundOf s roundId = Some round →
  Round.status round = Round.complete →
  Round.scheduledTransitionId round = None →
  advance cfg now round s = s.
Proof.
  intros Hget Hst Hh. pose proof (tbl_get_ident _ _ _ _ Hget) as Hid.
  unfold roundOf in Hget. unfold advance, advanceJobs. rewrite Hst, Hid.
  unfold Store.set_scheduler, Store.set_rounds.
  cbn [Store.rooms Store.players Store.rounds Store.prompts
       Store.generatedImages Store.votes Store.scheduled Store.nextJobId length].
  rewrite app_nil_r, N.add_0_r.
  rewrite (tbl_update_id Round._id _ _ _ round Hget); [by destruct s|].
  unfold advancePatch. by apply set_handle_None_id.
Qed.

Lemma duplicateTransition_fresh cfg now now2 status pc job r :
  status = Round.generating ∨ status = Round.voting →
  now + getPhaseDuration cfg (nextStatus status) ≠ 0 →
  now2 - now < MINIMUM_PHASE_DURATION_MS →
  duplicateTransition cfg now2 (advancePatch cfg now pc job status r) = true.
Proof.
  intros [-> | ->] Hne Hlt; unfold duplicateTransition; simpl in *.
  - rewrite (bool_decide_eq_false_2 _ Hne). simpl.
    apply bool_decide_eq_true_2. lia.
  - rewrite (bool_decide_eq_false_2 _ Hne). simpl.
    apply bool_decide_eq_true_2. lia.
Qed.

(** C2, as the code has it.  When [transitionPhase] is invoked on a round
    that is neither complete nor generating and has its [phaseEndTime] set,
    at a time when the round has been in its phase for less than the
    minimum dwell time, the call changes nothing. *)
Theorem transitionPhase_dwell_guard cfg now roundId s round phaseEndTime :
  roundOf s roundId = Some round →
  Round.status round ≠ Round.complete →
  Round.status round ≠ Round.generating →
  Round.phaseEndTime round = Some phaseEndTime →
  phaseEndTime ≠ 0 →
  now - (phaseEndTime - getPhaseDuration cfg (Round.status round))
    < MINIMUM_PHASE_DURATION_MS →
  transitionPhase cfg now roundId s = Returned () s.
Proof.
  intros Hget Hc Hg Hpe Hnz Hlt. eapply transitionPhase_absorbed; [done|].
  unfold duplicateTransition, truthy. rewrite Hpe.
  rewrite !bool_decide_eq_false_2 by done. simpl.
  by apply bool_decide_eq_true_2.
Qed.

Lemma transitionPhase_dwell_guard_witness :
  let round := sample_round Round.voting (Some 45500) (Some 39%N) in
  transitionPhase sample_config 600 7%N (sample_store round)
  = Returned () (sample_store round).
Proof.
  intros round.
  apply (transitionPhase_dwell_guard sample_config 600 7%N (sample_store round)
           round 45500); done.
Defined.

(** C2 as stated fails for a round in the generating phase: the guard
    does not apply to it, and a transition invoked 50 ms after the phase
    began moves the round to voting. *)
Lemma transitionPhase_generating_not_guarded :
  ¬ (∀ cfg now roundId s round phaseEndTime,
       roundOf s roundId = Some round →
       Round.status round ≠ Round.complete →
       Round.phaseEndTime round = Some phaseEndTime →
       now - (phaseEndTime - getPhaseDuration cfg (Round.status round))
         < MINIMUM_PHASE_DURATION_MS →
       transitionPhase cfg now roundId s = Returned () s).
Proof.
  intros H.
  specialize (H sample_config 100 7%N
                (sample_store (sample_round Round.generating (Some 45050) (Some 39%N)))
                (sample_round Round.generating (Some 45050) (Some 39%N))
                45050 eq_refl).
  assert (match transitionPhase sample_config 100 7%N
                  (sample_store
                     (sample_round Round.generating (Some 45050) (Some 39%N))) with
          | Returned _ s' => Round.status <$> roundOf s' 7%N
          | Thrown _ => None
          end = Some Round.voting) as Hafter by (vm_compute; reflexivity).
  rewrite H in Hafter; [|done..]. vm_compute in Hafter. discriminate.
Qed.

Lemma duplicateTransition_complete cfg now round :
  Round.status round = Round.complete → duplicateTransition cfg now round = false.
Proof.
  intros Hst. unfold duplicateTransition. rewrite Hst. simpl.
  by rewrite andb_false_r.
Qed.

(** A transition invoked on a complete round without a stored handle
    changes nothing. *)
Lemma transitionPhase_complete cfg now roundId s round :
  roundOf s roundId = Some round →
  Round.status round = Round.complete →
  Round.scheduledTransitionId round = None →
  transitionPhase cfg now roundId s = Returned () s.
Proof.
  intros Hget Hst Hh.
  rewrite (transitionPhase_advance cfg now roundId s round Hget)
    by by apply duplicateTransition_complete.
  by rewrite (advance_complete cfg now roundId s round).
Qed.

(** C1, as the code has it.  For a round that is not in the prompt phase,
    once an invocation of [transitionPhase] has taken effect, a second
    invocation less than the minimum dwell time later is absorbed: it
    returns the store the first one left, so status, [phaseEndTime] and
    handle of the round are those after one invocation.  The same holds
    when the first invocation is itself absorbed and the second reads the
    same clock. *)
Theorem transitionPhase_twice cfg now now2 roundId s round :
  roundOf s roundId = Some round →
  Round.status round ≠ Round.prompt →
  0 < now →
  0 ≤ VOTING_PHASE_DURATION cfg →
  0 ≤ RESULTS_PHASE_DURATION cfg →
  now ≤ now2 < now + MINIMUM_PHASE_DURATION_MS →
  duplicateTransition cfg now round = false ∨ now2 = now →
  ∃ s1, transitionPhase cfg now roundId s = Returned () s1
        ∧ transitionPhase cfg now2 roundId s1 = Returned () s1.
Proof.
  intros Hget Hst Hnow HV HR Hnow2 Hcase.
  destruct (duplicateTransition cfg now round) eqn:Hdup.
  { destruct Hcase as [?| ->]; [done|]. exists s.
    split; by eapply transitionPhase_absorbed. }
  exists (advance cfg now round s).
  split; [by apply transitionPhase_advance|].
  pose proof (roundOf_advance cfg now roundId s round Hget) as Hget1.
  set (round1 := advancePatch _ _ _ _ _ _) in Hget1.
  destruct (Round.status round) eqn:Hs; [done|..].
  - eapply transitionPhase_absorbed; [exact Hget1|].
    apply duplicateTransition_fresh; [by left|simpl; lia|lia].
  - eapply transitionPhase_absorbed; [exact Hget1|].
    apply duplicateTransition_fresh; [by right|simpl; lia|lia].
  - by eapply transitionPhase_complete.
  - by eapply transitionPhase_complete.
Qed.

Lemma transitionPhase_twice_witness :
  let s := sample_store (sample_round Round.generating (Some 105000) (Some 39%N)) in
  ∃ s1, transitionPhase sample_config 70000 7%N s = Returned () s1
        ∧ transitionPhase sample_config 70020 7%N s1 = Returned () s1.
Proof.
  intros s.
  apply (transitionPhase_twice sample_config 70000 70020 7%N s
           (sample_round Round.generating (Some 105000) (Some 39%N)));
    try done.
  by left.
Defined.

(** C1 as stated fails for a round in the prompt phase: the timer fires at
    the deadline and moves the round to generating; a second invocation one
    millisecond later is not absorbed, because the guard exempts the
    generating phase, and moves the round on to voting. *)
Lemma transitionPhase_twice_from_prompt :
  ¬ (∀ cfg now now2 roundId s s1 s2,
       now ≤ now2 < now + MINIMUM_PHASE_DURATION_MS →
       transitionPhase cfg now roundId s = Returned () s1 →
       transitionPhase cfg now2 roundId s1 = Returned () s2 →
       Round.status <$> roundOf s2 roundId = Round.status <$> roundOf s1 roundId
       ∧ (roundOf s2 roundId ≫= Round.phaseEndTime)
         = (roundOf s1 roundId ≫= Round.phaseEndTime)
       ∧ (roundOf s2 roundId ≫= Round.scheduledTransitionId)
         = (roundOf s1 roundId ≫= Round.scheduledTransitionId)).
Proof.
  intros H.
  set (s := sample_store (sample_round Round.prompt (Some 60000) (Some 39%N))).
  destruct (transitionPhase_returns sample_config 60000 7%N s) as [s1 Hrun1].
  destruct (transitionPhase_returns sample_config 60001 7%N s1) as [s2 Hrun2].
  destruct (H sample_config 60000 60001 7%N s s1 s2) as (Hstatus & _);
    [done..|].
  vm_compute in Hrun1. injection Hrun1 as <-.
  vm_compute in Hrun2. injection Hrun2 as <-.
  vm_compute in Hstatus. discriminate.
Qed.

(** Why the first invocation must have taken effect: an invocation absorbed
    999 ms into the voting phase is followed, one millisecond later, by one
    that the guard lets through. *)
Lemma transitionPhase_twice_guard_expires :
  let s := sample_store (sample_round Round.voting (Some 45500) (Some 39%N)) in
  transitionPhase sample_config 1499 7%N s = Returned () s
  ∧ ∃ s2, transitionPhase sample_config 1500 7%N s = Returned () s2
          ∧ Round.status <$> roundOf s2 7%N = Some Round.results.
Proof.
  intros s. split; [by vm_compute|]. eexists. split; by vm_compute.
Qed.

(** One invocation: it returns, the round stays in its phase when the
    guard absorbs the call and moves to the successor otherwise, and a
    round that completes has no stored handle. *)
Lemma transitionPhase_step cfg now roundId s round :
  roundOf s roundId = Some round →
  ∃ s' round',
    transitionPhase cfg now roundId s = Returned () s'
    ∧ roundOf s' roundId = Some round'
    ∧ Round.status round'
      = (if duplicateTransition cfg now round then Round.status round
         else nextStatus (Round.status round))
    ∧ (roundOk round → roundOk round').
Proof.
  intros Hget. unfold roundOk.
  destruct (duplicateTransition cfg now round) eqn:Hdup.
  - exists s, round. split_and!; [by eapply transitionPhase_absorbed|done..].
  - eexists _, _. split_and!.
    + by apply transitionPhase_advance.
    + by apply roundOf_advance.
    + destruct (Round.status round) eqn:Hs; simpl; congruence.
    + destruct (Round.status round) eqn:Hs; simpl; done.
Qed.

Lemma statusTrace_cons cfg roundId now rest s round s' :
  roundOf s roundId = Some round →
  transitionPhase cfg now roundId s = Returned () s' →
  statusTrace cfg roundId (now :: rest) s
  = Round.status round :: statusTrace cfg roundId rest s'.
Proof. intros Hget Hrun. cbn [statusTrace]. by rewrite Hget, Hrun. Qed.

Lemma statusTrace_head cfg roundId times s round :
  roundOf s roundId = Some round →
  head (statusTrace cfg roundId times s) = Some (Round.status round).
Proof. intros Hget. destruct times; cbn [statusTrace]; by rewrite Hget. Qed.

Lemma statusTrace_adjacent cfg roundId times : ∀ s round,
  roundOf s roundId = Some round →
  length (statusTrace cfg roundId times s) = S (length times)
  ∧ ∀ i a b,
      statusTrace cfg roundId times s !! i = Some a →
      statusTrace cfg roundId times s !! S i = Some b →
      b = a ∨ (a ≠ Round.complete ∧ b = nextStatus a).
Proof.
  induction times as [|now rest IH]; intros s round Hget.
  { cbn [statusTrace]. rewrite Hget. split; [done|]. by intros [|i] a b. }
  destruct (transitionPhase_step cfg now roundId s round Hget)
    as (s' & round' & Hrun & Hget' & Hst & _).
  rewrite (statusTrace_cons _ _ _ _ _ _ _ Hget Hrun).
  destruct (IH s' round' Hget') as [Hlen Hadj].
  split; [by rewrite length_cons, Hlen|].
  intros [|i] a b; [|by apply Hadj].
  pose proof (statusTrace_head cfg roundId rest s' round' Hget') as Hhd.
  rewrite head_lookup in Hhd. intros Ha Hb. simpl in Ha, Hb.
  injection Ha as <-. rewrite Hhd in Hb. injection Hb as <-.
  rewrite Hst. destruct (duplicateTransition cfg now round); [by left|].
  destruct (Round.status round); (by right) || (by left).
Qed.

Lemma adjacent_phaseIndex_mono (l : list Round.Status) :
  (∀ i a b, l !! i = Some a → l !! S i = Some b →
            b = a ∨ (a ≠ Round.complete ∧ b = nextStatus a)) →
  ∀ i j a b, (i ≤ j)%nat → l !! i = Some a → l !! j = Some b →
             (phaseIndex a ≤ phaseIndex b)%nat.
Proof.
  intros Hadj i j. induction j as [|j IH]; intros a b Hij Ha Hb.
  - assert (i = 0)%nat as -> by lia. assert (a = b) as -> by congruence. done.
  - destruct (decide (i = S j)) as [->|Hne].
    { assert (a = b) as -> by congruence. done. }
    destruct (l !! j) as [c|] eqn:Hc.
    + assert (phaseIndex a ≤ phaseIndex c)%nat by (apply IH; [lia|done..]).
      destruct (Hadj j c b Hc Hb) as [->|[Hnc ->]]; [done|].
      destruct c; simpl in *; lia.
    + apply lookup_ge_None in Hc. apply lookup_lt_Some in Hb. lia.
Qed.

Lemma duplicateTransition_late cfg now round :
  MINIMUM_PHASE_DURATION_MS
    ≤ now - (default 0 (Round.phaseEndTime round)
             - getPhaseDuration cfg (Round.status round)) →
  duplicateTransition cfg now round = false.
Proof.
  intros Hlate. unfold duplicateTransition.
  destruct (_ && _); [|done]. apply bool_decide_eq_false_2. lia.
Qed.

(** A round in the prompt phase goes through all five phases in order when
    [transitionPhase] is invoked four times at moments the guard lets
    through. *)
Lemma statusTrace_full cfg roundId s round :
  roundOf s roundId = Some round →
  Round.status round = Round.prompt →
  let t1 := default 0 (Round.phaseEndTime round) - PROMPT_PHASE_DURATION cfg
            + MINIMUM_PHASE_DURATION_MS in
  statusTrace cfg roundId
    [t1; t1; t1 + MINIMUM_PHASE_DURATION_MS; t1 + 2 * MINIMUM_PHASE_DURATION_MS] s
  = [Round.prompt; Round.generating; Round.voting; Round.results; Round.complete].
Proof.
  intros Hget Hst t1.
  assert (duplicateTransition cfg t1 round = false) as Hdup.
  { apply duplicateTransition_late. rewrite Hst. unfold t1. simpl. lia. }
  pose proof (roundOf_advance cfg t1 roundId s round Hget) as Hget1.
  rewrite Hst in Hget1.
  set (s1 := advance cfg t1 round s) in *.
  set (round1 := advancePatch cfg t1 _ _ Round.prompt round) in *.
  rewrite (statusTrace_cons _ _ _ _ _ _ _ Hget
             (transitionPhase_advance _ _ _ _ _ Hget Hdup)), Hst.
  fold s1. f_equal.
  assert (duplicateTransition cfg t1 round1 = false) as Hdup1.
  { unfold duplicateTransition. simpl. by rewrite andb_false_r. }
  pose proof (roundOf_advance cfg t1 roundId s1 round1 Hget1) as Hget2.
  change (Round.status round1) with Round.generating in Hget2.
  set (s2 := advance cfg t1 round1 s1) in *.
  set (round2 := advancePatch cfg t1 _ _ Round.generating round1) in *.
  rewrite (statusTrace_cons _ _ _ _ _ _ _ Hget1
             (transitionPhase_advance _ _ _ _ _ Hget1 Hdup1)).
  fold s2. f_equal.
  assert (duplicateTransition cfg (t1 + MINIMUM_PHASE_DURATION_MS) round2 = false)
    as Hdup2.
  { apply duplicateTransition_late. simpl. lia. }
  pose proof (roundOf_advance cfg (t1 + MINIMUM_PHASE_DURATION_MS) roundId s2
                round2 Hget2) as Hget3.
  change (Round.status round2) with Round.voting in Hget3.
  set (s3 := advance cfg _ round2 s2) in *.
  set (round3 := advancePatch cfg _ _ _ Round.voting round2) in *.
  rewrite (statusTrace_cons _ _ _ _ _ _ _ Hget2
             (transitionPhase_advance _ _ _ _ _ Hget2 Hdup2)).
  fold s3. f_equal.
  assert (duplicateTransition cfg (t1 + 2 * MINIMUM_PHASE_DURATION_MS) round3 = false)
    as Hdup3.
  { apply duplicateTransition_late. simpl. lia. }
  pose proof (roundOf_advance cfg (t1 + 2 * MINIMUM_PHASE_DURATION_MS) roundId s3
                round3 Hget3) as Hget4.
  change (Round.status round3) with Round.results in Hget4.
  rewrite (statusTrace_cons _ _ _ _ _ _ _ Hget3
             (transitionPhase_advance _ _ _ _ _ Hget3 Hdup3)).
  f_equal. cbn [statusTrace]. by rewrite Hget4.
Qed.

(** ** The early vote check *)

Lemma imagesOfPrompts_run prompts s :
  imagesOfPrompts prompts s
  = Returned
      (map (λ p, (p, List.filter
                       (λ i, bool_decide (GeneratedImage.promptId i = Prompt._id p))
                       (Store.generatedImages s)))
         prompts)
      s.
Proof.
  induction prompts as [|p prompts IH]; [done|].
  cbn [imagesOfPrompts]. unfold generatedImages_by_prompt. munfold.
  by rewrite IH.
Qed.

Lemma totalImages_length {A} (items : list (A * list GeneratedImage.t)) (n : nat) :
  fold_left (λ sum item, (sum + length (snd item))%nat) items n
  = (n + length (flat_map snd items))%nat.
Proof.
  revert n. induction items as [|item items IH]; intros n; simpl; [lia|].
  rewrite IH, length_app. lia.
Qed.

(** In the voting phase, with no generated image for the round,
    [checkAllPlayersVoted] returns and leaves the store and the scheduler
    as they were: the timer is not canceled, the stored handle is not
    cleared and no transition is scheduled, whatever the players, their
    votes and their eligibility. *)
Lemma checkAllPlayersVoted_no_images now roundId s round :
  roundOf s roundId = Some round →
  Round.status round = Round.voting →
  imagesOfRound s roundId = [] →
  checkAllPlayersVoted now roundId s = Returned () s.
Proof.
  unfold roundOf, imagesOfRound. intros Hget Hst Himg.
  unfold checkAllPlayersVoted, connected_players_by_room. munfold.
  rewrite Hget, Hst. rewrite (bool_decide_eq_true_2 _ eq_refl).
  cbn [negb]. cbv beta iota.
  destruct (bool_decide (length _ = 0%nat)); [done|]. cbv beta iota.
  rewrite imagesOfPrompts_run, totalImages_length.
  rewrite flat_map_concat_map, map_map. cbn [snd].
  rewrite <- flat_map_concat_map, Himg. done.
Qed.

(** ** Generation verification *)

(** With no prompt in sight and retries left, the verification schedules
    itself again, [(retryCount + 1)] seconds later, and touches nothing
    else. *)
Lemma verifyAndTriggerGeneration_retry now roundId retryCount s :
  List.filter (λ p, bool_decide (Prompt.roundId p = roundId)) (Store.prompts s) = [] →
  retryCount < maxRetries →
  verifyAndTriggerGeneration now roundId (Some retryCount) s
  = Returned ()
      (withJob (now + (retryCount + 1) * 1000)
         (fn_verifyAndTriggerGeneration roundId (retryCount + 1)) s).
Proof.
  intros Hnone Hlt. unfold verifyAndTriggerGeneration. munfold.
  rewrite Hnone. cbn [length default].
  rewrite (bool_decide_eq_false_2 (0 < 0)%nat) by lia.
  by rewrite (bool_decide_eq_true_2 _ Hlt).
Qed.

(** With no prompt in sight and no retry left, it records the error on
    the round, zeroes the expected count and schedules the transition. *)
Lemma verifyAndTriggerGeneration_give_up now roundId retryCount s round :
  List.filter (λ p, bool_decide (Prompt.roundId p = roundId)) (Store.prompts s) = [] →
  maxRetries ≤ retryCount →
  roundOf s roundId = Some round →
  verifyAndTriggerGeneration now roundId (Some retryCount) s
  = Returned ()
      (withJob (now + 2000) (fn_transitionPhase roundId)
         (Store.set_rounds
            (tbl_update Round._id (Store.rounds s) roundId
               (λ r, Round.set_generationCompletedCount (Some 0)
                       (Round.set_generationExpectedCount (Some 0)
                          (Round.set_generationCompletedAt (Some now)
                             (Round.set_generationError
                                (Some "No prompts found after 3 retry attempts")
                                r)))))
            s)).
Proof.
  intros Hnone Hge Hget. unfold roundOf in Hget.
  unfold verifyAndTriggerGeneration. munfold.
  rewrite Hnone. cbn [length default].
  rewrite (bool_decide_eq_false_2 (0 < 0)%nat) by lia.
  rewrite (bool_decide_eq_false_2 (retryCount < maxRetries)) by lia.
  patch_step Hget. done.
Qed.

(** C9. A round in the generating phase whose prompts never show up: the
    verification started by the transition retries three times, 1, 2 and
    3 seconds after the previous attempt, each attempt leaving the round
    alone; the attempt after the third retry records the generation error
    and an expected count of zero on the round and schedules a
    transition, which moves the round to voting with the error still
    recorded.  Every step returns; none throws. *)
Theorem verifyAndTriggerGeneration_fail_open cfg now roundId s round :
  roundOf s roundId = Some round →
  Round.status round = Round.generating →
  List.filter (λ p, bool_decide (Prompt.roundId p = roundId)) (Store.prompts s) = [] →
  let t1 := now + 1000 in
  let t2 := t1 + 2000 in
  let t3 := t2 + 3000 in
  let t4 := t3 + 2000 in
  let s1 := withJob t1 (fn_verifyAndTriggerGeneration roundId 1) s in
  let s2 := withJob t2 (fn_verifyAndTriggerGeneration roundId 2) s1 in
  let s3 := withJob t3 (fn_verifyAndTriggerGeneration roundId 3) s2 in
  ∃ s4 s5 round4 round5,
    verifyAndTriggerGeneration now roundId (Some 0) s = Returned () s1
    ∧ verifyAndTriggerGeneration t1 roundId (Some 1) s1 = Returned () s2
    ∧ verifyAndTriggerGeneration t2 roundId (Some 2) s2 = Returned () s3
    ∧ roundOf s3 roundId = Some round
    ∧ verifyAndTriggerGeneration t3 roundId (Some 3) s3 = Returned () s4
    ∧ Store.scheduled s4
      = Store.scheduled s3
        ++ [Job.mk (Store.nextJobId s3) t4 (fn_transitionPhase roundId)]
    ∧ roundOf s4 roundId = Some round4
    ∧ Round.status round4 = Round.generating
    ∧ Round.generationError round4
      = Some "No prompts found after 3 retry attempts"
    ∧ Round.generationExpectedCount round4 = Some 0
    ∧ Round.generationCompletedCount round4 = Some 0
    ∧ transitionPhase cfg t4 roundId s4 = Returned () s5
    ∧ roundOf s5 roundId = Some round5
    ∧ Round.status round5 = Round.voting
    ∧ Round.generationError round5
      = Some "No prompts found after 3 retry attempts"
    ∧ Round.generationExpectedCount round5 = Some 0.
Proof.
  intros Hget Hst Hnone t1 t2 t3 t4 s1 s2 s3.
  pose proof (tbl_get_ident _ _ _ _ Hget) as Hid.
  set (patch := λ r, Round.set_generationCompletedCount (Some 0)
                       (Round.set_generationExpectedCount (Some 0)
                          (Round.set_generationCompletedAt (Some t3)
                             (Round.set_generationError
                                (Some "No prompts found after 3 retry attempts")
                                r)))).
  set (s4 := withJob t4 (fn_transitionPhase roundId)
               (Store.set_rounds
                  (tbl_update Round._id (Store.rounds s3) roundId patch) s3)).
  assert (roundOf s4 roundId = Some (patch round)) as Hget4.
  { unfold roundOf in *. unfold s4, s3, s2, s1, withJob.
    cbn [Store.rounds Store.set_scheduler Store.set_rounds].
    rewrite tbl_get_update by done. by rewrite Hget. }
  assert (duplicateTransition cfg t4 (patch round) = false) as Hdup.
  { unfold duplicateTransition. change (Round.status (patch round))
      with (Round.status round). rewrite Hst. simpl. by rewrite andb_false_r. }
  pose proof (roundOf_advance cfg t4 roundId s4 (patch round) Hget4) as Hget5.
  exists s4, (advance cfg t4 (patch round) s4), (patch round).
  eexists. split_and!.
  - by apply verifyAndTriggerGeneration_retry.
  - by apply verifyAndTriggerGeneration_retry.
  - by apply verifyAndTriggerGeneration_retry.
  - done.
  - by apply (verifyAndTriggerGeneration_give_up t3 roundId 3 s3 round).
  - done.
  - done.
  - done.
  - done.
  - done.
  - done.
  - by apply transitionPhase_advance.
  - exact Hget5.
  - change (Round.status (patch round)) with (Round.status round).
    by rewrite Hst.
  - change (Round.status (patch round)) with (Round.status round).
    by rewrite Hst.
  - change (Round.status (patch round)) with (Round.status round).
    by rewrite Hst.
Qed.

Lemma verifyAndTriggerGeneration_fail_open_witness :
  let round := sample_round Round.generating (Some 105000) (Some 39%N) in
  let s := sample_store_no_prompts round in
  ∃ s4 s5,
    verifyAndTriggerGeneration 67000 7%N (Some 3)
      (withJob 67000 (fn_verifyAndTriggerGeneration 7%N 3)
         (withJob 64000 (fn_verifyAndTriggerGeneration 7%N 2)
            (withJob 62000 (fn_verifyAndTriggerGeneration 7%N 1) s)))
    = Returned () s4
    ∧ transitionPhase sample_config 69000 7%N s4 = Returned () s5
    ∧ Round.status <$> roundOf s5 7%N = Some Round.voting
    ∧ (roundOf s5 7%N ≫= Round.generationError)
      = Some "No prompts found after 3 retry attempts".
Proof.
  intros round s.
  destruct (verifyAndTriggerGeneration_fail_open sample_config 61000 7%N s round
              eq_refl eq_refl eq_refl)
    as (s4 & s5 & round4 & round5 & _ & _ & _ & _ & H4 & _ & _ & _ & _ & _ & _
        & H5 & Hget5 & Hst5 & Herr5 & _).
  exists s4, s5. split_and!; [exact H4|exact H5| |].
  - by rewrite Hget5, <- Hst5.
  - by rewrite Hget5, <- Herr5.
Defined.

(** ** The invariant of the rounds table *)

Lemma tbl_patch_Forall {A} (ident : A → N) (P : A → Prop) tbl id f tbl' :
  tbl_patch ident tbl id f = Some tbl' →
  (∀ x, P x → P (f x)) → Forall P tbl → Forall P tbl'.
Proof.
  intros Hp Hf. revert tbl' Hp. induction tbl as [|x tbl IH]; intros tbl'; [done|].
  cbn [tbl_patch]. case_bool_decide.
  - intros [= <-] [Hx Htbl]%Forall_cons. apply Forall_cons. split; [by apply Hf|done].
  - destruct (tbl_patch ident tbl id f) as [t|]; [|done]. simpl.
    intros [= <-] [Hx Htbl]%Forall_cons. apply Forall_cons. split; [done|by apply IH].
Qed.

Lemma tbl_update_Forall {A} (ident : A → N) (P : A → Prop) tbl id f :
  Forall P tbl → (∀ x, P x → P (f x)) → Forall P (tbl_update ident tbl id f).
Proof.
  intros Hall Hf. induction Hall as [|x tbl Hx Hall IH]; [done|].
  cbn [tbl_update]. case_bool_decide; apply Forall_cons; auto.
Qed.

Lemma db_patch_round_roundsOk id f s s' :
  db_patch_round id f s = Returned () s' →
  (∀ x, roundOk x → roundOk (f x)) → roundsOk s → roundsOk s'.
Proof.
  unfold db_patch_round, roundsOk.
  destruct (tbl_patch Round._id (Store.rounds s) id f) as [tbl|] eqn:Hp; [|done].
  intros [= <-] Hf Hok. simpl. by eapply tbl_patch_Forall.
Qed.

Ltac rounds_ok :=
  unfold roundsOk in *;
  cbn [Store.rounds Store.set_rounds Store.set_scheduler Store.set_players] in *;
  repeat first
    [ assumption
    | eapply tbl_patch_Forall;
      [eassumption
      |intros ? ?; unfold roundOk in *; simpl in *; (done || auto)
      |] ].

Lemma checkAllImagesGenerated_roundsOk now roundId s s' :
  checkAllImagesGenerated now roundId s = Returned () s' → roundsOk s → roundsOk s'.
Proof.
  unfold checkAllImagesGenerated. munfold. intros H Hok.
  repeat (case_match; simplify_eq/=); try done; rounds_ok.
Qed.

Lemma incrementGenerationProgress_roundsOk now roundId s s' :
  incrementGenerationProgress now roundId s = Returned () s' →
  roundsOk s → roundsOk s'.
Proof.
  unfold incrementGenerationProgress. munfold. intros H Hok.
  repeat (case_match; simplify_eq/=); try done.
  eapply checkAllImagesGenerated_roundsOk; [exact H|]. rounds_ok.
Qed.

Lemma verifyAndTriggerGeneration_roundsOk now roundId retryCount s s' :
  verifyAndTriggerGeneration now roundId retryCount s = Returned () s' →
  roundsOk s → roundsOk s'.
Proof.
  unfold verifyAndTriggerGeneration. munfold. intros H Hok.
  repeat (case_match; simplify_eq/=); try done; rounds_ok.
Qed.

Lemma checkAllPlayersSubmitted_roundsOk now roundId s s' :
  checkAllPlayersSubmitted now roundId s = Returned () s' →
  roundsOk s → roundsOk s'.
Proof.
  unfold checkAllPlayersSubmitted, connected_players_by_room. munfold.
  intros H Hok.
  repeat (case_match; simplify_eq/=); try done; rounds_ok.
Qed.

Lemma checkAllPlayersVoted_roundsOk now roundId s s' :
  checkAllPlayersVoted now roundId s = Returned () s' →
  roundsOk s → roundsOk s'.
Proof.
  unfold checkAllPlayersVoted, connected_players_by_room. munfold.
  intros H Hok.
  repeat (case_match; simplify_eq/=); try done;
    repeat match goal with
    | Hx : imagesOfPrompts _ _ = _ |- _ =>
        rewrite imagesOfPrompts_run in Hx; simplify_eq/=
    end;
    try done; rounds_ok.
Qed.

Lemma calculateScores_roundsOk cfg roundId s s' :
  calculateScores cfg roundId s = Returned () s' → roundsOk s → roundsOk s'.
Proof.
  unfold calculateScores. munfold. intros H Hok.
  repeat (case_match; simplify_eq/=); try done.
  match goal with
  | Hw : awardWinners ?pts ?ws s = _ |- _ =>
      destruct (awardWinners_spec pts ws s) as (tbl1 & Hrun1 & _);
      rewrite Hrun1 in Hw; simplify_eq/=
  end.
  match goal with
  | Hv : awardVoters cfg ?seen ?vs ?s1 = _ |- _ =>
      destruct (awardVoters_spec cfg vs seen s1) as (tbl2 & Hrun2 & _);
      rewrite Hrun2 in Hv; simplify_eq/=
  end.
  rounds_ok.
Qed.

Lemma transitionPhase_roundsOk cfg now roundId s s' :
  transitionPhase cfg now roundId s = Returned () s' → roundsOk s → roundsOk s'.
Proof.
  intros H Hok. destruct (roundOf s roundId) as [round|] eqn:Hget.
  - destruct (duplicateTransition cfg now round) eqn:Hdup.
    + rewrite (transitionPhase_absorbed _ _ _ _ _ Hget Hdup) in H.
      by injection H as <-.
    + rewrite (transitionPhase_advance _ _ _ _ _ Hget Hdup) in H.
      injection H as <-. unfold roundsOk, advance in *.
      cbn [Store.rounds Store.set_rounds Store.set_scheduler].
      apply tbl_update_Forall; [done|]. intros x Hx. unfold roundOk in *.
      destruct (Round.status round); simpl; auto; done.
  - rewrite (transitionPhase_absent _ _ _ _ Hget) in H. by injection H as <-.
Qed.

Lemma runCall_roundsOk cfg c s s' :
  runCall cfg c s = Returned () s' → roundsOk s → roundsOk s'.
Proof.
  destruct c; simpl.
  - apply transitionPhase_roundsOk.
  - apply verifyAndTriggerGeneration_roundsOk.
  - apply checkAllImagesGenerated_roundsOk.
  - apply incrementGenerationProgress_roundsOk.
  - apply checkAllPlayersSubmitted_roundsOk.
  - apply checkAllPlayersVoted_roundsOk.
  - apply calculateScores_roundsOk.
Qed.

Lemma runCalls_roundsOk cfg cs : ∀ s s',
  runCalls cfg cs s = Returned () s' → roundsOk s → roundsOk s'.
Proof.
  induction cs as [|c cs IH]; intros s s'; cbn [runCalls]; munfold.
  - by intros [= <-].
  - destruct (runCall cfg c s) as [[] s1|] eqn:Hc; [|done].
    intros Hrest Hok. eapply IH; [done|]. by eapply runCall_roundsOk.
Qed.

Lemma roundsOk_roundOf s roundId round :
  roundsOk s → roundOf s roundId = Some round → roundOk round.
Proof.
  unfold roundsOk, roundOf. rewrite Forall_forall.
  intros Hok Hget. by apply Hok, (tbl_get_elem_of Round._id _ roundId).
Qed.

(** ** The status sequence *)

(** C3. Under repeated invocations of [transitionPhase] the status of a
    round follows prompt, generating, voting, results, complete: every
    invocation returns and leaves the status where it was or moves it to
    the immediate successor, so along any run no phase is skipped and the
    position in the sequence never decreases; a round in the prompt phase
    does go through all five phases; and an invocation on a complete round
    changes nothing.  The round is one the engine can hold ([roundOk]: if
    complete, it has no stored handle), which rounds are from their
    creation on and every mutation of the engine preserves. *)
Theorem transitionPhase_linear cfg roundId s round times :
  roundOf s roundId = Some round →
  roundOk round →
  let trace := statusTrace cfg roundId times s in
  length trace = S (length times)
  ∧ head trace = Some (Round.status round)
  ∧ (∀ i a b, trace !! i = Some a → trace !! S i = Some b →
              b = a ∨ (a ≠ Round.complete ∧ b = nextStatus a))
  ∧ (∀ i j a b, (i ≤ j)%nat → trace !! i = Some a → trace !! j = Some b →
                (phaseIndex a ≤ phaseIndex b)%nat)
  ∧ (∀ now, ∃ s' round',
       transitionPhase cfg now roundId s = Returned () s'
       ∧ roundOf s' roundId = Some round'
       ∧ Round.status round'
         = (if duplicateTransition cfg now round then Round.status round
            else nextStatus (Round.status round))
       ∧ roundOk round')
  ∧ (Round.status round = Round.prompt →
     ∃ times', statusTrace cfg roundId times' s
               = [Round.prompt; Round.generating; Round.voting; Round.results;
                  Round.complete])
  ∧ (Round.status round = Round.complete →
     ∀ now, transitionPhase cfg now roundId s = Returned () s).
Proof.
  intros Hget Hinv trace.
  destruct (statusTrace_adjacent cfg roundId times s round Hget) as [Hlen Hadj].
  split_and!.
  - done.
  - by apply statusTrace_head.
  - done.
  - by apply adjacent_phaseIndex_mono.
  - intros now.
    destruct (transitionPhase_step cfg now roundId s round Hget)
      as (s' & round' & Hrun & Hget' & Hst & Hinv').
    exists s', round'. split_and!; [done..|by apply Hinv'].
  - intros Hst. eexists. by apply statusTrace_full.
  - intros Hst now. eapply transitionPhase_complete; [done..|]. by apply Hinv.
Qed.

Lemma transitionPhase_linear_witness :
  let round := sample_round Round.prompt (Some 60000) (Some 39%N) in
  statusTrace sample_config 7%N [500; 60000; 60010; 60500; 105010; 105020; 120010]
    (sample_store round)
  = [Round.prompt; Round.prompt; Round.generating; Round.voting; Round.voting;
     Round.results; Round.results; Round.complete]
  ∧ ∀ i j a b, (i ≤ j)%nat →
      statusTrace sample_config 7%N
        [500; 60000; 60010; 60500; 105010; 105020; 120010]
        (sample_store round) !! i = Some a →
      statusTrace sample_config 7%N
        [500; 60000; 60010; 60500; 105010; 105020; 120010]
        (sample_store round) !! j = Some b →
      (phaseIndex a ≤ phaseIndex b)%nat.
Proof.
  intros round. split; [by vm_compute|].
  destruct (transitionPhase_linear sample_config 7%N (sample_store round) round
              [500; 60000; 60010; 60500; 105010; 105020; 120010] eq_refl)
    as (_ & _ & _ & Hmono & _); [done|]. exact Hmono.
Defined.

(** ** Counting votes, picking winners, validating votes *)

Lemma countVotesPerImage_lookup votes imageId :
  JsMap.get (countVotesPerImage votes) imageId
  = if bool_decide (votesFor imageId votes = 0%nat) then None
    else Some (votesFor imageId votes).
Proof.
  pose proof (countVotesPerImage_get votes imageId) as Hd.
  destruct (JsMap.get (countVotesPerImage votes) imageId) as [c|] eqn:Hget.
  - assert (0 < c)%nat by by eapply (countVotes_fold_pos votes JsMap.empty).
    simpl in Hd. subst c. by rewrite bool_decide_eq_false_2 by lia.
  - simpl in Hd. by rewrite bool_decide_eq_true_2.
Qed.

Lemma sumCounts_cons k c (m : JsMap.t nat) :
  sumCounts ((k, c) :: m) = (c + sumCounts m)%nat.
Proof. done. Qed.

Lemma sumCounts_set_fresh (m : JsMap.t nat) k c :
  JsMap.get m k = None → sumCounts (JsMap.set m k c) = (sumCounts m + c)%nat.
Proof.
  induction m as [|[k' c'] m IH]; cbn [JsMap.get JsMap.set].
  - intros _. rewrite sumCounts_cons. unfold sumCounts. simpl. lia.
  - case_bool_decide; [done|]. intros Hn. rewrite !sumCounts_cons, IH by done. lia.
Qed.

Lemma sumCounts_set_present (m : JsMap.t nat) k c c0 :
  JsMap.get m k = Some c0 → (sumCounts (JsMap.set m k c) + c0 = sumCounts m + c)%nat.
Proof.
  induction m as [|[k' c'] m IH]; cbn [JsMap.get JsMap.set]; [done|].
  case_bool_decide.
  - intros [= ->]. rewrite !sumCounts_cons. lia.
  - intros Hn. rewrite !sumCounts_cons. specialize (IH Hn). lia.
Qed.

Lemma countVotes_fold_sum votes (acc : JsMap.t nat) :
  sumCounts (fold_left (λ voteCounts vote,
      let count := default 0%nat (JsMap.get voteCounts (Vote.imageId vote)) in
      JsMap.set voteCounts (Vote.imageId vote) (count + 1)%nat) votes acc)
  = (sumCounts acc + length votes)%nat.
Proof.
  revert acc. induction votes as [|v votes IH]; intros acc; simpl; [lia|].
  rewrite IH. destruct (JsMap.get acc (Vote.imageId v)) as [c|] eqn:Hget; simpl.
  - pose proof (sumCounts_set_present acc _ (c + 1) c Hget). lia.
  - rewrite sumCounts_set_fresh by done. lia.
Qed.

(** X1. [countVotesPerImage] counts: the map it returns has one entry per
    image that some vote names, and each key once; the count of an image
    is the number of votes naming it, an image nobody voted for has no
    entry (never an entry 0), and the counts add up to the number of
    votes. *)
Theorem countVotesPerImage_counts votes :
  JsMap.wf (countVotesPerImage votes)
  ∧ (∀ imageId,
       JsMap.get (countVotesPerImage votes) imageId
       = if bool_decide (votesFor imageId votes = 0%nat) then None
         else Some (votesFor imageId votes))
  ∧ sumCounts (countVotesPerImage votes) = length votes
  ∧ (∀ imageId, imageId ∈ JsMap.keys (countVotesPerImage votes)
                ↔ ∃ v, v ∈ votes ∧ Vote.imageId v = imageId).
Proof.
  split_and!.
  - apply countVotesPerImage_wf.
  - apply countVotesPerImage_lookup.
  - unfold countVotesPerImage. by rewrite countVotes_fold_sum.
  - intros imageId.
    assert (imageId ∈ JsMap.keys (countVotesPerImage votes)
            ↔ is_Some (JsMap.get (countVotesPerImage votes) imageId)) as ->.
    { generalize (countVotesPerImage votes). intros m. unfold JsMap.keys.
      induction m as [|[k c] m IH]; simpl.
      - split; [by intros ?%elem_of_nil|by intros [? ?]].
      - rewrite elem_of_cons, IH. case_bool_decide; naive_solver. }
    rewrite countVotesPerImage_lookup. unfold votesFor.
    case_bool_decide as Hz.
    + split; [by intros [? ?]|]. intros (v & Hv & Hid). exfalso.
      apply length_zero_iff_nil in Hz.
      assert (In v (List.filter (λ v, bool_decide (Vote.imageId v = imageId)) votes))
        as Hin.
      { apply filter_In.
        split; [by apply list_elem_of_In|by apply bool_decide_eq_true_2]. }
      by rewrite Hz in Hin.
    + split; [|by eauto]. intros _.
      destruct (List.filter _ votes) as [|v l] eqn:Hf; [done|].
      assert (In v (List.filter (λ v, bool_decide (Vote.imageId v = imageId)) votes))
        as Hin by (rewrite Hf; by left).
      apply filter_In in Hin as [Hin Hv]. exists v.
      split; [by apply list_elem_of_In|by apply bool_decide_eq_true_1 in Hv].
Qed.

(** X2. Counting and picking the winners, composed: an image is among the
    winners of a list of votes exactly when it got at least one vote and
    no image got more votes than it. *)
Theorem winners_most_voted votes t :
  t ∈ findWinningImages (countVotesPerImage votes)
  ↔ (0 < votesFor t votes)%nat ∧ ∀ t', (votesFor t' votes ≤ votesFor t votes)%nat.
Proof.
  set (m := countVotesPerImage votes).
  assert (∀ k c, (k, c) ∈ m ↔ ((0 < c)%nat ∧ c = votesFor k votes)) as Hm.
  { intros k c. split.
    - intros Hin. apply JsMap_elem_of_get in Hin; [|apply countVotesPerImage_wf].
      unfold m in Hin. rewrite countVotesPerImage_lookup in Hin.
      case_bool_decide; simplify_eq. split; [lia|done].
    - intros [Hpos ->]. apply JsMap_get_elem_of. unfold m.
      rewrite countVotesPerImage_lookup. by rewrite bool_decide_eq_false_2 by lia. }
  rewrite findWinningImages_elem_of. fold m. split.
  - intros (c & Hin & Hmax & Hpos). apply Hm in Hin as [_ ->].
    split; [done|]. intros t'.
    destruct (decide (votesFor t' votes = 0%nat)) as [->|Hnz]; [lia|].
    rewrite Hmax. apply Math_max_ge. unfold JsMap.values. apply list_elem_of_fmap.
    exists (t', votesFor t' votes). split; [done|]. apply Hm. split; [lia|done].
  - intros [Hpos Hmax]. exists (votesFor t votes). split_and!; [by apply Hm| |done].
    assert ((t, votesFor t votes) ∈ m) as Hin by by apply Hm.
    assert (votesFor t votes ≤ Math_max (JsMap.values m))%nat as Hle.
    { apply Math_max_ge. unfold JsMap.values. apply list_elem_of_fmap.
      by exists (t, votesFor t votes). }
    assert (JsMap.values m ≠ []) as Hne.
    { unfold JsMap.values. destruct m; [by apply elem_of_nil in Hin|done]. }
    apply Math_max_elem_of in Hne. unfold JsMap.values in Hne at 2.
    apply list_elem_of_fmap in Hne as ([k c] & Hc & Hkc). simpl in Hc.
    apply Hm in Hkc as [_ Hkc]. specialize (Hmax k). lia.
Qed.

Lemma votingEligibilityOf_eligible prompts player :
  VotingEligibility.playerId (votingEligibilityOf prompts player) = Player._id player
  ∧ (VotingEligibility.isEligible (votingEligibilityOf prompts player) = true
     ↔ Player.status player = connected
       ∧ ((∃ q, q ∈ prompts ∧ Prompt.playerId q ≠ Player._id player)
          ∨ (∀ q, q ∈ prompts → Prompt.playerId q ≠ Player._id player))).
Proof.
  unfold votingEligibilityOf. cbv zeta.
  destruct (bool_decide_reflect (Player.status player = connected)) as [Hc|Hc];
    cbn [negb]; [|split; [done|]; split; [done|by intros [? _]]].
  destruct (existsb (λ p, negb (bool_decide (Prompt.playerId p = Player._id player)))
              prompts) eqn:Hother.
  - split; [done|]. split; [|done]. intros _. split; [done|]. left.
    apply existsb_elem_of in Hother as (q & Hq & Hne). exists q. split; [done|].
    by apply negb_true_iff, bool_decide_eq_false in Hne.
  - assert (∀ q, q ∈ prompts → Prompt.playerId q = Player._id player) as Hown.
    { intros q Hq. destruct (decide (Prompt.playerId q = Player._id player)) as [|Hne];
        [done|].
      assert (existsb (λ p, negb (bool_decide (Prompt.playerId p = Player._id player)))
                prompts = true) as Ht; [|congruence].
      apply existsb_elem_of. exists q. split; [done|].
      by apply negb_true_iff, bool_decide_eq_false. }
    destruct (existsb (λ p, bool_decide (Prompt.playerId p = Player._id player))
                prompts) eqn:Hsub; cbn [negb].
    + apply existsb_elem_of in Hsub as (q & Hq & Heq).
      apply bool_decide_eq_true in Heq.
      split; [done|]. split; [done|]. intros [_ [(q' & Hq' & Hne)|Hnone]].
      * by specialize (Hown q' Hq').
      * by specialize (Hnone q Hq).
    + split; [done|]. split; [|done]. intros _. split; [done|]. right.
      intros q Hq Heq.
      assert (existsb (λ p, bool_decide (Prompt.playerId p = Player._id player))
                prompts = true) as Ht; [|congruence].
      apply existsb_elem_of. exists q. split; [done|]. by apply bool_decide_eq_true.
Qed.

(** X3. [shouldTriggerEarlyVotingTransition] holds exactly when somebody
    has to vote and everybody who has to vote has cast a vote, where a
    player has to vote when connected and either some prompt is by another
    player or the player submitted none.  With no vote cast it never
    holds. *)
Theorem shouldTriggerEarlyVotingTransition_iff connectedPlayers prompts votes :
  let mustVote p :=
    p ∈ connectedPlayers ∧ Player.status p = connected
    ∧ ((∃ q, q ∈ prompts ∧ Prompt.playerId q ≠ Player._id p)
       ∨ (∀ q, q ∈ prompts → Prompt.playerId q ≠ Player._id p)) in
  (shouldTriggerEarlyVotingTransition connectedPlayers prompts votes = true
   ↔ (∃ p, mustVote p)
     ∧ (∀ p, mustVote p → ∃ v, v ∈ votes ∧ Vote.voterId v = Player._id p))
  ∧ (votes = [] →
     shouldTriggerEarlyVotingTransition connectedPlayers prompts votes = false).
Proof.
  intros mustVote.
  assert (shouldTriggerEarlyVotingTransition connectedPlayers prompts votes = true
   ↔ (∃ p, mustVote p)
     ∧ (∀ p, mustVote p → ∃ v, v ∈ votes ∧ Vote.voterId v = Player._id p)) as Hiff.
  { unfold shouldTriggerEarlyVotingTransition, calculateVotingEligibility. cbv zeta.
    rewrite haveAllEligiblePlayersVoted_true. unfold mustVote. split.
    - intros [(e & He & Hel) Hall]. apply list_elem_of_fmap in He as (p & -> & Hp).
      split.
      + exists p. split; [done|].
        by apply (votingEligibilityOf_eligible prompts p).
      + intros p' (Hp' & Hm). 
        destruct (votingEligibilityOf_eligible prompts p') as [Hid Hel'].
        rewrite <- Hid. apply Hall; [|by apply Hel'].
        apply list_elem_of_fmap. by exists p'.
    - intros [(p & Hp & Hm) Hall]. split.
      + exists (votingEligibilityOf prompts p). split.
        * apply list_elem_of_fmap. by exists p.
        * by apply (votingEligibilityOf_eligible prompts p).
      + intros e (p' & -> & Hp')%list_elem_of_fmap Hel.
        destruct (votingEligibilityOf_eligible prompts p') as [Hid Hel'].
        rewrite Hid. apply Hall. split; [done|]. by apply Hel'. }
  split; [done|]. intros ->. apply not_true_is_false.
  intros [(p & Hp) Hall]%Hiff. destruct (Hall p Hp) as (v & Hv%elem_of_nil & _). done.
Qed.

Lemma find_tbl_get {A} (ident : A → N) (tbl : list A) id :
  List.find (λ d, bool_decide (ident d = id)) tbl = tbl_get ident tbl id.
Proof. done. Qed.

(** X4. [validateVote] accepts a vote exactly when the image is found, its
    prompt is found and the prompt is by another player than the voter; it
    reports an error exactly when it refuses.  A connected player whose
    vote for some image is accepted is one [calculateVotingEligibility]
    marks eligible. *)
Theorem validateVote_valid voterId imageId images prompts :
  (VoteValidation.valid (validateVote voterId imageId images prompts) = true
   ↔ ∃ image prompt,
       tbl_get GeneratedImage._id images imageId = Some image
       ∧ tbl_get Prompt._id prompts (GeneratedImage.promptId image) = Some prompt
       ∧ Prompt.playerId prompt ≠ voterId)
  ∧ (VoteValidation.valid (validateVote voterId imageId images prompts) = true
     ↔ VoteValidation.error (validateVote voterId imageId images prompts) = None)
  ∧ (∀ player,
       Player._id player = voterId → Player.status player = connected →
       VoteValidation.valid (validateVote voterId imageId images prompts) = true →
       VotingEligibility.isEligible (votingEligibilityOf prompts player) = true).
Proof.
  assert (VoteValidation.valid (validateVote voterId imageId images prompts) = true
   ↔ ∃ image prompt,
       tbl_get GeneratedImage._id images imageId = Some image
       ∧ tbl_get Prompt._id prompts (GeneratedImage.promptId image) = Some prompt
       ∧ Prompt.playerId prompt ≠ voterId) as Hiff.
  { unfold validateVote. rewrite find_tbl_get.
    destruct (tbl_get GeneratedImage._id images imageId) as [image|];
      [|split; [done|by intros (? & ? & ? & _)]].
    rewrite find_tbl_get.
    destruct (tbl_get Prompt._id prompts _) as [prompt|] eqn:Hp.
    - case_bool_decide; simpl.
      + split; [done|]. intros (? & ? & [= <-] & ? & ?). congruence.
      + split; [|done]. intros _. by exists image, prompt.
    - split; [done|]. intros (? & ? & [= <-] & ? & _). congruence. }
  split_and!; [done| |].
  - unfold validateVote. repeat case_match; simpl; split; done.
  - intros player Hid Hc (image & prompt & _ & Hprompt & Hne)%Hiff.
    apply votingEligibilityOf_eligible. split; [done|]. left. exists prompt.
    split; [by eapply tbl_get_elem_of|congruence].
Qed.

(** *** The two scoring paths agree *)

Lemma pointsFor_app rs1 rs2 p :
  pointsFor (rs1 ++ rs2) p = pointsFor rs1 p + pointsFor rs2 p.
Proof.
  induction rs1 as [|r rs1 IH]; [done|]. simpl. case_bool_decide; lia.
Qed.

Lemma pointsFor_participationResults config votes : ∀ (seen : gset N) p,
  pointsFor (participationResults config seen votes) p
  = if bool_decide ((p ∉ seen) ∧ p ∈ map Vote.voterId votes)
    then pointsPerVote config else 0.
Proof.
  induction votes as [|v votes IH]; intros seen p.
  { simpl. rewrite bool_decide_eq_false_2; [done|]. by intros [_ ?%elem_of_nil]. }
  cbn [participationResults map]. set (q := Vote.voterId v).
  destruct (bool_decide_reflect (q ∈ seen)) as [Hq|Hq].
  - rewrite IH. apply (f_equal (λ b : bool, if b then _ else _)).
    apply bool_decide_ext. rewrite elem_of_cons. naive_solver.
  - cbn [pointsFor foldr ScoreResult.playerId ScoreResult.pointsAwarded].
    fold (pointsFor (participationResults config ({[q]} ∪ seen) votes) p).
    rewrite IH. destruct (bool_decide_reflect (q = p)) as [<-|Hne].
    + rewrite bool_decide_eq_false_2 by set_solver.
      rewrite bool_decide_eq_true_2; [lia|]. split; [done|left].
    + apply (f_equal (λ b : bool, if b then _ else _)).
      apply bool_decide_ext. rewrite elem_of_cons. set_solver.
Qed.

Lemma pointsFor_winnerResults s config winners p :
  is_Some (tbl_get Player._id (Store.players s) p) →
  pointsFor (winnerResults config winners (Store.generatedImages s) (Store.prompts s)) p
  = pointsPerWin config `div` Z.of_nat (length winners)
    * Z.of_nat (winsOf s winners p).
Proof.
  intros Hp. unfold winnerResults. cbv zeta.
  generalize (pointsPerWin config `div` Z.of_nat (length winners)) as share.
  generalize (if bool_decide (1 < length winners)%nat then winner_tie else winner)
    as reason.
  intros reason share. induction winners as [|w ws IH];
    [unfold winsOf; simpl; lia|].
  rewrite winsOf_cons. csimpl. unfold ownerOf. rewrite !find_tbl_get.
  destruct (tbl_get GeneratedImage._id (Store.generatedImages s) w) as [image|];
    simpl; [|rewrite IH; lia].
  rewrite find_tbl_get.
  destruct (tbl_get Prompt._id (Store.prompts s) (GeneratedImage.promptId image))
    as [prompt|]; simpl; [|rewrite IH; lia].
  rewrite IH. destruct (bool_decide_reflect (Prompt.playerId prompt = p)) as [->|Hne].
  - destruct Hp as [player Hp]. rewrite Hp. simpl.
    rewrite (tbl_get_ident _ _ _ _ Hp). rewrite bool_decide_eq_true_2 by done. lia.
  - destruct (tbl_get Player._id (Store.players s) (Prompt.playerId prompt))
      as [player|] eqn:Hq; simpl; try case_bool_decide; try lia.
    apply tbl_get_ident in Hq. congruence.
Qed.

(** What [calculateScores] does to the score of one player. *)
Lemma calculateScores_scores cfg s roundId round :
  roundOf s roundId = Some round →
  let votes := List.filter (λ v, bool_decide (Vote.roundId v = roundId))
                 (Store.votes s) in
  let winningImageIds := findWinningImages (countVotesPerImage votes) in
  let pointsPerWinner :=
    POINTS_PER_WIN cfg `div` Z.of_nat (length winningImageIds) in
  ∃ tbl,
    calculateScores cfg roundId s = Returned () (Store.set_players tbl s)
    ∧ ∀ p, Player.score <$> tbl_get Player._id tbl p =
           (λ x, x + pointsPerWinner * Z.of_nat (winsOf s winningImageIds p)
                   + (if bool_decide (p ∈ map Vote.voterId votes)
                      then POINTS_PER_VOTE cfg else 0))
             <$> scoreOf s p.
Proof.
  intros Hround votes winningImageIds pointsPerWinner.
  assert (calculateScores cfg roundId s
          = (if bool_decide (length winningImageIds = 0%nat) then Returned () s
             else match awardWinners pointsPerWinner winningImageIds s with
                  | Returned _ s1 => awardVoters cfg ∅ votes s1
                  | Thrown msg => Thrown msg
                  end)) as Hcalc.
  { unfold calculateScores. munfold. unfold roundOf in Hround. rewrite Hround.
    unfold pointsPerWinner, winningImageIds, votes. by case_bool_decide. }
  destruct (decide (votes = [])) as [Hv|Hv].
  - exists (Store.players s).
    assert (winningImageIds = []) as Hw by (unfold winningImageIds; by rewrite Hv).
    rewrite Hcalc, Hw, set_players_id. simpl. split; [done|].
    intros p. unfold scoreOf, winsOf. rewrite Hv. simpl.
    destruct (tbl_get Player._id (Store.players s) p); simpl; [|done].
    f_equal. lia.
  - pose proof (findWinningImages_countVotes_nonempty votes Hv) as Hw.
    fold winningImageIds in Hw.
    destruct (awardWinners_spec pointsPerWinner winningImageIds s)
      as (tbl1 & Hrun1 & Hscore1 & _ & _).
    destruct (awardVoters_spec cfg votes ∅ (Store.set_players tbl1 s))
      as (tbl2 & Hrun2 & Hscore2 & _).
    exists tbl2. split.
    + rewrite Hcalc, Hrun1, Hrun2.
      rewrite bool_decide_eq_false_2; [done|]. by destruct winningImageIds.
    + intros p. rewrite Hscore2. unfold scoreOf at 1.
      cbn [Store.players Store.set_players]. rewrite Hscore1.
      destruct (scoreOf s p) as [x|]; simpl; [|done]. f_equal.
      destruct (decide (p ∈ map Vote.voterId votes)).
      * rewrite !bool_decide_eq_true_2; [done..|]. split; [set_solver|done].
      * rewrite !bool_decide_eq_false_2; [lia|done|]. by intros [_ ?].
Qed.

(** X5. The two scoring paths agree: the mutation [calculateScores] raises
    the score of every player by the points that the pure
    [calculateRoundScores] lists for that player, computed from the votes
    of the round and the images and prompts of the store with the
    configured point amounts. *)
Theorem calculateScores_agrees_with_calculateRoundScores cfg s roundId round p x :
  roundOf s roundId = Some round →
  scoreOf s p = Some x →
  let votes := List.filter (λ v, bool_decide (Vote.roundId v = roundId))
                 (Store.votes s) in
  let results :=
    calculateRoundScores votes (Store.generatedImages s) (Store.prompts s)
      {| pointsPerWin := POINTS_PER_WIN cfg; pointsPerVote := POINTS_PER_VOTE cfg |} in
  ∃ tbl,
    calculateScores cfg roundId s = Returned () (Store.set_players tbl s)
    ∧ Player.score <$> tbl_get Player._id tbl p = Some (x + pointsFor results p).
Proof.
  intros Hround Hp votes results.
  destruct (calculateScores_scores cfg s roundId round Hround)
    as (tbl & Hrun & Hscore).
  exists tbl. split; [done|]. rewrite Hscore, Hp. simpl. f_equal.
  subst results votes. unfold calculateRoundScores. cbv zeta.
  set (votes := List.filter _ (Store.votes s)).
  rewrite pointsFor_app, pointsFor_participationResults.
  assert (is_Some (tbl_get Player._id (Store.players s) p)) as Hsome.
  { unfold scoreOf in Hp. by destruct (tbl_get Player._id (Store.players s) p). }
  cbn [pointsPerWin pointsPerVote].
  destruct (bool_decide_reflect
              (0 < length (findWinningImages (countVotesPerImage votes)))%nat)
    as [Hpos|Hpos].
  - rewrite (pointsFor_winnerResults s) by done. cbn [pointsPerWin pointsPerVote].
    repeat case_bool_decide; try lia; exfalso; set_solver.
  - assert (findWinningImages (countVotesPerImage votes) = []) as ->
      by (destruct (findWinningImages _); [done|simpl in Hpos; lia]).
    unfold winsOf. simpl.
    repeat case_bool_decide; try lia; exfalso; set_solver.
Qed.

Lemma calculateScores_agrees_witness :
  let s := sample_store (sample_round Round.results (Some 15000) (Some 39%N)) in
  pointsFor
    (calculateRoundScores (Store.votes s) (Store.generatedImages s) (Store.prompts s)
       {| pointsPerWin := 100; pointsPerVote := 10 |}) 2%N = 60
  ∧ ∃ tbl,
      calculateScores sample_config 7%N s = Returned () (Store.set_players tbl s)
      ∧ Player.score <$> tbl_get Player._id tbl 2%N = Some 60.
Proof.
  intros s. split; [reflexivity|].
  exact (calculateScores_agrees_with_calculateRoundScores sample_config s 7%N
           (sample_round Round.results (Some 15000) (Some 39%N)) 2%N 0
           eq_refl eq_refl).
Defined.

(** ** The early checks and the generation progress *)

Lemma filter_connected_idemp (players : list Player.t) :
  List.filter (λ p, bool_decide (Player.status p = connected))
    (List.filter (λ p, bool_decide (Player.status p = connected)) players)
  = List.filter (λ p, bool_decide (Player.status p = connected)) players.
Proof.
  induction players as [|p ps IH]; [done|]. simpl.
  destruct (bool_decide (Player.status p = connected)) eqn:Hp; simpl; [|done].
  by rewrite Hp, IH.
Qed.

Lemma forallb_fmap {A B} (f : B → bool) (g : A → B) (l : list A) :
  forallb f (map g l) = forallb (λ x, f (g x)) l.
Proof. induction l as [|x l IH]; [done|]. simpl. by rewrite IH. Qed.

(** The check inlined in [checkAllPlayersSubmitted] is the one of
    [shouldTriggerEarlyPromptTransition]. *)
Lemma inline_prompt_check (players : list Player.t) (prompts : list Prompt.t) :
  let connectedPlayers :=
    List.filter (λ p, bool_decide (Player.status p = connected)) players in
  (if bool_decide (length connectedPlayers = 0%nat) then false
   else forallb (λ player, bool_decide
                   (Player._id player
                    ∈ (list_to_set (map Prompt.playerId prompts) : gset N)))
          connectedPlayers)
  = shouldTriggerEarlyPromptTransition connectedPlayers prompts.
Proof.
  intros connectedPlayers. unfold shouldTriggerEarlyPromptTransition. cbv zeta.
  unfold connectedPlayers. rewrite filter_connected_idemp, length_map.
  case_bool_decide; [done|]. by rewrite forallb_fmap.
Qed.

(** The tail shared by the two early checks. *)
Lemma early_tail now roundId round s :
  roundOf s roundId = Some round →
  (match Round.scheduledTransitionId round with
   | Some id => scheduler_cancel id
   | None => mret ()
   end;;
   db_patch_round roundId (Round.set_scheduledTransitionId None);;
   scheduler_runAfter now 0 (fn_transitionPhase roundId);;
   mret ()) s
  = Returned () (earlyTransition now round s).
Proof.
  intros Hget. pose proof (tbl_get_ident _ _ _ _ Hget) as Hid.
  unfold roundOf in Hget. unfold earlyTransition. rewrite Hid. munfold.
  destruct (Round.scheduledTransitionId round) as [h|];
    cbn [Store.rounds Store.set_scheduler];
    by patch_step Hget.
Qed.

Lemma checkAllPlayersSubmitted_run now roundId s round :
  roundOf s roundId = Some round →
  checkAllPlayersSubmitted now roundId s
  = Returned ()
      (if bool_decide (Round.status round = Round.prompt)
          && shouldTriggerEarlyPromptTransition
               (connectedPlayersOf s (Round.roomId round)) (promptsOf s roundId)
       then earlyTransition now round s else s).
Proof.
  intros Hget. pose proof (early_tail now roundId round s Hget) as Htail.
  unfold roundOf in Hget.
  unfold checkAllPlayersSubmitted, connected_players_by_room. munfold.
  rewrite Hget.
  destruct (bool_decide_reflect (Round.status round = Round.prompt)) as [Hst|Hst];
    cbn [negb andb]; [|done].
  pose proof (inline_prompt_check
                (List.filter (λ p, bool_decide (Player.roomId p = Round.roomId round))
                   (Store.players s))
                (promptsOf s roundId)) as Hcheck.
  cbv zeta in Hcheck. fold (connectedPlayersOf s (Round.roomId round)) in Hcheck.
  fold (connectedPlayersOf s (Round.roomId round)). rewrite <- Hcheck.
  destruct (bool_decide (length (connectedPlayersOf s (Round.roomId round)) = 0%nat));
    [done|].
  fold (promptsOf s roundId).
  destruct (forallb _ (connectedPlayersOf s (Round.roomId round))); [|done].
  apply Htail.
Qed.

Lemma eligibility_nil prompts votes :
  shouldTriggerEarlyVotingTransition [] prompts votes = false.
Proof. done. Qed.

Lemma imagesOfRound_total s roundId :
  fold_left (λ sum item, (sum + length (snd item))%nat)
    (map (λ p, (p, List.filter
                     (λ i, bool_decide (GeneratedImage.promptId i = Prompt._id p))
                     (Store.generatedImages s)))
       (promptsOf s roundId)) 0%nat
  = length (imagesOfRound s roundId).
Proof.
  rewrite totalImages_length. unfold imagesOfRound, promptsOf.
  rewrite flat_map_concat_map, map_map. cbn [snd].
  by rewrite <- flat_map_concat_map.
Qed.

Lemma checkAllPlayersVoted_run now roundId s round :
  roundOf s roundId = Some round →
  checkAllPlayersVoted now roundId s
  = Returned ()
      (if bool_decide (Round.status round = Round.voting)
          && negb (bool_decide (length (imagesOfRound s roundId) = 0%nat))
          && shouldTriggerEarlyVotingTransition
               (connectedPlayersOf s (Round.roomId round)) (promptsOf s roundId)
               (votesOf s roundId)
       then earlyTransition now round s else s).
Proof.
  intros Hget. pose proof (early_tail now roundId round s Hget) as Htail.
  unfold roundOf in Hget.
  unfold checkAllPlayersVoted, connected_players_by_room. munfold.
  rewrite Hget.
  destruct (bool_decide_reflect (Round.status round = Round.voting)) as [Hst|Hst];
    cbn [negb andb]; [|done].
  fold (connectedPlayersOf s (Round.roomId round)).
  destruct (connectedPlayersOf s (Round.roomId round)) as [|p ps] eqn:Hps.
  { cbn [length]. rewrite bool_decide_eq_true_2 by done.
    rewrite eligibility_nil, andb_false_r. done. }
  rewrite bool_decide_eq_false_2 by done.
  fold (promptsOf s roundId).
  rewrite imagesOfPrompts_run.
  rewrite imagesOfRound_total.
  destruct (bool_decide (length (imagesOfRound s roundId) = 0%nat));
    cbn [negb andb]; [done|].
  fold (votesOf s roundId). unfold shouldTriggerEarlyVotingTransition.
  destruct (haveAllEligiblePlayersVoted _ _); [|done].
  apply Htail.
Qed.

Lemma tbl_update_same {A} (ident : A → N) (tbl : list A) id :
  tbl_update ident tbl id (λ r, r) = tbl.
Proof.
  induction tbl as [|x tbl IH]; [done|]. cbn [tbl_update].
  case_bool_decide; [done|]. by rewrite IH.
Qed.

Lemma checkAllImagesGenerated_run now roundId s round :
  roundOf s roundId = Some round →
  checkAllImagesGenerated now roundId s
  = Returned () (if allImagesGenerated round then generationDone now round s else s).
Proof.
  intros Hget. pose proof (tbl_get_ident _ _ _ _ Hget) as Hid.
  unfold roundOf in Hget. unfold checkAllImagesGenerated, allImagesGenerated.
  munfold. rewrite Hget.
  destruct (bool_decide (Round.status round = Round.generating));
    cbn [negb andb]; [|done].
  destruct (bool_decide (0 < _) && bool_decide (_ ≤ _)); [|done].
  unfold generationDone. rewrite Hid.
  destruct (Round.scheduledTransitionId round) as [h|];
    cbn [Store.rounds Store.set_scheduler withoutJob].
  - by patch_step Hget.
  - rewrite tbl_update_same. by destruct s.
Qed.

Lemma checkAllImagesGenerated_absent now roundId s :
  roundOf s roundId = None → checkAllImagesGenerated now roundId s = Returned () s.
Proof.
  unfold roundOf. intros Hget. unfold checkAllImagesGenerated. munfold.
  by rewrite Hget.
Qed.

Lemma incrementGenerationProgress_run now roundId s round :
  roundOf s roundId = Some round →
  let round' :=
    Round.set_generationCompletedCount
      (Some (default 0 (Round.generationCompletedCount round) + 1)) round in
  let s1 :=
    Store.set_rounds
      (tbl_update Round._id (Store.rounds s) roundId
         (Round.set_generationCompletedCount
            (Some (default 0 (Round.generationCompletedCount round) + 1)))) s in
  incrementGenerationProgress now roundId s
  = Returned ()
      (if bool_decide (Round.status round = Round.generating) then
         if allImagesGenerated round' then generationDone now round' s1 else s1
       else s).
Proof.
  intros Hget round' s1. unfold incrementGenerationProgress.
  unfold db_get_round, read at 1. unfold mbind at 1, Mutation_bind at 1.
  cbn beta iota. unfold roundOf in Hget. rewrite Hget.
  destruct (bool_decide (Round.status round = Round.generating));
    cbn [negb]; [|done].
  unfold mbind, Mutation_bind, db_patch_round. patch_step Hget.
  fold s1. apply checkAllImagesGenerated_run.
  unfold roundOf, s1. cbn [Store.rounds Store.set_rounds].
  by rewrite tbl_get_update, Hget.
Qed.

(** X6. [checkAllPlayersSubmitted] on a round that exists always returns.
    It fires exactly when the round is in the prompt phase and
    [shouldTriggerEarlyPromptTransition] holds of the connected players of
    the room and the prompts of the round; it then cancels the timer the
    round stores, clears the stored handle and hands [transitionPhase] to
    the scheduler with delay 0, touching nothing else of the round.
    Otherwise the store is left as it was. *)
Theorem checkAllPlayersSubmitted_effect now roundId s round :
  roundOf s roundId = Some round →
  ∃ s',
    checkAllPlayersSubmitted now roundId s = Returned () s'
    ∧ if bool_decide (Round.status round = Round.prompt)
         && shouldTriggerEarlyPromptTransition
              (connectedPlayersOf s (Round.roomId round)) (promptsOf s roundId)
      then
        roundOf s' roundId = Some (Round.set_scheduledTransitionId None round)
        ∧ Store.scheduled s'
          = withoutJob (Round.scheduledTransitionId round) (Store.scheduled s)
            ++ [Job.mk (Store.nextJobId s) (now + 0) (fn_transitionPhase roundId)]
        ∧ Store.players s' = Store.players s
        ∧ Store.prompts s' = Store.prompts s
      else s' = s.
Proof.
  intros Hget. pose proof (tbl_get_ident _ _ _ _ Hget) as Hid.
  rewrite (checkAllPlayersSubmitted_run now roundId s round Hget).
  eexists. split; [done|]. destruct (_ && _); [|done].
  unfold earlyTransition, roundOf in *. rewrite Hid.
  cbn [Store.rounds Store.scheduled Store.players Store.prompts
       Store.set_rounds Store.set_scheduler].
  by rewrite tbl_get_update, Hget.
Qed.

Lemma checkAllPlayersSubmitted_effect_witness :
  let round := sample_round Round.prompt (Some 60000) (Some 39%N) in
  let s := sample_store_no_prompts round in
  let s2 := sample_store round in
  checkAllPlayersSubmitted 5000 7%N s = Returned () s
  ∧ ∃ s', checkAllPlayersSubmitted 5000 7%N
            (Store.set_players (take 2 (Store.players s2)) s2) = Returned () s'
          ∧ Store.scheduled s' = [Job.mk 40 5000 (fn_transitionPhase 7)].
Proof.
  intros round s s2. split.
  - destruct (checkAllPlayersSubmitted_effect 5000 7%N s round eq_refl)
      as (s' & Hrun & Heff).
    vm_compute in Heff. by rewrite Heff in Hrun.
  - destruct (checkAllPlayersSubmitted_effect 5000 7%N
                (Store.set_players (take 2 (Store.players s2)) s2) round eq_refl)
      as (s' & Hrun & Heff).
    exists s'. split; [exact Hrun|]. vm_compute in Heff.
    destruct Heff as (_ & Hq & _). exact Hq.
Defined.

(** X7. [checkAllPlayersVoted] on a round that exists always returns.  It
    fires exactly when the round is in the voting phase, at least one
    image was generated for the round and
    [shouldTriggerEarlyVotingTransition] holds of the connected players,
    the prompts and the votes; the effect is the one of the prompt check. *)
Theorem checkAllPlayersVoted_effect now roundId s round :
  roundOf s roundId = Some round →
  ∃ s',
    checkAllPlayersVoted now roundId s = Returned () s'
    ∧ if bool_decide (Round.status round = Round.voting)
         && negb (bool_decide (length (imagesOfRound s roundId) = 0%nat))
         && shouldTriggerEarlyVotingTransition
              (connectedPlayersOf s (Round.roomId round)) (promptsOf s roundId)
              (votesOf s roundId)
      then
        roundOf s' roundId = Some (Round.set_scheduledTransitionId None round)
        ∧ Store.scheduled s'
          = withoutJob (Round.scheduledTransitionId round) (Store.scheduled s)
            ++ [Job.mk (Store.nextJobId s) (now + 0) (fn_transitionPhase roundId)]
        ∧ Store.players s' = Store.players s
        ∧ Store.votes s' = Store.votes s
      else s' = s.
Proof.
  intros Hget. pose proof (tbl_get_ident _ _ _ _ Hget) as Hid.
  rewrite (checkAllPlayersVoted_run now roundId s round Hget).
  eexists. split; [done|]. destruct (_ && _); [|done].
  unfold earlyTransition, roundOf in *. rewrite Hid.
  cbn [Store.rounds Store.scheduled Store.players Store.votes
       Store.set_rounds Store.set_scheduler].
  by rewrite tbl_get_update, Hget.
Qed.

Lemma checkAllPlayersVoted_effect_witness :
  let round := sample_round Round.voting (Some 105000) (Some 39%N) in
  let s := sample_store round in
  let s2 := Store.set_players (take 2 (Store.players s)) s in
  checkAllPlayersVoted 70000 7%N s = Returned () s
  ∧ ∃ s', checkAllPlayersVoted 70000 7%N s2 = Returned () s'
          ∧ Store.scheduled s' = [Job.mk 40 70000 (fn_transitionPhase 7)].
Proof.
  intros round s s2. split.
  - destruct (checkAllPlayersVoted_effect 70000 7%N s round eq_refl)
      as (s' & Hrun & Heff).
    vm_compute in Heff. by rewrite Heff in Hrun.
  - destruct (checkAllPlayersVoted_effect 70000 7%N s2 round eq_refl)
      as (s' & Hrun & Heff).
    exists s'. split; [exact Hrun|]. vm_compute in Heff.
    destruct Heff as (_ & Hq & _). exact Hq.
Defined.

Lemma runCalls_app cfg cs1 cs2 s :
  runCalls cfg (cs1 ++ cs2) s
  = match runCalls cfg cs1 s with
    | Returned _ s1 => runCalls cfg cs2 s1
    | Thrown msg => Thrown msg
    end.
Proof.
  revert s. induction cs1 as [|c cs1 IH]; intros s; [done|].
  cbn [app runCalls]. unfold mbind, Mutation_bind.
  destruct (runCall cfg c s) as [[] s1|]; [apply IH|done].
Qed.

(** X8. An early transition requested while the prompt phase is less than
    a second old is lost: the check cancels the timer and clears the
    stored handle, and the [transitionPhase] it schedules, running within
    that first second, is absorbed by the race guard.  The round stays in
    the prompt phase with no timer stored, and the queue holds no job
    besides those that were pending, minus the timer, and the one that
    just ran. *)
Theorem early_transition_absorbed cfg now t roundId s round phaseEndTime :
  roundOf s roundId = Some round →
  Round.status round = Round.prompt →
  shouldTriggerEarlyPromptTransition
    (connectedPlayersOf s (Round.roomId round)) (promptsOf s roundId) = true →
  Round.phaseEndTime round = Some phaseEndTime →
  phaseEndTime ≠ 0 →
  t - (phaseEndTime - PROMPT_PHASE_DURATION cfg) < MINIMUM_PHASE_DURATION_MS →
  ∃ s',
    runCalls cfg [call_checkAllPlayersSubmitted now roundId;
                  call_transitionPhase t roundId] s = Returned () s'
    ∧ roundOf s' roundId = Some (Round.set_scheduledTransitionId None round)
    ∧ Store.scheduled s'
      = withoutJob (Round.scheduledTransitionId round) (Store.scheduled s)
        ++ [Job.mk (Store.nextJobId s) (now + 0) (fn_transitionPhase roundId)].
Proof.
  intros Hget Hst Htrig Hpe Hnz Hlt.
  pose proof (tbl_get_ident _ _ _ _ Hget) as Hid.
  cbn [runCalls runCall]. unfold mbind, Mutation_bind, mret, Mutation_ret.
  rewrite (checkAllPlayersSubmitted_run now roundId s round Hget).
  rewrite Hst, Htrig, bool_decide_eq_true_2 by done. cbn [andb].
  assert (roundOf (earlyTransition now round s) roundId
          = Some (Round.set_scheduledTransitionId None round)) as Hget'.
  { unfold earlyTransition, roundOf in *. rewrite Hid.
    cbn [Store.rounds Store.set_rounds Store.set_scheduler].
    by rewrite tbl_get_update, Hget. }
  rewrite (transitionPhase_absorbed cfg t roundId _ _ Hget').
  - eexists. split; [done|]. split; [done|].
    unfold earlyTransition. by rewrite Hid.
  - unfold duplicateTransition, truthy. destruct round; simpl in *. subst.
    rewrite (bool_decide_eq_false_2 (phaseEndTime = 0)) by done. simpl.
    by apply bool_decide_eq_true_2.
Qed.

Lemma early_transition_absorbed_witness :
  let round := sample_round Round.prompt (Some 60000) (Some 39%N) in
  let s := sample_store round in
  let s2 := Store.set_players (take 2 (Store.players s)) s in
  ∃ s',
    runCalls sample_config [call_checkAllPlayersSubmitted 400 7%N;
                            call_transitionPhase 400 7%N] s2 = Returned () s'
    ∧ roundOf s' 7%N = Some (sample_round Round.prompt (Some 60000) None)
    ∧ Store.scheduled s' = [Job.mk 40 400 (fn_transitionPhase 7)].
Proof.
  intros round s s2.
  exact (early_transition_absorbed sample_config 400 400 7%N s2 round 60000
           eq_refl eq_refl eq_refl eq_refl ltac:(done) ltac:(done)).
Defined.

(** X9. [checkAllImagesGenerated] on a round that exists always returns.
    It fires exactly when the round is generating, something is expected
    and the completed count has reached the expected count: it then hands
    [transitionPhase] to the scheduler 500 ms ahead and, if the round
    stores a timer handle, cancels that timer, clears the handle and
    records the completion time.  With an expected count of zero or
    unset it never fires; otherwise the store is left as it was. *)
Theorem checkAllImagesGenerated_effect now roundId s round :
  roundOf s roundId = Some round →
  ∃ s',
    checkAllImagesGenerated now roundId s = Returned () s'
    ∧ if bool_decide (Round.status round = Round.generating)
         && bool_decide (0 < default 0 (Round.generationExpectedCount round))
         && bool_decide (default 0 (Round.generationExpectedCount round)
                         ≤ default 0 (Round.generationCompletedCount round))
      then
        roundOf s' roundId
        = Some (match Round.scheduledTransitionId round with
                | Some _ =>
                    Round.set_generationCompletedAt (Some now)
                      (Round.set_scheduledTransitionId None round)
                | None => round
                end)
        ∧ Store.scheduled s'
          = withoutJob (Round.scheduledTransitionId round) (Store.scheduled s)
            ++ [Job.mk (Store.nextJobId s) (now + 500) (fn_transitionPhase roundId)]
      else s' = s.
Proof.
  intros Hget. pose proof (tbl_get_ident _ _ _ _ Hget) as Hid.
  rewrite (checkAllImagesGenerated_run now roundId s round Hget).
  eexists. split; [done|]. unfold allImagesGenerated. destruct (_ && _); [|done].
  unfold generationDone, roundOf in *. rewrite Hid.
  cbn [Store.rounds Store.scheduled Store.set_rounds Store.set_scheduler].
  rewrite tbl_get_update, Hget; [done|]. intros x.
  by destruct (Round.scheduledTransitionId round).
Qed.

Lemma checkAllImagesGenerated_effect_witness :
  let round :=
    Round.set_generationCompletedCount (Some 2)
      (Round.set_generationExpectedCount (Some 2)
         (sample_round Round.generating (Some 105000) (Some 39%N))) in
  ∃ s',
    checkAllImagesGenerated 70000 7%N (sample_store round) = Returned () s'
    ∧ Store.scheduled s' = [Job.mk 40 70500 (fn_transitionPhase 7)].
Proof.
  intros round.
  destruct (checkAllImagesGenerated_effect 70000 7%N (sample_store round) round
              eq_refl) as (s' & Hrun & Heff).
  exists s'. split; [exact Hrun|]. vm_compute in Heff.
  destruct Heff as (_ & Hq). exact Hq.
Defined.

(** Images stored while the count stays below the expected one only move
    the counter. *)
Lemma incrementGenerationProgress_below cfg roundId n : ∀ times s round,
  roundOf s roundId = Some round →
  Round.status round = Round.generating →
  default 0 (Round.generationExpectedCount round) = n →
  default 0 (Round.generationCompletedCount round) + Z.of_nat (length times) < n →
  ∃ s' round',
    runCalls cfg (map (λ t, call_incrementGenerationProgress t roundId) times) s
    = Returned () s'
    ∧ roundOf s' roundId = Some round'
    ∧ Round.status round' = Round.generating
    ∧ Round.generationExpectedCount round' = Round.generationExpectedCount round
    ∧ Round.scheduledTransitionId round' = Round.scheduledTransitionId round
    ∧ default 0 (Round.generationCompletedCount round')
      = default 0 (Round.generationCompletedCount round) + Z.of_nat (length times)
    ∧ Store.scheduled s' = Store.scheduled s
    ∧ Store.nextJobId s' = Store.nextJobId s.
Proof.
  induction times as [|t times IH]; intros s round Hget Hst Hexp Hlt.
  { exists s, round. cbn [map runCalls length]. split_and!; try done. simpl. lia. }
  cbn [map runCalls runCall length] in *. unfold mbind, Mutation_bind.
  rewrite (incrementGenerationProgress_run t roundId s round Hget).
  rewrite Hst, bool_decide_eq_true_2 by done.
  set (round1 := Round.set_generationCompletedCount _ round).
  set (s1 := Store.set_rounds _ s).
  assert (allImagesGenerated round1 = false) as ->.
  { unfold allImagesGenerated.
    change (Round.generationExpectedCount round1)
      with (Round.generationExpectedCount round).
    rewrite Hexp. unfold round1. cbn [Round.generationCompletedCount
      Round.set_generationCompletedCount default from_option id].
    rewrite (bool_decide_eq_false_2 (n ≤ _)) by lia. by rewrite andb_false_r. }
  assert (roundOf s1 roundId = Some round1) as Hget1.
  { unfold roundOf, s1 in *. cbn [Store.rounds Store.set_rounds].
    by rewrite tbl_get_update, Hget. }
  destruct (IH s1 round1 Hget1 Hst Hexp) as (s' & round' & Hrun & Hget' & Hst'
    & Hexp' & Hh' & Hc' & Hq' & Hn').
  { unfold round1. cbn [Round.generationCompletedCount Round.set_generationCompletedCount
         default from_option id]. lia. }
  exists s', round'. split_and!; try done.
  rewrite Hc'. unfold round1. cbn [Round.generationCompletedCount
    Round.set_generationCompletedCount default from_option id]. lia.
Qed.

(** X10. Counting the generated images.  On a generating round that
    expects [n] images, the calls of [incrementGenerationProgress] that
    keep the count below [n] leave the scheduler alone; the call that
    brings the count to [n] cancels the timer of the phase and schedules
    the transition 500 ms ahead.  So over the whole run exactly one
    transition is scheduled, by the last image. *)
Theorem incrementGenerationProgress_last_image cfg roundId s round n times now :
  roundOf s roundId = Some round →
  Round.status round = Round.generating →
  Round.generationExpectedCount round = Some n →
  default 0 (Round.generationCompletedCount round) + Z.of_nat (length times) + 1 = n →
  0 < n →
  ∃ s1 s2 round2,
    runCalls cfg (map (λ t, call_incrementGenerationProgress t roundId) times) s
    = Returned () s1
    ∧ Store.scheduled s1 = Store.scheduled s
    ∧ incrementGenerationProgress now roundId s1 = Returned () s2
    ∧ Store.scheduled s2
      = withoutJob (Round.scheduledTransitionId round) (Store.scheduled s)
        ++ [Job.mk (Store.nextJobId s) (now + 500) (fn_transitionPhase roundId)]
    ∧ roundOf s2 roundId = Some round2
    ∧ Round.status round2 = Round.generating
    ∧ Round.generationCompletedCount round2 = Some n.
Proof.
  intros Hget Hst Hexp Hsum Hpos.
  destruct (incrementGenerationProgress_below cfg roundId n times s round Hget Hst)
    as (s1 & round1 & Hrun & Hget1 & Hst1 & Hexp1 & Hh1 & Hc1 & Hq1 & Hn1);
    [by rewrite Hexp|lia|].
  pose proof (tbl_get_ident _ _ _ _ Hget1) as Hid.
  pose proof (incrementGenerationProgress_run now roundId s1 round1 Hget1) as Hlast.
  cbv zeta in Hlast. rewrite Hst1, bool_decide_eq_true_2 in Hlast by done.
  set (round2 := Round.set_generationCompletedCount _ round1) in Hlast.
  assert (allImagesGenerated round2 = true) as Hall.
  { unfold allImagesGenerated.
    change (Round.status round2) with (Round.status round1).
    change (Round.generationExpectedCount round2)
      with (Round.generationExpectedCount round1).
    rewrite Hst1, Hexp1, Hexp. unfold round2. cbn [Round.generationCompletedCount
      Round.set_generationCompletedCount default from_option id].
    rewrite !bool_decide_eq_true_2; [done|lia|lia|done]. }
  rewrite Hall in Hlast.
  eexists s1, _, _. split_and!; [exact Hrun|exact Hq1|exact Hlast| | | |].
  - unfold generationDone. cbn [Store.scheduled Store.nextJobId Store.set_scheduler
      Store.set_rounds]. change (Round.scheduledTransitionId round2)
      with (Round.scheduledTransitionId round1).
    change (Round._id round2) with (Round._id round1).
    by rewrite Hh1, Hq1, Hn1, Hid.
  - unfold generationDone, roundOf in *.
    cbn [Store.rounds Store.set_rounds Store.set_scheduler].
    change (Round._id round2) with (Round._id round1). rewrite Hid.
    rewrite tbl_get_update;
      [|intros x; by destruct (Round.scheduledTransitionId round2)].
    rewrite tbl_get_update by done. by rewrite Hget1.
  - by destruct (Round.scheduledTransitionId round2).
  - destruct (Round.scheduledTransitionId round2);
      unfold round2; cbn [Round.generationCompletedCount Round.set_generationCompletedCount
           Round.set_generationCompletedAt Round.set_scheduledTransitionId];
      f_equal; lia.
Qed.

Lemma incrementGenerationProgress_last_image_witness :
  let round :=
    Round.set_generationCompletedCount (Some 0)
      (Round.set_generationExpectedCount (Some 2)
         (sample_round Round.generating (Some 105000) (Some 39%N))) in
  let s := sample_store round in
  ∃ s1 s2,
    runCalls sample_config [call_incrementGenerationProgress 62000 7%N] s
    = Returned () s1
    ∧ Store.scheduled s1 = Store.scheduled s
    ∧ incrementGenerationProgress 63000 7%N s1 = Returned () s2
    ∧ Store.scheduled s2 = [Job.mk 40 63500 (fn_transitionPhase 7)].
Proof.
  intros round s.
  destruct (incrementGenerationProgress_last_image sample_config 7%N s round 2
              [62000] 63000 eq_refl eq_refl eq_refl eq_refl ltac:(done))
    as (s1 & s2 & round2 & H1 & H2 & H3 & H4 & _).
  exists s1, s2. split_and!; [exact H1|exact H2|exact H3|exact H4].
Defined.

(** ** What the engine calls do to the rounds table *)

Section engine_relation.
Context (R : relation Round.t) `{!PreOrder R}.
Hypothesis R_handle : ∀ x r, R r (Round.set_scheduledTransitionId x r).
Hypothesis R_expected : ∀ x r, R r (Round.set_generationExpectedCount x r).
Hypothesis R_completed : ∀ x r, R r (Round.set_generationCompletedCount x r).
Hypothesis R_completedAt : ∀ x r, R r (Round.set_generationCompletedAt x r).
Hypothesis R_error : ∀ x r, R r (Round.set_generationError x r).

Lemma tbl_patch_rel tbl id f tbl' :
  tbl_patch Round._id tbl id f = Some tbl' →
  (∀ x, R x (f x)) → Forall2 R tbl tbl'.
Proof.
  intros Hp Hf. revert tbl' Hp. induction tbl as [|x tbl IH]; intros tbl'; [done|].
  cbn [tbl_patch]. case_bool_decide.
  - intros [= <-]. constructor; [apply Hf|reflexivity].
  - destruct (tbl_patch Round._id tbl id f) as [t|]; [|done]. simpl.
    intros [= <-]. constructor; [reflexivity|by apply IH].
Qed.

Lemma tbl_update_rel tbl id f :
  (∀ x, R x (f x)) → Forall2 R tbl (tbl_update Round._id tbl id f).
Proof.
  intros Hf. induction tbl as [|x tbl IH]; [done|]. cbn [tbl_update].
  case_bool_decide; constructor; try done; try reflexivity.
Qed.

Ltac rounds_rel :=
  cbn [Store.rounds Store.set_rounds Store.set_scheduler Store.set_players] in *;
  first
    [ reflexivity
    | eapply tbl_patch_rel; [eassumption|];
      intros ?; repeat (etrans; [|first [apply R_handle|apply R_expected
        |apply R_completed|apply R_completedAt|apply R_error]]); reflexivity ].

Lemma checkAllImagesGenerated_rel now roundId s s' :
  checkAllImagesGenerated now roundId s = Returned () s' →
  Forall2 R (Store.rounds s) (Store.rounds s').
Proof.
  unfold checkAllImagesGenerated. munfold. intros H.
  repeat (case_match; simplify_eq/=); rounds_rel.
Qed.

Lemma incrementGenerationProgress_rel now roundId s s' :
  incrementGenerationProgress now roundId s = Returned () s' →
  Forall2 R (Store.rounds s) (Store.rounds s').
Proof.
  unfold incrementGenerationProgress. munfold. intros H.
  repeat (case_match; simplify_eq/=); try rounds_rel.
  etrans; [|eapply checkAllImagesGenerated_rel; exact H]. rounds_rel.
Qed.

Lemma verifyAndTriggerGeneration_rel now roundId retryCount s s' :
  verifyAndTriggerGeneration now roundId retryCount s = Returned () s' →
  Forall2 R (Store.rounds s) (Store.rounds s').
Proof.
  unfold verifyAndTriggerGeneration. munfold. intros H.
  repeat (case_match; simplify_eq/=); rounds_rel.
Qed.

Lemma checkAllPlayersSubmitted_rel now roundId s s' :
  checkAllPlayersSubmitted now roundId s = Returned () s' →
  Forall2 R (Store.rounds s) (Store.rounds s').
Proof.
  unfold checkAllPlayersSubmitted, connected_players_by_room. munfold. intros H.
  repeat (case_match; simplify_eq/=); rounds_rel.
Qed.

Lemma checkAllPlayersVoted_rel now roundId s s' :
  checkAllPlayersVoted now roundId s = Returned () s' →
  Forall2 R (Store.rounds s) (Store.rounds s').
Proof.
  unfold checkAllPlayersVoted, connected_players_by_room. munfold. intros H.
  repeat (case_match; simplify_eq/=);
    repeat match goal with
    | Hx : imagesOfPrompts _ _ = _ |- _ =>
        rewrite imagesOfPrompts_run in Hx; simplify_eq/=
    end;
    rounds_rel.
Qed.

Lemma calculateScores_rel cfg roundId s s' :
  calculateScores cfg roundId s = Returned () s' →
  Forall2 R (Store.rounds s) (Store.rounds s').
Proof.
  unfold calculateScores. munfold. intros H.
  repeat (case_match; simplify_eq/=); try rounds_rel.
  match goal with
  | Hw : awardWinners ?pts ?ws s = _ |- _ =>
      destruct (awardWinners_spec pts ws s) as (tbl1 & Hrun1 & _);
      rewrite Hrun1 in Hw; simplify_eq/=
  end.
  match goal with
  | Hv : awardVoters cfg ?seen ?vs ?s1 = _ |- _ =>
      destruct (awardVoters_spec cfg vs seen s1) as (tbl2 & Hrun2 & _);
      rewrite Hrun2 in Hv; simplify_eq/=
  end.
  rounds_rel.
Qed.

Lemma runCall_rel cfg c s s' :
  isTransitionCall c = false →
  runCall cfg c s = Returned () s' →
  Forall2 R (Store.rounds s) (Store.rounds s').
Proof.
  destruct c; simpl; [done|intros _ ..].
  - apply verifyAndTriggerGeneration_rel.
  - apply checkAllImagesGenerated_rel.
  - apply incrementGenerationProgress_rel.
  - apply checkAllPlayersSubmitted_rel.
  - apply checkAllPlayersVoted_rel.
  - apply calculateScores_rel.
Qed.
End engine_relation.

Global Instance roundEvolves_preorder : PreOrder roundEvolves.
Proof.
  split.
  - intros r. by repeat split.
  - intros r1 r2 r3 (?&?&?&?&?) (?&?&?&?&?). repeat split; try congruence. lia.
Qed.

Global Instance roundKeepsPhase_preorder : PreOrder roundKeepsPhase.
Proof.
  split.
  - intros r. by repeat split.
  - intros r1 r2 r3 (?&?&?) (?&?&?). repeat split; congruence.
Qed.


Lemma roundKeepsPhase_setters :
  (∀ x r, roundKeepsPhase r (Round.set_scheduledTransitionId x r))
  ∧ (∀ x r, roundKeepsPhase r (Round.set_generationExpectedCount x r))
  ∧ (∀ x r, roundKeepsPhase r (Round.set_generationCompletedCount x r))
  ∧ (∀ x r, roundKeepsPhase r (Round.set_generationCompletedAt x r))
  ∧ (∀ x r, roundKeepsPhase r (Round.set_generationError x r)).
Proof. by repeat split. Qed.

Lemma roundKeepsPhase_roundEvolves r r' :
  Round.roundNumber r' = Round.roundNumber r →
  Round.questionCardId r' = Round.questionCardId r →
  roundKeepsPhase r r' → roundEvolves r r'.
Proof. intros ?? (?&?&Hst). repeat split; try done. by rewrite Hst. Qed.

Lemma roundEvolves_setters :
  (∀ x r, roundEvolves r (Round.set_scheduledTransitionId x r))
  ∧ (∀ x r, roundEvolves r (Round.set_generationExpectedCount x r))
  ∧ (∀ x r, roundEvolves r (Round.set_generationCompletedCount x r))
  ∧ (∀ x r, roundEvolves r (Round.set_generationCompletedAt x r))
  ∧ (∀ x r, roundEvolves r (Round.set_generationError x r)).
Proof. by repeat split. Qed.

Lemma tbl_update_rel_found (R : relation Round.t) `{!Reflexive R} tbl id f d :
  tbl_get Round._id tbl id = Some d → R d (f d) →
  Forall2 R tbl (tbl_update Round._id tbl id f).
Proof.
  intros Hget Hf. induction tbl as [|x tbl IH]; [done|].
  rewrite tbl_get_cons in Hget. cbn [tbl_update].
  destruct (bool_decide_reflect (Round._id x = id)) as [Hx|Hx].
  - injection Hget as ->. constructor; [done|reflexivity].
  - constructor; [reflexivity|by apply IH].
Qed.

Lemma transitionPhase_evolves cfg now roundId s s' :
  transitionPhase cfg now roundId s = Returned () s' →
  Forall2 roundEvolves (Store.rounds s) (Store.rounds s').
Proof.
  intros H. destruct (roundOf s roundId) as [round|] eqn:Hget.
  - destruct (duplicateTransition cfg now round) eqn:Hdup.
    + rewrite (transitionPhase_absorbed _ _ _ _ _ Hget Hdup) in H.
      injection H as <-. reflexivity.
    + rewrite (transitionPhase_advance _ _ _ _ _ Hget Hdup) in H.
      injection H as <-. unfold advance.
      cbn [Store.rounds Store.set_rounds Store.set_scheduler].
      pose proof (tbl_get_ident _ _ _ _ Hget) as Hid. rewrite Hid.
      eapply tbl_update_rel_found; [apply _|exact Hget|].
      unfold roundEvolves. destruct (Round.status round) eqn:Hst;
        simpl; rewrite ?Hst; simpl; repeat split; lia.
  - rewrite (transitionPhase_absent _ _ _ _ Hget) in H. injection H as <-.
    reflexivity.
Qed.

Lemma runCall_evolves cfg c s s' :
  runCall cfg c s = Returned () s' →
  Forall2 roundEvolves (Store.rounds s) (Store.rounds s').
Proof.
  destruct (isTransitionCall c) eqn:Hc.
  - destruct c; try done. simpl. apply transitionPhase_evolves.
  - destruct roundEvolves_setters as (?&?&?&?&?).
    by apply (runCall_rel roundEvolves).
Qed.

(** X11. Whatever calls of the engine run on a store, in whatever order,
    as long as they return, the rounds table keeps its documents in place:
    none is created or deleted, each keeps its id, room, number and
    question card, and the phase of each is where it was or further on in
    prompt, generating, voting, results, complete. *)
Theorem runCalls_phases_forward cfg cs : ∀ s s',
  runCalls cfg cs s = Returned () s' →
  Forall2 roundEvolves (Store.rounds s) (Store.rounds s').
Proof.
  induction cs as [|c cs IH]; intros s s'; cbn [runCalls];
    unfold mbind, Mutation_bind, mret, Mutation_ret.
  - intros [= <-]. reflexivity.
  - destruct (runCall cfg c s) as [[] s1|] eqn:Hc; [|done].
    intros Hrest. etrans; [by eapply runCall_evolves|by apply IH].
Qed.

Lemma runCalls_phases_forward_witness :
  let round := sample_round Round.prompt (Some 60000) (Some 39%N) in
  let s := sample_store round in
  let cs :=
    [call_checkAllPlayersSubmitted 30000 7%N; call_transitionPhase 60000 7%N;
     call_incrementGenerationProgress 61000 7%N;
     call_incrementGenerationProgress 62000 7%N;
     call_transitionPhase 62500 7%N; call_checkAllPlayersVoted 70000 7%N;
     call_transitionPhase 107500 7%N; call_calculateScores 7%N] in
  ∃ s',
    runCalls sample_config cs s = Returned () s'
    ∧ Round.status <$> roundOf s' 7%N = Some Round.results
    ∧ Forall2 roundEvolves (Store.rounds s) (Store.rounds s').
Proof.
  intros round s cs.
  assert (∃ s', runCalls sample_config cs s = Returned () s'
                ∧ Round.status <$> roundOf s' 7%N = Some Round.results)
    as (s' & Hrun & Hst) by (eexists; split; vm_compute; reflexivity).
  exists s'. split; [exact Hrun|]. split; [exact Hst|].
  exact (runCalls_phases_forward sample_config cs s s' Hrun).
Defined.

(** X12. Only [transitionPhase] changes the phase of a round: a run of
    the other engine calls (generation verification and progress, the two
    early checks, scoring) leaves every round with the id, room and
    status it had. *)
Theorem only_transitionPhase_changes_status cfg cs : ∀ s s',
  Forall (λ c, isTransitionCall c = false) cs →
  runCalls cfg cs s = Returned () s' →
  Forall2 roundKeepsPhase (Store.rounds s) (Store.rounds s').
Proof.
  destruct roundKeepsPhase_setters as (?&?&?&?&?).
  induction cs as [|c cs IH]; intros s s' Hcs; cbn [runCalls];
    unfold mbind, Mutation_bind, mret, Mutation_ret.
  - intros [= <-]. reflexivity.
  - apply Forall_cons in Hcs as [Hc Hcs].
    destruct (runCall cfg c s) as [[] s1|] eqn:Hrun; [|done].
    intros Hrest. etrans; [by eapply (runCall_rel roundKeepsPhase)|by apply IH].
Qed.

Lemma only_transitionPhase_changes_status_witness :
  let round :=
    Round.set_generationExpectedCount (Some 2)
      (sample_round Round.generating (Some 105000) (Some 39%N)) in
  let s := sample_store round in
  let cs :=
    [call_verifyAndTriggerGeneration 61000 7%N None;
     call_incrementGenerationProgress 62000 7%N;
     call_incrementGenerationProgress 63000 7%N;
     call_checkAllPlayersVoted 64000 7%N; call_calculateScores 7%N] in
  ∃ s',
    runCalls sample_config cs s = Returned () s'
    ∧ Store.scheduled s' ≠ Store.scheduled s
    ∧ Forall2 roundKeepsPhase (Store.rounds s) (Store.rounds s').
Proof.
  intros round s cs.
  assert (∃ s', runCalls sample_config cs s = Returned () s'
                ∧ Store.scheduled s' ≠ Store.scheduled s)
    as (s' & Hrun & Hq) by (eexists; split; [vm_compute; reflexivity|done]).
  exists s'. split; [exact Hrun|]. split; [exact Hq|].
  apply (only_transitionPhase_changes_status sample_config cs s s');
    [by repeat constructor|exact Hrun].
Defined.

(** ** Storing images *)

Lemma incrementGenerationProgress_absent now roundId s :
  roundOf s roundId = None →
  incrementGenerationProgress now roundId s = Returned () s.
Proof.
  unfold roundOf. intros Hget. unfold incrementGenerationProgress. munfold.
  by rewrite Hget.
Qed.

Lemma incrementGenerationProgress_returns now roundId s :
  ∃ s', incrementGenerationProgress now roundId s = Returned () s'.
Proof.
  destruct (roundOf s roundId) as [round|] eqn:Hget.
  - eexists. by apply incrementGenerationProgress_run.
  - exists s. by apply incrementGenerationProgress_absent.
Qed.

(** The progress counter does not look at the images table. *)
Lemma incrementGenerationProgress_images now roundId imgs s s1 :
  incrementGenerationProgress now roundId s = Returned () s1 →
  incrementGenerationProgress now roundId (set_generatedImages imgs s)
  = Returned () (set_generatedImages imgs s1).
Proof.
  destruct (roundOf s roundId) as [round|] eqn:Hget.
  - rewrite (incrementGenerationProgress_run now roundId s round Hget).
    rewrite (incrementGenerationProgress_run now roundId
               (set_generatedImages imgs s) round Hget).
    cbv zeta. intros [= <-]. f_equal.
    destruct (bool_decide (Round.status round = Round.generating)); [|done].
    by destruct (allImagesGenerated _).
  - rewrite (incrementGenerationProgress_absent now roundId s Hget).
    rewrite (incrementGenerationProgress_absent now roundId
               (set_generatedImages imgs s) Hget).
    by intros [= <-].
Qed.


(** X14. [markGenerationComplete] and [markGenerationFailed] patch the round
    without looking it up first: on a round that does not exist both throw
    (every other mutation of the generation module returns instead).  On a
    round that exists, [markGenerationFailed] records the error and the
    time and leaves the phase, the stored timer handle and the scheduler
    alone, so the phase still ends by its timer; [markGenerationComplete]
    records the time and then behaves as [checkAllImagesGenerated]. *)
Theorem markGeneration_effect now roundId error s :
  match roundOf s roundId with
  | None =>
      (∃ msg, markGenerationComplete now roundId s = Thrown msg)
      ∧ (∃ msg, markGenerationFailed now roundId error s = Thrown msg)
      ∧ checkAllImagesGenerated now roundId s = Returned () s
      ∧ incrementGenerationProgress now roundId s = Returned () s
  | Some round =>
      let s1 :=
        Store.set_rounds
          (tbl_update Round._id (Store.rounds s) roundId
             (Round.set_generationCompletedAt (Some now))) s in
      markGenerationFailed now roundId error s
      = Returned ()
          (Store.set_rounds
             (tbl_update Round._id (Store.rounds s) roundId
                (λ r, Round.set_generationCompletedAt (Some now)
                        (Round.set_generationError (Some error) r))) s)
      ∧ markGenerationComplete now roundId s = checkAllImagesGenerated now roundId s1
      ∧ roundOf s1 roundId = Some (Round.set_generationCompletedAt (Some now) round)
  end.
Proof.
  destruct (roundOf s roundId) as [round|] eqn:Hget.
  - cbv zeta. unfold markGenerationFailed, markGenerationComplete, roundOf in *.
    munfold. split_and!.
    + by patch_step Hget.
    + by patch_step Hget.
    + cbn [Store.rounds Store.set_rounds]. by rewrite tbl_get_update, Hget.
  - split_and!.
    + unfold markGenerationComplete, roundOf in *. munfold.
      rewrite tbl_patch_None by done. by eexists.
    + unfold markGenerationFailed, roundOf in *. munfold.
      rewrite tbl_patch_None by done. by eexists.
    + by apply checkAllImagesGenerated_absent.
    + by apply incrementGenerationProgress_absent.
Qed.

(** ** The frame of a transition, the cases of the verification *)

(** X15. [transitionPhase] never throws, missing round included.  It
    changes no table but the rounds table and there no round but its own;
    it never cancels a job: the jobs that were pending stay pending, in
    their order, and at most two jobs are added behind them, with fresh
    consecutive handles. *)
Theorem transitionPhase_frame cfg now roundId s :
  ∃ s' jobs,
    transitionPhase cfg now roundId s = Returned () s'
    ∧ Store.scheduled s' = Store.scheduled s ++ jobs
    ∧ (length jobs ≤ 2)%nat
    ∧ map Job._id jobs
      = map (λ i, (Store.nextJobId s + N.of_nat i)%N) (seq 0 (length jobs))
    ∧ Store.nextJobId s' = (Store.nextJobId s + N.of_nat (length jobs))%N
    ∧ Store.rooms s' = Store.rooms s
    ∧ Store.players s' = Store.players s
    ∧ Store.prompts s' = Store.prompts s
    ∧ Store.generatedImages s' = Store.generatedImages s
    ∧ Store.votes s' = Store.votes s
    ∧ ∀ id, id ≠ roundId → roundOf s' id = roundOf s id.
Proof.
  destruct (roundOf s roundId) as [round|] eqn:Hget.
  - destruct (duplicateTransition cfg now round) eqn:Hdup.
    + exists s, []. rewrite (transitionPhase_absorbed _ _ _ _ _ Hget Hdup).
      simpl. rewrite app_nil_r, N.add_0_r. split_and!; try done; lia.
    + rewrite (transitionPhase_advance _ _ _ _ _ Hget Hdup).
      eexists _, _. split; [done|]. unfold advance.
      cbn [Store.scheduled Store.nextJobId Store.rooms Store.players Store.prompts
           Store.generatedImages Store.votes Store.set_scheduler Store.set_rounds].
      split_and!; try done.
      * unfold advanceJobs. repeat case_match; simpl; lia.
      * unfold advanceJobs. repeat case_match; simpl; rewrite ?N.add_0_r;
          repeat f_equal; lia.
      * intros id Hne. by eapply roundOf_advance_ne.
  - exists s, []. rewrite (transitionPhase_absent _ _ _ _ Hget).
    simpl. rewrite app_nil_r, N.add_0_r. split_and!; try done; lia.
Qed.

(** X16. The cases of [verifyAndTriggerGeneration].  With a prompt in
    sight it hands the image generation to the scheduler and nothing
    else, whatever the retry count and whether or not the round exists.
    An absent retry count counts as 0.  With no prompt and no retry left
    it patches the round without looking it up, so on a missing round it
    throws. *)
Theorem verifyAndTriggerGeneration_cases now roundId retryCount s :
  (promptsOf s roundId ≠ [] →
   verifyAndTriggerGeneration now roundId retryCount s
   = Returned () (withJob (now + 0) (fn_generateAIImages roundId) s))
  ∧ verifyAndTriggerGeneration now roundId None s
    = verifyAndTriggerGeneration now roundId (Some 0) s
  ∧ (promptsOf s roundId = [] → maxRetries ≤ default 0 retryCount →
     roundOf s roundId = None →
     ∃ msg, verifyAndTriggerGeneration now roundId retryCount s = Thrown msg).
Proof.
  split_and!.
  - intros Hne. unfold verifyAndTriggerGeneration. munfold.
    fold (promptsOf s roundId). destruct (promptsOf s roundId); [done|].
    by rewrite bool_decide_eq_true_2 by (simpl; lia).
  - done.
  - intros Hnone Hge Hget. unfold verifyAndTriggerGeneration, roundOf in *.
    munfold. fold (promptsOf s roundId). rewrite Hnone. cbn [length].
    rewrite (bool_decide_eq_false_2 (0 < 0)%nat) by lia.
    rewrite (bool_decide_eq_false_2 (_ < maxRetries)) by lia.
    rewrite tbl_patch_None by done. by eexists.
Qed.

(** ** The images of the game state *)

Lemma Math_max_app_0 xs : Math_max (xs ++ [0%nat]) = Math_max xs.
Proof.
  unfold Math_max. induction xs as [|x xs IH]; [done|]. simpl. by rewrite IH.
Qed.

Lemma getGameState_voteCounts votes :
  fold_left (λ voteCounts vote,
      JsMap.set voteCounts (Vote.imageId vote)
        (default 0%nat (JsMap.get voteCounts (Vote.imageId vote)) + 1)%nat)
    votes JsMap.empty
  = countVotesPerImage votes.
Proof. done. Qed.

(** X17. The images [getGameState] shows agree with the scoring.  Outside
    the voting and results phases no image is shown; in these two phases
    the images of the round are shown in the order of [imagesOfRound].
    The vote count shown for an image is the number of votes of the round
    that name it, and an image is flagged as winner exactly when the round
    is in the results phase and the image is one of the winning images
    [calculateScores] awards, those of [findWinningImages]. *)
Theorem getGameState_images_winners round currentPlayer s :
  let votes := votesOf s (Round._id round) in
  let images := getGameState_images round currentPlayer s in
  map GameImage._id images
  = (if bool_decide (Round.status round = Round.voting)
        || bool_decide (Round.status round = Round.results)
     then map GeneratedImage._id (imagesOfRound s (Round._id round)) else [])
  ∧ ∀ img, img ∈ images →
      GameImage.voteCount img = votesFor (GameImage._id img) votes
      ∧ (GameImage.isWinner img = true
         ↔ Round.status round = Round.results
           ∧ GameImage._id img ∈ findWinningImages (countVotesPerImage votes)).
Proof.
  intros votes images. subst votes images.
  unfold votesOf, getGameState_images.
  set (votes := List.filter _ (Store.votes s)).
  destruct (bool_decide (Round.status round = Round.voting)
            || bool_decide (Round.status round = Round.results));
    [|split; [done|by intros ? ?%elem_of_nil]].
  cbv zeta. rewrite getGameState_voteCounts, Math_max_app_0. split.
  - unfold imagesOfRound.
    induction (List.filter _ (Store.prompts s)) as [|p ps IH]; [done|].
    cbn [flat_map]. rewrite !map_app, IH, map_map. done.
  - intros img Himg. apply list_elem_of_In, in_flat_map in Himg
      as (prompt & _ & Himg).
    apply in_map_iff in Himg as (i & <- & _).
    cbn [GameImage.voteCount GameImage.isWinner GameImage._id].
    pose proof (countVotesPerImage_get votes (GeneratedImage._id i)) as Hcount.
    rewrite Hcount. split; [done|].
    rewrite !andb_true_iff, !bool_decide_eq_true.
    rewrite findWinningImages_elem_of. split.
    + intros [[Hst Hmax] Hpos]. split; [done|].
      exists (votesFor (GeneratedImage._id i) votes). split_and!; [|done|lia].
      apply JsMap_get_elem_of.
      destruct (JsMap.get (countVotesPerImage votes) (GeneratedImage._id i))
        as [c|] eqn:Hget; simpl in Hcount; [by subst|]. lia.
    + intros [Hst (c & Hin & Hmax & Hpos)]. 
      apply JsMap_elem_of_get in Hin; [|apply countVotesPerImage_wf].
      rewrite Hin in Hcount. simpl in Hcount. subst c. split_and!; [done|done|lia].
Qed.

(** ** Starting rounds *)

Lemma pickRandom_in_range {A} (random : Random.t) (l : list A) :
  0 ≤ Random.num random < Random.den random → l ≠ [] →
  ∃ x, pickRandom random l = Some x ∧ x ∈ l.
Proof.
  intros [Hlo Hhi] Hne. unfold pickRandom. cbv zeta.
  set (n := Z.of_nat (length l)).
  assert (0 < n) by (destruct l; [done|unfold n; simpl; lia]).
  assert (0 ≤ (Random.num random * n) `div` Random.den random < n) as [H0 H1].
  { split; [apply Z.div_pos; nia|]. apply Z.div_lt_upper_bound; nia. }
  rewrite bool_decide_eq_true_2 by done.
  destruct (lookup_lt_is_Some_2 l (Z.to_nat ((Random.num random * n)
              `div` Random.den random))) as [x Hx]; [unfold n in *; lia|].
  exists x. split; [done|]. by eapply list_elem_of_lookup_2.
Qed.

Lemma tbl_get_app_fresh {A} (ident : A → N) (tbl : list A) d id :
  tbl_get ident tbl id = None → ident d = id →
  tbl_get ident (tbl ++ [d]) id = Some d.
Proof.
  intros Hn Hd. induction tbl as [|x tbl IH]; cbn [app].
  - rewrite tbl_get_cons. by rewrite bool_decide_eq_true_2.
  - rewrite tbl_get_cons in *. case_bool_decide; [done|by apply IH].
Qed.

Lemma tbl_update_app_fresh {A} (ident : A → N) (tbl : list A) d id f :
  tbl_get ident tbl id = None → ident d = id →
  tbl_update ident (tbl ++ [d]) id f = tbl ++ [f d].
Proof.
  intros Hn Hd. induction tbl as [|x tbl IH]; cbn [app tbl_update].
  - by rewrite bool_decide_eq_true_2.
  - rewrite tbl_get_cons in Hn. case_bool_decide; [done|]. by rewrite IH.
Qed.

(** The tail shared by [initializeGame] and [startNextRound]. *)
Lemma newRound_tail cfg now newRoundId roomId n card f room s :
  roundOf s newRoundId = None →
  tbl_get Room._id (Store.rooms s) roomId = Some room →
  (db_insert_round (newRound cfg now newRoundId roomId n card);;
   db_patch_room roomId f;;
   scheduledJobId ←
     scheduler_runAt (now + PROMPT_PHASE_DURATION cfg)
       (fn_transitionPhase newRoundId);
   db_patch_round newRoundId
     (Round.set_scheduledTransitionId (Some scheduledJobId))) s
  = Returned ()
      (Store.set_rounds
         (Store.rounds s
          ++ [Round.set_scheduledTransitionId (Some (Store.nextJobId s))
                (newRound cfg now newRoundId roomId n card)])
         (Store.set_scheduler
            (Store.scheduled s
             ++ [Job.mk (Store.nextJobId s) (now + PROMPT_PHASE_DURATION cfg)
                   (fn_transitionPhase newRoundId)])
            (N.succ (Store.nextJobId s))
            (set_rooms (tbl_update Room._id (Store.rooms s) roomId f) s))).
Proof.
  intros Hfresh Hroom. unfold roundOf in Hfresh.
  unfold db_insert_round, db_patch_room. munfold.
  cbn [Store.rooms Store.set_rounds].
  rewrite (tbl_patch_update Room._id) by (rewrite Hroom; eauto).
  cbn [Store.rounds Store.set_rounds Store.set_scheduler set_rooms
       Store.scheduled Store.nextJobId].
  rewrite (tbl_patch_update Round._id)
    by (rewrite (tbl_get_app_fresh Round._id _ _ newRoundId) by done; eauto).
  by rewrite (tbl_update_app_fresh Round._id _ _ newRoundId) by done.
Qed.

Lemma startNextRound_run activeCards seededCards cfg now random fallbackRandom
    newRoundId roomId s room k :
  tbl_get Room._id (Store.rooms s) roomId = Some room →
  Room.currentRound room = Some k → k ≠ 0 →
  activeCards ≠ [] →
  0 ≤ Random.num random < Random.den random →
  roundOf s newRoundId = None →
  ∃ card,
    card ∈ activeCards
    ∧ ((∃ c, c ∈ activeCards ∧ c ∉ usedCardsOf s roomId) →
       card ∉ usedCardsOf s roomId)
    ∧ startNextRound activeCards seededCards cfg now random fallbackRandom
        newRoundId roomId s
      = Returned ()
          (Store.set_rounds
             (Store.rounds s
              ++ [Round.set_scheduledTransitionId (Some (Store.nextJobId s))
                    (newRound cfg now newRoundId roomId (k + 1) card)])
             (Store.set_scheduler
                (Store.scheduled s
                 ++ [Job.mk (Store.nextJobId s) (now + PROMPT_PHASE_DURATION cfg)
                       (fn_transitionPhase newRoundId)])
                (N.succ (Store.nextJobId s))
                (set_rooms
                   (tbl_update Room._id (Store.rooms s) roomId
                      (set_currentRound (Some (k + 1)))) s))).
Proof.
  intros Hroom Hk Hnz Hcards Hrand Hfresh.
  pose proof (λ n card f, newRound_tail cfg now newRoundId roomId n card f room s
                Hfresh Hroom) as Htail.
  unfold startNextRound, rounds_by_room, throw. munfold. rewrite Hroom, Hk.
  unfold truthy. rewrite (bool_decide_eq_false_2 (k = 0)) by done.
  cbn [negb default from_option id]. fold (usedCardsOf s roomId).
  set (availableCards :=
         List.filter (λ card, negb (bool_decide (card ∈ usedCardsOf s roomId)))
           activeCards).
  assert (∀ c, c ∈ availableCards ↔ c ∈ activeCards ∧ c ∉ usedCardsOf s roomId)
    as Havail.
  { intros c. unfold availableCards. split.
    - intros Hin%list_elem_of_In. apply filter_In in Hin as [Hin Hc].
      apply negb_true_iff, bool_decide_eq_false in Hc.
      split; [by apply list_elem_of_In|done].
    - intros [Hin Hc]. apply list_elem_of_In, filter_In.
      split; [by apply list_elem_of_In|].
      by apply negb_true_iff, bool_decide_eq_false. }
  destruct (bool_decide_reflect (0 < length availableCards)%nat) as [Hpos|Hpos].
  - destruct (pickRandom_in_range random availableCards Hrand) as (card & -> & Hin).
    { intros Hnil. rewrite Hnil in Hpos. simpl in Hpos. lia. }
    exists card. apply Havail in Hin as [Hin Hunused].
    split; [done|]. split; [done|]. apply Htail.
  - destruct activeCards as [|card rest] eqn:Hac; [done|]. cbn [head].
    exists card. split; [left|]. split.
    + intros (c & Hc & Hunused). exfalso. apply Hpos.
      assert (c ∈ availableCards) as Hin by by apply Havail.
      destruct availableCards; [by apply elem_of_nil in Hin|simpl; lia].
    + apply Htail.
Qed.

(** X18. [startNextRound] on a room whose current round number is set
    (and not 0), with at least one active question card: it returns, and
    appends one round to the rounds table, in the prompt phase, numbered
    one more than the current round, ending [PROMPT_PHASE_DURATION] after
    now; it schedules [transitionPhase] for that time and stores the
    handle of that job in the round; and it advances the current round
    number of the room by one.  The question card is an active one, and
    one that no round of the room has used yet whenever such a card is
    left. *)
Theorem startNextRound_effect activeCards seededCards cfg now random
    fallbackRandom newRoundId roomId s room k :
  tbl_get Room._id (Store.rooms s) roomId = Some room →
  Room.currentRound room = Some k → k ≠ 0 →
  activeCards ≠ [] →
  0 ≤ Random.num random < Random.den random →
  roundOf s newRoundId = None →
  ∃ card s',
    startNextRound activeCards seededCards cfg now random fallbackRandom
        newRoundId roomId s
    = Returned () s'
    ∧ card ∈ activeCards
    ∧ ((∃ c, c ∈ activeCards ∧ c ∉ usedCardsOf s roomId) →
       card ∉ usedCardsOf s roomId)
    ∧ Store.rounds s'
      = Store.rounds s
        ++ [Round.mk newRoundId roomId (k + 1) card Round.prompt now
              (Some (now + PROMPT_PHASE_DURATION cfg)) (Some (Store.nextJobId s))
              None None None None None None]
    ∧ Store.scheduled s'
      = Store.scheduled s
        ++ [Job.mk (Store.nextJobId s) (now + PROMPT_PHASE_DURATION cfg)
              (fn_transitionPhase newRoundId)]
    ∧ tbl_get Room._id (Store.rooms s') roomId
      = Some (Room.mk (Room._id room) (Room.status room) (Room.settings room)
                (Some (k + 1)))
    ∧ Store.players s' = Store.players s
    ∧ Store.prompts s' = Store.prompts s
    ∧ Store.votes s' = Store.votes s.
Proof.
  intros Hroom Hk Hnz Hcards Hrand Hfresh.
  destruct (startNextRound_run activeCards seededCards cfg now random
              fallbackRandom newRoundId roomId s room k Hroom Hk Hnz Hcards
              Hrand Hfresh)
    as (card & Hin & Hunused & Hrun).
  eexists card, _. split; [exact Hrun|]. split_and!; try done.
  cbn [Store.rooms Store.set_rounds Store.set_scheduler set_rooms].
  by rewrite tbl_get_update, Hroom.
Qed.

Lemma startNextRound_effect_witness :
  let round := sample_round Round.complete None None in
  let s := sample_store round in
  ∃ s',
    startNextRound [3%N; 4%N; 5%N] [] sample_config 130000 (Random.mk 1 2)
      (Random.mk 0 1) 8%N 1%N s
    = Returned () s'
    ∧ Store.rounds s'
      = [round;
         Round.mk 8 1 2 5 Round.prompt 130000 (Some 190000) (Some 40%N)
           None None None None None None]
    ∧ Store.scheduled s' = [Job.mk 40 190000 (fn_transitionPhase 8)]
    ∧ Room.currentRound <$> tbl_get Room._id (Store.rooms s') 1%N = Some (Some 2).
Proof.
  intros round s.
  destruct (startNextRound_effect [3%N; 4%N; 5%N] [] sample_config 130000
              (Random.mk 1 2) (Random.mk 0 1) 8%N 1%N s
              (Room.mk 1 playing (Room.mkSettings 8 3) (Some 1)) 1
              eq_refl eq_refl ltac:(done) ltac:(done) ltac:(done) eq_refl)
    as (card & s' & Hrun & Hin & Hunused & Hrounds & Hq & Hroom & _).
  exists s'. split; [exact Hrun|].
  assert (Store.rounds s'
          = [round;
             Round.mk 8 1 2 5 Round.prompt 130000 (Some 190000) (Some 40%N)
               None None None None None None]) as Hr.
  { pose proof Hrun as Hrun'. vm_compute in Hrun'. injection Hrun' as <-.
    reflexivity. }
  split; [exact Hr|]. split; [exact Hq|]. by rewrite Hroom.
Defined.

(** X19. [initializeGame] throws when the room does not exist, and when
    no question card is active even after [ensureQuestionCards].
    Otherwise it returns: it appends round number 1 of the room, in the
    prompt phase, with one of the active cards, ending
    [PROMPT_PHASE_DURATION] after now; schedules [transitionPhase] for
    that time and stores the handle of that job in the round; and sets
    the room to playing, leaving its current round number as it is. *)
Theorem initializeGame_effect activeCards seededCards cfg now random newRoundId
    roomId s :
  match tbl_get Room._id (Store.rooms s) roomId with
  | None =>
      initializeGame activeCards seededCards cfg now random newRoundId roomId s
      = Thrown "Room not found"
  | Some room =>
      (ensuredCards activeCards seededCards = [] →
       initializeGame activeCards seededCards cfg now random newRoundId roomId s
       = Thrown "Failed to seed question cards")
      ∧ (ensuredCards activeCards seededCards ≠ [] →
         0 ≤ Random.num random < Random.den random →
         roundOf s newRoundId = None →
         ∃ card s',
           initializeGame activeCards seededCards cfg now random newRoundId
             roomId s = Returned () s'
           ∧ card ∈ ensuredCards activeCards seededCards
           ∧ Store.rounds s'
             = Store.rounds s
               ++ [Round.mk newRoundId roomId 1 card Round.prompt now
                     (Some (now + PROMPT_PHASE_DURATION cfg))
                     (Some (Store.nextJobId s)) None None None None None None]
           ∧ Store.scheduled s'
             = Store.scheduled s
               ++ [Job.mk (Store.nextJobId s) (now + PROMPT_PHASE_DURATION cfg)
                     (fn_transitionPhase newRoundId)]
           ∧ tbl_get Room._id (Store.rooms s') roomId
             = Some (Room.mk (Room._id room) playing (Room.settings room)
                       (Room.currentRound room)))
  end.
Proof.
  destruct (tbl_get Room._id (Store.rooms s) roomId) as [room|] eqn:Hroom.
  - split.
    + intros Hnone. unfold initializeGame, throw. munfold.
      by rewrite Hroom, Hnone.
    + intros Hcards Hrand Hfresh.
      pose proof (newRound_tail cfg now newRoundId roomId 1) as Htail.
      unfold initializeGame, throw. munfold. rewrite Hroom.
      rewrite bool_decide_eq_false_2
        by (destruct (ensuredCards activeCards seededCards); done).
      destruct (pickRandom_in_range random _ Hrand Hcards) as (card & -> & Hin).
      eexists card, _. split; [exact (Htail card _ room s Hfresh Hroom)|].
      split; [done|].
      cbn [Store.rounds Store.scheduled Store.rooms Store.set_rounds
           Store.set_scheduler set_rooms].
      split_and!; try done. by rewrite tbl_get_update, Hroom.
  - unfold initializeGame, throw. munfold. by rewrite Hroom.
Qed.



(** ** The timer of a phase *)

Lemma find_by_handle (jobs : list Job.t) (job : Job.t) :
  job ∈ jobs →
  (∀ j, j ∈ jobs → Job._id j = Job._id job → j = job) →
  List.find (λ j, bool_decide (Job._id j = Job._id job)) jobs = Some job.
Proof.
  intros Hin Huniq. induction jobs as [|x jobs IH]; [by apply elem_of_nil in Hin|].
  cbn [List.find]. case_bool_decide as Hx.
  - f_equal. apply Huniq; [left|done].
  - apply IH.
    + apply elem_of_cons in Hin as [->|Hin]; [done|done].
    + intros j Hj. apply Huniq. by right.
Qed.

(** A transition into a phase that has a timer, step by step. *)
Lemma transitionPhase_timer_step cfg now roundId s round :
  roundOf s roundId = Some round →
  duplicateTransition cfg now round = false →
  Round.status round ≠ Round.results →
  Round.status round ≠ Round.complete →
  handlesFresh s →
  ∃ s' round' job,
    transitionPhase cfg now roundId s = Returned () s'
    ∧ roundOf s' roundId = Some round'
    ∧ Round.status round' = nextStatus (Round.status round)
    ∧ Round.phaseEndTime round'
      = Some (now + getPhaseDuration cfg (Round.status round'))
    ∧ timerOf s' roundId = Some job
    ∧ Job.fn job = fn_transitionPhase roundId
    ∧ Some (Job.scheduledTime job) = Round.phaseEndTime round'
    ∧ handlesFresh s'.
Proof.
  intros Hget Hdup Hres Hcomp Hfresh.
  pose proof (tbl_get_ident _ _ _ _ Hget) as Hid.
  rewrite (transitionPhase_advance cfg now roundId s round Hget Hdup).
  pose proof (roundOf_advance cfg now roundId s round Hget) as Hget'.
  exists (advance cfg now round s). eexists.
  exists (Job.mk
            (match Round.status round with
             | Round.generating => Store.nextJobId s
             | _ => N.succ (Store.nextJobId s)
             end)
            (now + getPhaseDuration cfg (nextStatus (Round.status round)))
            (fn_transitionPhase roundId)).
  split; [done|]. split; [exact Hget'|].
  unfold timerOf. rewrite Hget'. unfold handlesFresh in *.
  unfold advance, advanceJobs. rewrite Hid.
  cbn [Store.scheduled Store.nextJobId Store.set_scheduler Store.set_rounds
       Job._id Job.fn Job.scheduledTime].
  destruct (Round.status round) eqn:Hst; try done;
    cbn [mbind option_bind advancePatch Round.scheduledTransitionId
         Round.set_scheduledTransitionId nextStatus getPhaseDuration length];
    (split_and!; [done|done| |done|done|]).
  all: try (intros j Hj; apply elem_of_app in Hj as [Hj|Hj];
            [specialize (Hfresh j Hj); lia|];
            repeat (apply elem_of_cons in Hj as [->|Hj]; [cbn; lia|]);
            by apply elem_of_nil in Hj).
  all: match goal with
       | |- List.find _ _ = Some ?job => apply (find_by_handle _ job)
       end;
    [set_solver|];
    intros j Hj Hjid; cbn in Hjid;
    apply elem_of_app in Hj as [Hj|Hj];
    try (specialize (Hfresh j Hj); lia);
    repeat (apply elem_of_cons in Hj as [->|Hj]; [try done; cbn in Hjid; lia|]);
    by apply elem_of_nil in Hj.
Qed.

(** X22. After a transition into the generating, voting or results phase
    the round and its timer agree.  The [phaseEndTime] of the round lies
    one duration of the new phase after the time of the transition, so
    the start of the phase that the race guard reconstructs is the time
    of the transition.  The handle the round stores names a pending job
    that runs [transitionPhase] on this round and is due exactly at
    [phaseEndTime].  Handles stay fresh. *)
Theorem transitionPhase_timer cfg now roundId s round :
  roundOf s roundId = Some round →
  duplicateTransition cfg now round = false →
  Round.status round ≠ Round.results →
  Round.status round ≠ Round.complete →
  handlesFresh s →
  ∃ s' round' job,
    transitionPhase cfg now roundId s = Returned () s'
    ∧ roundOf s' roundId = Some round'
    ∧ Round.status round' = nextStatus (Round.status round)
    ∧ Round.phaseEndTime round'
      = Some (now + getPhaseDuration cfg (Round.status round'))
    ∧ timerOf s' roundId = Some job
    ∧ Job.fn job = fn_transitionPhase roundId
    ∧ Some (Job.scheduledTime job) = Round.phaseEndTime round'
    ∧ handlesFresh s'.
Proof. apply transitionPhase_timer_step. Qed.

Lemma sample_store_fresh round :
  (∀ h, Round.scheduledTransitionId round = Some h → (h < 40)%N) →
  handlesFresh (sample_store round).
Proof.
  intros Hh j. unfold sample_store, sample_timer. cbn [Store.scheduled Store.nextJobId].
  destruct (Round.scheduledTransitionId round) as [h|];
    [|by intros ?%elem_of_nil].
  intros ->%list_elem_of_singleton. cbn. by apply Hh.
Qed.

Lemma transitionPhase_timer_witness :
  let round := sample_round Round.generating (Some 105000) (Some 39%N) in
  let s := sample_store round in
  ∃ s' round',
    transitionPhase sample_config 70000 7%N s = Returned () s'
    ∧ roundOf s' 7%N = Some round'
    ∧ Round.status round' = Round.voting
    ∧ Round.phaseEndTime round' = Some 115000
    ∧ timerOf s' 7%N = Some (Job.mk 40 115000 (fn_transitionPhase 7)).
Proof.
  intros round s.
  assert (handlesFresh s) as Hfresh.
  { apply sample_store_fresh. by intros h [= <-]. }
  destruct (transitionPhase_timer sample_config 70000 7%N s round eq_refl eq_refl
              ltac:(done) ltac:(done) Hfresh)
    as (s' & round' & job & Hrun & Hget & Hst & Hend & Htimer & _).
  exists s', round'. rewrite Hst in Hend.
  split_and!; [exact Hrun|exact Hget|exact Hst|exact Hend|].
  pose proof Hrun as Hrun'. vm_compute in Hrun'. injection Hrun' as <-.
  reflexivity.
Defined.

(** X23. The early end of the voting phase, when it takes effect.  When
    every player who has to vote has voted, and the check and the
    transition it schedules run while the race guard lets the transition
    through (the voting phase is at least a second old), the round moves
    to the results phase at once: the voting timer is canceled, and the
    queue gains, behind the transition that just ran, the scoring of the
    round with delay 0 and the timer of the results phase, whose handle
    the round stores. *)
Theorem early_voting_transition cfg now t roundId s round :
  roundOf s roundId = Some round →
  Round.status round = Round.voting →
  imagesOfRound s roundId ≠ [] →
  shouldTriggerEarlyVotingTransition
    (connectedPlayersOf s (Round.roomId round)) (promptsOf s roundId)
    (votesOf s roundId) = true →
  duplicateTransition cfg t round = false →
  ∃ s' round',
    runCalls cfg [call_checkAllPlayersVoted now roundId;
                  call_transitionPhase t roundId] s = Returned () s'
    ∧ roundOf s' roundId = Some round'
    ∧ Round.status round' = Round.results
    ∧ Round.phaseEndTime round' = Some (t + RESULTS_PHASE_DURATION cfg)
    ∧ Round.scheduledTransitionId round'
      = Some (N.succ (N.succ (Store.nextJobId s)))
    ∧ Store.scheduled s'
      = withoutJob (Round.scheduledTransitionId round) (Store.scheduled s)
        ++ [Job.mk (Store.nextJobId s) (now + 0) (fn_transitionPhase roundId);
            Job.mk (N.succ (Store.nextJobId s)) (t + 0) (fn_calculateScores roundId);
            Job.mk (N.succ (N.succ (Store.nextJobId s)))
              (t + RESULTS_PHASE_DURATION cfg) (fn_transitionPhase roundId)].
Proof.
  intros Hget Hst Himg Htrig Hdup.
  pose proof (tbl_get_ident _ _ _ _ Hget) as Hid.
  cbn [runCalls runCall]. unfold mbind, Mutation_bind, mret, Mutation_ret.
  rewrite (checkAllPlayersVoted_run now roundId s round Hget).
  rewrite Hst, Htrig, bool_decide_eq_true_2 by done.
  rewrite bool_decide_eq_false_2
    by (destruct (imagesOfRound s roundId); [done|simpl; lia]).
  cbn [negb andb].
  set (round1 := Round.set_scheduledTransitionId None round).
  assert (roundOf (earlyTransition now round s) roundId = Some round1) as Hget1.
  { unfold earlyTransition, roundOf in *. rewrite Hid.
    cbn [Store.rounds Store.set_rounds Store.set_scheduler].
    by rewrite tbl_get_update, Hget. }
  assert (duplicateTransition cfg t round1 = false) as Hdup1 by exact Hdup.
  rewrite (transitionPhase_advance cfg t roundId _ round1 Hget1 Hdup1).
  pose proof (roundOf_advance cfg t roundId _ round1 Hget1) as Hget2.
  eexists _, _. split; [done|]. split; [exact Hget2|].
  change (Round.status round1) with (Round.status round). rewrite Hst.
  split; [done|]. split; [done|]. split; [done|].
  unfold advance, advanceJobs, earlyTransition.
  change (Round.status round1) with (Round.status round).
  change (Round._id round1) with (Round._id round). rewrite Hst, Hid.
  cbn [Store.scheduled Store.nextJobId Store.set_scheduler Store.set_rounds].
  by rewrite <- app_assoc.
Qed.

Lemma early_voting_transition_witness :
  let round := sample_round Round.voting (Some 105000) (Some 39%N) in
  let s := sample_store round in
  let s2 := Store.set_players (take 2 (Store.players s)) s in
  ∃ s' round',
    runCalls sample_config [call_checkAllPlayersVoted 70000 7%N;
                            call_transitionPhase 70000 7%N] s2 = Returned () s'
    ∧ roundOf s' 7%N = Some round'
    ∧ Round.status round' = Round.results
    ∧ Store.scheduled s'
      = [Job.mk 40 70000 (fn_transitionPhase 7);
         Job.mk 41 70000 (fn_calculateScores 7);
         Job.mk 42 85000 (fn_transitionPhase 7)].
Proof.
  intros round s s2.
  destruct (early_voting_transition sample_config 70000 70000 7%N s2 round
              eq_refl eq_refl ltac:(done) eq_refl eq_refl)
    as (s' & round' & Hrun & Hget & Hst & _ & _ & Hq).
  exists s', round'. split_and!; [exact Hrun|exact Hget|exact Hst|exact Hq].
Defined.

Lemma fireTimer_run cfg roundId s job :
  timerOf s roundId = Some job →
  Job.fn job = fn_transitionPhase roundId →
  fireTimer cfg roundId s = transitionPhase cfg (Job.scheduledTime job) roundId s.
Proof. intros Htimer Hfn. unfold fireTimer. by rewrite Htimer, Hfn. Qed.

Lemma timerTrace_cons cfg roundId n s round s' :
  roundOf s roundId = Some round →
  fireTimer cfg roundId s = Returned () s' →
  timerTrace cfg roundId (S n) s = Round.status round :: timerTrace cfg roundId n s'.
Proof. intros Hget Hrun. cbn [timerTrace]. by rewrite Hget, Hrun. Qed.

Lemma timerTrace_complete cfg roundId s round : ∀ n,
  roundOf s roundId = Some round →
  Round.status round = Round.complete →
  Round.scheduledTransitionId round = None →
  timerTrace cfg roundId n s = replicate (S n) Round.complete.
Proof.
  intros n Hget Hst Hh. induction n as [|n IH]; cbn [timerTrace replicate].
  - by rewrite Hget, Hst.
  - rewrite Hget, Hst. unfold fireTimer, timerOf. rewrite Hget. cbn.
    rewrite Hh. cbn. by rewrite IH.
Qed.

Lemma duplicateTransition_at_end cfg round e :
  Round.phaseEndTime round = Some e →
  MINIMUM_PHASE_DURATION_MS ≤ getPhaseDuration cfg (Round.status round) →
  duplicateTransition cfg e round = false.
Proof.
  intros He Hmin. apply duplicateTransition_late. rewrite He. simpl. lia.
Qed.

(** The walk of a round through its phases under its timers. *)
Lemma timerTrace_walk cfg roundId s round job n :
  roundOf s roundId = Some round →
  Round.status round = Round.prompt →
  handlesFresh s →
  timerOf s roundId = Some job →
  Job.fn job = fn_transitionPhase roundId →
  Some (Job.scheduledTime job) = Round.phaseEndTime round →
  MINIMUM_PHASE_DURATION_MS ≤ PROMPT_PHASE_DURATION cfg →
  MINIMUM_PHASE_DURATION_MS ≤ VOTING_PHASE_DURATION cfg →
  MINIMUM_PHASE_DURATION_MS ≤ RESULTS_PHASE_DURATION cfg →
  timerTrace cfg roundId (4 + n) s
  = [Round.prompt; Round.generating; Round.voting; Round.results]
    ++ replicate (S n) Round.complete.
Proof.
  intros Hget Hst Hfresh Htimer Hfn Htime Hp Hv Hr.
  (* prompt to generating *)
  assert (duplicateTransition cfg (Job.scheduledTime job) round = false) as Hdup.
  { apply duplicateTransition_at_end; [done|by rewrite Hst]. }
  destruct (transitionPhase_timer_step cfg (Job.scheduledTime job) roundId s round)
    as (s1 & round1 & job1 & Hrun1 & Hget1 & Hst1 & Hend1 & Htimer1 & Hfn1 & Htime1
        & Hfresh1); [done|done|by rewrite Hst|by rewrite Hst|done|].
  rewrite Hst in Hst1. cbn [nextStatus] in Hst1.
  change (4 + n)%nat with (S (S (S (S n)))).
  rewrite (timerTrace_cons cfg roundId _ s round s1 Hget)
    by (by rewrite (fireTimer_run cfg roundId s job)).
  rewrite Hst. cbn [app]. f_equal.
  (* generating to voting *)
  assert (duplicateTransition cfg (Job.scheduledTime job1) round1 = false) as Hdup1.
  { unfold duplicateTransition. rewrite Hst1. simpl. by rewrite andb_false_r. }
  destruct (transitionPhase_timer_step cfg (Job.scheduledTime job1) roundId s1 round1)
    as (s2 & round2 & job2 & Hrun2 & Hget2 & Hst2 & Hend2 & Htimer2 & Hfn2 & Htime2
        & Hfresh2); [done|done|by rewrite Hst1|by rewrite Hst1|done|].
  rewrite Hst1 in Hst2. cbn [nextStatus] in Hst2.
  rewrite (timerTrace_cons cfg roundId _ s1 round1 s2 Hget1)
    by (by rewrite (fireTimer_run cfg roundId s1 job1)).
  rewrite Hst1. f_equal.
  (* voting to results *)
  assert (duplicateTransition cfg (Job.scheduledTime job2) round2 = false) as Hdup2.
  { apply duplicateTransition_at_end; [done|by rewrite Hst2]. }
  destruct (transitionPhase_timer_step cfg (Job.scheduledTime job2) roundId s2 round2)
    as (s3 & round3 & job3 & Hrun3 & Hget3 & Hst3 & Hend3 & Htimer3 & Hfn3 & Htime3
        & Hfresh3); [done|done|by rewrite Hst2|by rewrite Hst2|done|].
  rewrite Hst2 in Hst3. cbn [nextStatus] in Hst3.
  rewrite (timerTrace_cons cfg roundId _ s2 round2 s3 Hget2)
    by (by rewrite (fireTimer_run cfg roundId s2 job2)).
  rewrite Hst2. f_equal.
  (* results to complete *)
  assert (duplicateTransition cfg (Job.scheduledTime job3) round3 = false) as Hdup3.
  { apply duplicateTransition_at_end; [done|by rewrite Hst3]. }
  pose proof (transitionPhase_advance cfg (Job.scheduledTime job3) roundId s3 round3
                Hget3 Hdup3) as Hrun4.
  pose proof (roundOf_advance cfg (Job.scheduledTime job3) roundId s3 round3 Hget3)
    as Hget4.
  rewrite Hst3 in Hget4.
  rewrite (timerTrace_cons cfg roundId _ s3 round3 _ Hget3)
    by (by rewrite (fireTimer_run cfg roundId s3 job3)).
  rewrite Hst3. f_equal.
  by rewrite (timerTrace_complete cfg roundId _ _ n Hget4).
Qed.

(** X24. Timers alone carry a round from prompt to complete.  Take a
    round in the prompt phase whose stored handle names a pending
    [transitionPhase] job for it, due at its [phaseEndTime], as
    [startNextRound] and [initializeGame] leave it; let the prompt, voting
    and results phases last at least the minimum dwell time.  Then each
    firing of the stored timer is let through by the race guard and moves
    the round one phase on, with a new timer for the new phase: four
    firings take the round through generating, voting and results to
    complete, and further firings leave it complete. *)
Theorem timers_complete_round cfg roundId s round job n :
  roundOf s roundId = Some round →
  Round.status round = Round.prompt →
  handlesFresh s →
  timerOf s roundId = Some job →
  Job.fn job = fn_transitionPhase roundId →
  Some (Job.scheduledTime job) = Round.phaseEndTime round →
  MINIMUM_PHASE_DURATION_MS ≤ PROMPT_PHASE_DURATION cfg →
  MINIMUM_PHASE_DURATION_MS ≤ VOTING_PHASE_DURATION cfg →
  MINIMUM_PHASE_DURATION_MS ≤ RESULTS_PHASE_DURATION cfg →
  timerTrace cfg roundId (4 + n) s
  = [Round.prompt; Round.generating; Round.voting; Round.results]
    ++ replicate (S n) Round.complete.
Proof. apply timerTrace_walk. Qed.

Lemma timers_complete_round_witness :
  let round := sample_round Round.prompt (Some 60000) (Some 39%N) in
  let s := sample_store round in
  timerTrace sample_config 7%N 5 s
  = [Round.prompt; Round.generating; Round.voting; Round.results; Round.complete;
     Round.complete].
Proof.
  intros round s.
  assert (handlesFresh s) as Hfresh.
  { apply sample_store_fresh. by intros h [= <-]. }
  exact (timers_complete_round sample_config 7%N s round
           (Job.mk 39 60000 (fn_transitionPhase 7)) 1
           eq_refl eq_refl Hfresh eq_refl eq_refl eq_refl
           ltac:(done) ltac:(done) ltac:(done)).
Defined.

(** X20. A round started by [startNextRound] is carried to complete by its
    timers.  After [startNextRound] (handles fresh before, the new round id
    unused) the handle stored in the new round names the last job of the
    queue, a [transitionPhase] for the new round due at the end of the
    prompt phase, and handles are still fresh; with the prompt, voting and
    results phases at least as long as the minimum dwell time, four
    firings of the round's timer take it from prompt through generating,
    voting and results to complete, where it stays. *)
Theorem startNextRound_round_completes activeCards seededCards cfg now random
    fallbackRandom newRoundId roomId s room k n :
  tbl_get Room._id (Store.rooms s) roomId = Some room →
  Room.currentRound room = Some k → k ≠ 0 →
  activeCards ≠ [] →
  0 ≤ Random.num random < Random.den random →
  roundOf s newRoundId = None →
  handlesFresh s →
  MINIMUM_PHASE_DURATION_MS ≤ PROMPT_PHASE_DURATION cfg →
  MINIMUM_PHASE_DURATION_MS ≤ VOTING_PHASE_DURATION cfg →
  MINIMUM_PHASE_DURATION_MS ≤ RESULTS_PHASE_DURATION cfg →
  ∃ s1 job,
    startNextRound activeCards seededCards cfg now random fallbackRandom
      newRoundId roomId s = Returned () s1
    ∧ last (Store.scheduled s1) = Some job
    ∧ timerOf s1 newRoundId = Some job
    ∧ Job.fn job = fn_transitionPhase newRoundId
    ∧ Job.scheduledTime job = now + PROMPT_PHASE_DURATION cfg
    ∧ handlesFresh s1
    ∧ timerTrace cfg newRoundId (4 + n) s1
      = [Round.prompt; Round.generating; Round.voting; Round.results]
        ++ replicate (S n) Round.complete.
Proof.
  intros Hroom Hk Hnz Hcards Hrand Hnew Hfresh Hp Hv Hr.
  destruct (startNextRound_run activeCards seededCards cfg now random
              fallbackRandom newRoundId roomId s room k Hroom Hk Hnz Hcards
              Hrand Hnew) as (card & _ & _ & Hrun).
  set (round1 := Round.set_scheduledTransitionId (Some (Store.nextJobId s))
                   (newRound cfg now newRoundId roomId (k + 1) card)) in *.
  set (job := Job.mk (Store.nextJobId s) (now + PROMPT_PHASE_DURATION cfg)
                (fn_transitionPhase newRoundId)) in *.
  set (s1 := Store.set_rounds _ _) in Hrun.
  assert (roundOf s1 newRoundId = Some round1) as Hget1.
  { unfold roundOf, s1. cbn [Store.rounds Store.set_rounds].
    by apply tbl_get_app_fresh. }
  assert (handlesFresh s1) as Hfresh1.
  { intros j Hj. unfold s1 in *.
    cbn [Store.scheduled Store.nextJobId Store.set_rounds Store.set_scheduler] in *.
    apply elem_of_app in Hj as [Hj|Hj]; [specialize (Hfresh j Hj); lia|].
    apply list_elem_of_singleton in Hj as ->. cbn. lia. }
  assert (timerOf s1 newRoundId = Some job) as Htimer.
  { unfold timerOf. rewrite Hget1. cbn [mbind option_bind round1
      Round.scheduledTransitionId Round.set_scheduledTransitionId].
    unfold s1. cbn [Store.scheduled Store.set_rounds Store.set_scheduler].
    apply (find_by_handle _ job); [set_solver|].
    intros j Hj Hjid. apply elem_of_app in Hj as [Hj|Hj].
    - specialize (Hfresh j Hj). cbn in Hjid. lia.
    - by apply list_elem_of_singleton in Hj. }
  exists s1, job. split; [exact Hrun|].
  split; [unfold s1; cbn [Store.scheduled Store.set_rounds Store.set_scheduler];
          by rewrite last_snoc|].
  split; [exact Htimer|]. split; [done|]. split; [done|]. split; [exact Hfresh1|].
  by apply (timerTrace_walk cfg newRoundId s1 round1 job n).
Qed.

Lemma startNextRound_round_completes_witness :
  let round := sample_round Round.complete None None in
  let s := sample_store round in
  ∃ s1,
    startNextRound [3%N; 4%N; 5%N] [] sample_config 130000 (Random.mk 1 2)
      (Random.mk 0 1) 8%N 1%N s = Returned () s1
    ∧ timerOf s1 8%N = Some (Job.mk 40 190000 (fn_transitionPhase 8))
    ∧ timerTrace sample_config 8%N 4 s1
      = [Round.prompt; Round.generating; Round.voting; Round.results;
         Round.complete].
Proof.
  intros round s.
  assert (handlesFresh s) as Hfresh.
  { apply sample_store_fresh. by intros h [=]. }
  destruct (startNextRound_round_completes [3%N; 4%N; 5%N] [] sample_config
              130000 (Random.mk 1 2) (Random.mk 0 1) 8%N 1%N s
              (Room.mk 1 playing (Room.mkSettings 8 3) (Some 1)) 1 0
              eq_refl eq_refl ltac:(done) ltac:(done) ltac:(done) eq_refl Hfresh
              ltac:(done) ltac:(done) ltac:(done))
    as (s1 & job & Hrun & Hlast & Htimer & Hfn & Htime & _ & Htrace).
  exists s1. split; [exact Hrun|]. split; [|exact Htrace].
  rewrite Htimer. f_equal.
  pose proof Hrun as Hrun'. vm_compute in Hrun'. injection Hrun' as <-.
  vm_compute in Hlast. by injection Hlast as <-.
Defined.

(** ** The early vote check on a round without images *)

Lemma roundKeepsPhase_get rounds rounds' roundId round round' :
  Forall2 roundKeepsPhase rounds rounds' →
  tbl_get Round._id rounds roundId = Some round →
  tbl_get Round._id rounds' roundId = Some round' →
  Round.status round' = Round.status round.
Proof.
  induction 1 as [|r r' rounds rounds' (Hid & _ & Hst) _ IH]; [done|].
  rewrite !tbl_get_cons, Hid. case_bool_decide; [|done].
  by intros [= <-] [= <-].
Qed.

Lemma transitionPhase_frame_other cfg now id roundId s s' :
  transitionPhase cfg now id s = Returned () s' →
  roundId ≠ id →
  roundOf s' roundId = roundOf s roundId.
Proof.
  intros Hrun Hne. destruct (roundOf s id) as [round|] eqn:Hget.
  - destruct (duplicateTransition cfg now round) eqn:Hdup.
    + rewrite (transitionPhase_absorbed _ _ _ _ _ Hget Hdup) in Hrun.
      by injection Hrun as <-.
    + rewrite (transitionPhase_advance _ _ _ _ _ Hget Hdup) in Hrun.
      injection Hrun as <-. by eapply roundOf_advance_ne.
  - rewrite (transitionPhase_absent _ _ _ _ Hget) in Hrun. by injection Hrun as <-.
Qed.

(** The fail-open run returns, and leaves the round in the voting phase
    with no image, its voting timer stored, and the generating timer
    still pending. *)
Lemma fail_open_store_reached :
  runCalls sample_config fail_open_calls
    (sample_store_no_prompts (sample_round Round.prompt (Some 60000) (Some 39%N)))
  = Returned () fail_open_store
  ∧ Round.status <$> roundOf fail_open_store 7%N = Some Round.voting
  ∧ (roundOf fail_open_store 7%N ≫= Round.phaseEndTime) = Some 114000
  ∧ (roundOf fail_open_store 7%N ≫= Round.scheduledTransitionId) = Some 46%N
  ∧ imagesOfRound fail_open_store 7%N = []
  ∧ Job.mk 41 105000 (fn_transitionPhase 7) ∈ Store.scheduled fail_open_store
  ∧ Job.mk 46 114000 (fn_transitionPhase 7) ∈ Store.scheduled fail_open_store.
Proof.
  split_and!; try (by vm_compute).
  - vm_compute. do 2 right. left.
  - vm_compute. do 7 right. left.
Qed.



